(** * ClumsyGrad: the Tensor graph engine of [src/clumsygrad/tensor.py]

    A shallow embedding of the reverse-mode automatic-differentiation
    engine: the node store, the graph builder [_create_node], the
    operations built on it, the stale-tensor reclaimer
    [clear_stale_tensors] and [backward].

    Python objects live in a store addressed by their [_id]: every
    [Tensor] takes a fresh [_id] from the class counter, so the [_id] is
    the object's identity ([is], [list.remove], [!=] on tensors and the
    comparisons of [_id] all become equality of addresses).  Exceptions
    are values, and an operation that raises keeps the store as it was
    when the exception left it.

    Scope.  [__pow__] (a unary [_create_node] like [__neg__], over
    numpy's [**]) and [__repr__] are left out.  A
    seed passed to [backward] is an array.  The conversion
    [np.array(data, dtype=np.float32)] of [__init__] is done by the
    caller: a tensor is built from an array.  The weak registry is a list
    of addresses, and no object is ever collected.  The interpreter's
    recursion limit is not part of the model: [build_topo] and the
    traversals of [TensorUtils] get as much depth as there are tensors,
    which is always enough. *)

From Stdlib Require Import ZArith Floats.SpecFloat.
From stdpp Require Import gmap strings list.

Set Warnings "-clear-no-such-hyp,-level-tolerance".

(** ** The numeric layer

    [numpy] is outside the repository.  Its arrays and the array
    operations that [tensor.py] calls are the fields of a class.  The
    element-wise operations are taken as total: the operators call them
    on equal shapes (they check) or with a scalar.  The one place where
    this is an assumption is the sum [parent._grad + grad] of
    [backward], between buffers whose shapes nothing compares: numpy
    raises [ValueError] there when the shapes do not broadcast, and the
    pass stops.  What is stated of [backward] below either holds of such
    a stopped run too, or is stated of the runs that return.
    [np_matmul] and [np_reshape] may fail ([None]: numpy raises
    [ValueError]) where the guards of [tensor.py] do not exclude it. *)
Class NumPy := {
  ndarray : Type;
  pyfloat : Type;
  np_shape : ndarray → list nat;
  np_ones_like : ndarray → ndarray;
  np_add : ndarray → ndarray → ndarray;
  np_sub : ndarray → ndarray → ndarray;
  np_mul : ndarray → ndarray → ndarray;
  np_add_scalar : ndarray → pyfloat → ndarray;
  np_sub_scalar : ndarray → pyfloat → ndarray;
  np_mul_scalar : ndarray → pyfloat → ndarray;
  np_negative : ndarray → ndarray;
  np_transpose : ndarray → ndarray;
  np_matmul : ndarray → ndarray → option ndarray;
  np_reshape : ndarray → list Z → option ndarray;
}.

(** [class TensorType(IntEnum)] *)
Inductive TensorType := INPUT | PARAMETER | INTERMEDIATE.

(** The gradient functions that [tensor.py] imports from [.grad] and
    stores in [_grad_fn]; [T] compares them by identity. *)
Inductive GradFn :=
  | transpose_backward | add_backward | add_scalar_backward
  | sub_backward | sub_scalar_backward | mul_backward | mul_scalar_backward
  | matmul_backward | negate_backward | reshape_backward.

#[global] Instance TensorType_eq_dec : EqDecision TensorType.
Proof. solve_decision. Defined.
#[global] Instance GradFn_eq_dec : EqDecision GradFn.
Proof. solve_decision. Defined.

Inductive Exception :=
  | ValueError (msg : string)
  | TypeError (msg : string)
  | RuntimeError (msg : string)
  | IndexError
  | KeyError
  | RecursionError
  | DanglingRef.

Inductive Result (A : Type) := Ok (a : A) | Raise (e : Exception).
Arguments Ok {A} a.
Arguments Raise {A} e.

(** [list.remove(x)]: drops the first occurrence, [None] (a
    [ValueError]) when there is none. *)
Fixpoint list_remove (x : nat) (l : list nat) : option (list nat) :=
  match l with
  | [] => None
  | y :: l' => if decide (y = x) then Some l'
               else cons y <$> list_remove x l'
  end.

(** The number of occurrences of [i] in [l]. *)
Definition count (i : nat) (l : list nat) : nat :=
  length (filter (λ r, r = i) l).

(** The value a signed 64-bit integer holds for the exact result [z]:
    numpy's integer arithmetic wraps around without an error. *)
Definition int64 (z : Z) : Z := ((z + 2 ^ 63) mod 2 ^ 64 - 2 ^ 63)%Z.

(** [np.prod] of a tuple of Python ints (a shape), which numpy
    multiplies as [int64]s.  (A tuple holding an int beyond the [int64]
    range makes numpy pick another type; shapes have no such entry.) *)
Definition np_prod (s : list Z) : Z :=
  foldr (λ d acc, int64 (d * acc)) 1%Z s.

Section Engine.
Context `{np : NumPy}.

(** Values of the [_extra] dictionary. *)
Inductive ExtraValue := ExFloat (v : pyfloat) | ExShape (s : list nat).

(** The slots of [class Tensor]; [_children] and [_parents] hold
    references, that is, addresses. *)
Record Tensor := mkTensor {
  _data : ndarray;
  _shape : list nat;
  _id : nat;
  _grad_fn : option GradFn;
  _grad : option ndarray;
  _children : list nat;
  _parents : list nat;
  _stale : bool;
  _extra : gmap string ExtraValue;
  _version : nat;
  _tensor_type : TensorType;
  _requires_grad : bool;
}.

Definition with_grad_fn (f : option GradFn) (t : Tensor) : Tensor :=
  mkTensor (_data t) (_shape t) (_id t) f (_grad t) (_children t)
    (_parents t) (_stale t) (_extra t) (_version t) (_tensor_type t)
    (_requires_grad t).
Definition with_grad (g : option ndarray) (t : Tensor) : Tensor :=
  mkTensor (_data t) (_shape t) (_id t) (_grad_fn t) g (_children t)
    (_parents t) (_stale t) (_extra t) (_version t) (_tensor_type t)
    (_requires_grad t).
Definition with_children (c : list nat) (t : Tensor) : Tensor :=
  mkTensor (_data t) (_shape t) (_id t) (_grad_fn t) (_grad t) c
    (_parents t) (_stale t) (_extra t) (_version t) (_tensor_type t)
    (_requires_grad t).
Definition with_parents (p : list nat) (t : Tensor) : Tensor :=
  mkTensor (_data t) (_shape t) (_id t) (_grad_fn t) (_grad t) (_children t)
    p (_stale t) (_extra t) (_version t) (_tensor_type t)
    (_requires_grad t).
Definition with_stale (b : bool) (t : Tensor) : Tensor :=
  mkTensor (_data t) (_shape t) (_id t) (_grad_fn t) (_grad t) (_children t)
    (_parents t) b (_extra t) (_version t) (_tensor_type t)
    (_requires_grad t).
Definition with_extra (e : gmap string ExtraValue) (t : Tensor) : Tensor :=
  mkTensor (_data t) (_shape t) (_id t) (_grad_fn t) (_grad t) (_children t)
    (_parents t) (_stale t) e (_version t) (_tensor_type t)
    (_requires_grad t).
Definition with_requires_grad (b : bool) (t : Tensor) : Tensor :=
  mkTensor (_data t) (_shape t) (_id t) (_grad_fn t) (_grad t) (_children t)
    (_parents t) (_stale t) (_extra t) (_version t) (_tensor_type t) b.

(** The process state: the objects, and the two class attributes
    [Tensor._global_tensor_registry] and [Tensor._id_counter].  The
    registry is a dictionary from [_id] to the tensor with that [_id]; its
    keys are kept in insertion order, the order in which
    [list(registry.values())] enumerates.  The registry holds weak
    references; the garbage collector is not modelled, so an entry stays
    until it is deleted. *)
Record State := mkState {
  heap : gmap nat Tensor;
  _global_tensor_registry : list nat;
  _id_counter : nat;
}.

Definition empty_state : State := mkState ∅ [] 0.

(** ** State and exceptions *)
Definition M (A : Type) : Type := State → Result A * State.

Definition ret {A} (a : A) : M A := λ st, (Ok a, st).
Definition raise {A} (e : Exception) : M A := λ st, (Raise e, st).
Definition bind {A B} (m : M A) (k : A → M B) : M B :=
  λ st, match m st with
        | (Ok a, st') => k a st'
        | (Raise e, st') => (Raise e, st')
        end.

#[global] Instance M_ret : MRet M := @ret.
#[global] Instance M_bind : MBind M := λ A B k m, bind m k.

(** Reading an attribute through a reference.  References are always
    live in Python; [DanglingRef] only makes the lookup total. *)
Definition deref (r : nat) : M Tensor :=
  λ st, match heap st !! r with
        | Some t => (Ok t, st)
        | None => (Raise DanglingRef, st)
        end.

(** Assigning to attributes of the object at [r]. *)
Definition update (r : nat) (f : Tensor → Tensor) : M unit :=
  λ st, (Ok tt, mkState (alter f r (heap st)) (_global_tensor_registry st)
                  (_id_counter st)).

Fixpoint for_each {A} (l : list A) (body : A → M unit) : M unit :=
  match l with
  | [] => ret tt
  | x :: l' => body x ;; for_each l' body
  end.

(** ** [Tensor.__init__] *)
Definition Tensor_init (data : ndarray) (tensor_type : TensorType) : M nat :=
  λ st,
    let self := _id_counter st in
    let t := {| _data := data;
                _shape := np_shape data;
                _id := self;
                _grad_fn := None;
                _grad := None;
                _children := [];
                _parents := [];
                _stale := false;
                _extra := ∅;
                _version := 0;
                _tensor_type := tensor_type;
                _requires_grad := bool_decide (tensor_type = PARAMETER) |} in
    (Ok self, mkState (<[self := t]> (heap st))
                (_global_tensor_registry st ++ [self])
                (S (_id_counter st))).

(** [any(parent._requires_grad for parent in parents)] *)
Definition requires_grad_of (h : gmap nat Tensor) (r : nat) : bool :=
  from_option _requires_grad false (h !! r).

(** ** [Tensor._create_node] *)
Definition _create_node (data : ndarray) (grad_fn : option GradFn)
    (parents : list nat) (extra : gmap string ExtraValue) : M nat :=
  node ← Tensor_init data INTERMEDIATE;
  update node (with_grad_fn grad_fn) ;;
  update node (with_parents parents) ;;
  (λ st, update node
           (with_requires_grad (existsb (requires_grad_of (heap st)) parents))
           st) ;;
  update node (λ t, with_extra (extra ∪ _extra t) t) ;;
  for_each parents
    (λ parent, update parent (λ t, with_children (_children t ++ [node]) t)) ;;
  ret node.

(** ** [Tensor.clear_stale_tensors] *)
Definition remove_child (parent tensor : nat) : M unit :=
  p ← deref parent;
  match list_remove tensor (_children p) with
  | Some l => update parent (with_children l)
  | None => raise (ValueError "list.remove(x): x not in list")
  end.

(** [tuple(p for p in child._parents if p._id != tensor._id)] *)
Definition drop_ref (tensor : nat) (child : Tensor) : Tensor :=
  with_parents (filter (λ p, p ≠ tensor) (_parents child)) child.

Definition drop_parent (tensor child : nat) : M unit :=
  update child (drop_ref tensor).

Definition del_registry (r : nat) : M unit :=
  λ st,
    if decide (r ∈ _global_tensor_registry st) then
      (Ok tt, mkState (heap st)
                (filter (λ k, k ≠ r) (_global_tensor_registry st))
                (_id_counter st))
    else (Raise KeyError, st).

Definition reclaim (r : nat) : M unit :=
  tensor ← deref r;
  if _stale tensor then
    for_each (_parents tensor) (λ parent, remove_child parent r) ;;
    tensor' ← deref r;
    for_each (_children tensor') (λ child, drop_parent r child) ;;
    del_registry r
  else ret tt.

Definition clear_stale_tensors : M unit :=
  λ st, for_each (_global_tensor_registry st) reclaim st.

(** ** [Tensor.T] *)
Definition T (self : nat) : M nat :=
  t ← deref self;
  if bool_decide (_grad_fn t = Some transpose_backward
                  ∧ length (_parents t) = 1) then
    update self (with_stale true) ;;
    match _parents t with
    | p :: _ => ret p
    | [] => raise IndexError
    end
  else
    _create_node (np_transpose (_data t)) (Some transpose_backward) [self] ∅.

(** The right operand of a binary operator: a tensor
    ([isinstance(other, Tensor)]) or a Python scalar. *)
Inductive Operand := OTensor (other : nat) | OScalar (other : pyfloat).

Definition scalar_extra (other : pyfloat) : gmap string ExtraValue :=
  {[ "scalar_value" := ExFloat other ]}.

(** ** [Tensor.__add__], [__sub__], [__mul__] and their reflections *)
Definition __add__ (self : nat) (other : Operand) : M nat :=
  s ← deref self;
  match other with
  | OTensor o =>
      t ← deref o;
      if bool_decide (_shape s ≠ _shape t) then
        raise (ValueError "Shape mismatch for addition")
      else
        _create_node (np_add (_data s) (_data t)) (Some add_backward)
          [self; o] ∅
  | OScalar v =>
      _create_node (np_add_scalar (_data s) v) (Some add_scalar_backward)
        [self] (scalar_extra v)
  end.

Definition __radd__ (self : nat) (other : Operand) : M nat :=
  __add__ self other.

Definition __sub__ (self : nat) (other : Operand) : M nat :=
  s ← deref self;
  match other with
  | OTensor o =>
      t ← deref o;
      if bool_decide (_shape s ≠ _shape t) then
        raise (ValueError "Shape mismatch for subtraction")
      else
        _create_node (np_sub (_data s) (_data t)) (Some sub_backward)
          [self; o] ∅
  | OScalar v =>
      _create_node (np_sub_scalar (_data s) v) (Some sub_scalar_backward)
        [self] (scalar_extra v)
  end.

Definition __rsub__ (self : nat) (other : Operand) : M nat :=
  __sub__ self other.

Definition __mul__ (self : nat) (other : Operand) : M nat :=
  s ← deref self;
  match other with
  | OTensor o =>
      t ← deref o;
      if bool_decide (_shape s ≠ _shape t) then
        raise (ValueError "Shape mismatch for multiplication")
      else
        _create_node (np_mul (_data s) (_data t)) (Some mul_backward)
          [self; o] ∅
  | OScalar v =>
      _create_node (np_mul_scalar (_data s) v) (Some mul_scalar_backward)
        [self] (scalar_extra v)
  end.

Definition __rmul__ (self : nat) (other : Operand) : M nat :=
  __mul__ self other.

(** [shape[-k-1]] of a shape tuple. *)
Definition from_end (s : list nat) (k : nat) : option nat := rev s !! k.

(** ** [Tensor.__matmul__] *)
Definition __matmul__ (self : nat) (other : Operand) : M nat :=
  match other with
  | OScalar _ =>
      raise (TypeError "Right operand must be a Tensor for matrix multiplication.")
  | OTensor o =>
      s ← deref self;
      t ← deref o;
      if bool_decide (length (_shape s) < 2 ∨ length (_shape t) < 2) then
        raise (ValueError "Matrix multiplication requires at least 2D tensors.")
      else if bool_decide (from_end (_shape s) 0 ≠ from_end (_shape t) 1) then
        raise (ValueError "Matrix shapes not aligned")
      else
        match np_matmul (_data s) (_data t) with
        | None => raise (ValueError "matmul")
        | Some data =>
            _create_node data (Some matmul_backward) [self; o] ∅
        end
  end.

(** ** [Tensor.__neg__] *)
Definition __neg__ (self : nat) : M nat :=
  s ← deref self;
  _create_node (np_negative (_data s)) (Some negate_backward) [self] ∅.

(** ** [Tensor.reshape] *)
Definition reshape (self : nat) (new_shape : list Z) : M nat :=
  s ← deref self;
  if bool_decide (np_prod new_shape ≠ np_prod (Z.of_nat <$> _shape s)) then
    raise (ValueError "New shape must have the same number of elements as the original shape.")
  else
    match np_reshape (_data s) new_shape with
    | None => raise (ValueError "cannot reshape array")
    | Some data =>
        _create_node data (Some reshape_backward) [self]
          {[ "original_shape" := ExShape (_shape s) ]}
    end.

(** The property setter [grad]. *)
Definition set_grad (self : nat) (value : option ndarray) : M unit :=
  update self (with_grad value).

(** ** [Tensor.backward] *)

(** The gradient functions are defined in [grad.py]; a call
    [grad_fn(node, grad)] reads the graph and returns a tuple of
    buffers. *)
Variable grad_call : GradFn → gmap nat Tensor → nat → ndarray → list ndarray.

(** [ndarray.size] *)
Definition np_size (a : ndarray) : nat := foldr Nat.mul 1 (np_shape a).

(** The closure [build_topo], with [visited] and [topo_order] passed
    through.  The recursion descends along [_parents]; [fuel] bounds its
    depth, and running out of it is Python's [RecursionError]. *)
Definition visit_all (build : nat → gset nat * list nat → Result (gset nat * list nat))
    : list nat → gset nat * list nat → Result (gset nat * list nat) :=
  fix visit (parents : list nat) (acc : gset nat * list nat) :=
    match parents with
    | [] => Ok acc
    | parent :: parents' =>
        match build parent acc with
        | Ok acc' => visit parents' acc'
        | Raise e => Raise e
        end
    end.

Fixpoint build_topo (fuel : nat) (h : gmap nat Tensor) (node : nat)
    (acc : gset nat * list nat) : Result (gset nat * list nat) :=
  match fuel with
  | 0 => Raise RecursionError
  | S fuel' =>
      match h !! node with
      | None => Raise DanglingRef
      | Some n =>
          if bool_decide (node ∈ acc.1) || negb (_requires_grad n) then Ok acc
          else
            match visit_all (build_topo fuel' h) (_parents n)
                    ({[node]} ∪ acc.1, acc.2) with
            | Ok acc' => Ok (acc'.1, acc'.2 ++ [node])
            | Raise e => Raise e
            end
      end
  end.

(** [build_topo(self)] from empty [visited] and [topo_order].  Parents
    are older than their children, so a descent is never deeper than
    [_id_counter]. *)
Definition topo_order_of (self : nat) : M (list nat) :=
  λ st, match build_topo (_id_counter st) (heap st) self (∅, []) with
        | Ok acc => (Ok acc.2, st)
        | Raise e => (Raise e, st)
        end.

(** The body of [for parent, grad in zip(node._parents, gradients)].
    The sum is [np_add], total: see the numeric layer for the shapes on
    which numpy raises instead. *)
Definition accumulate (pg : nat * ndarray) : M unit :=
  parent ← deref pg.1;
  if _requires_grad parent then
    match _grad parent with
    | None => update pg.1 (with_grad (Some pg.2))
    | Some old => update pg.1 (with_grad (Some (np_add old pg.2)))
    end
  else ret tt.

(** The body of [for node in reversed(topo_order)]. *)
Definition backward_node (self : nat) (keep_grads : bool) (node : nat)
    : M unit :=
  n ← deref node;
  match _grad_fn n, _grad n with
  | Some grad_fn, Some grad =>
      gradients ← (λ st, (Ok (grad_call grad_fn (heap st) node grad), st));
      for_each (combine (_parents n) gradients) accumulate ;;
      if negb keep_grads
         && bool_decide (_tensor_type n = INTERMEDIATE)
         && bool_decide (node ≠ self)
      then update node (with_grad None)
      else ret tt
  | _, _ => ret tt
  end.

Definition backward (self : nat) (gradient : option ndarray)
    (keep_grads : bool) : M unit :=
  clear_stale_tensors ;;
  s ← deref self;
  if negb (_requires_grad s) then
    raise (RuntimeError "Tensor does not require gradients")
  else
    gradient ←
      match gradient with
      | None =>
          if bool_decide (np_size (_data s) ≠ 1) then
            raise (RuntimeError "Gradient can only be implicitly created for scalar outputs")
          else ret (np_ones_like (_data s))
      | Some g => ret g
      end;
    topo_order ← topo_order_of self;
    update self (with_grad (Some gradient)) ;;
    for_each (rev topo_order) (backward_node self keep_grads).

(** ** Notions used to state the properties *)

Definition parents_of (h : gmap nat Tensor) (r : nat) : list nat :=
  from_option _parents [] (h !! r).
Definition children_of (h : gmap nat Tensor) (r : nat) : list nat :=
  from_option _children [] (h !! r).
Definition grad_of (h : gmap nat Tensor) (r : nat) : option ndarray :=
  h !! r ≫= _grad.
Definition grad_fn_of (h : gmap nat Tensor) (r : nat) : option GradFn :=
  h !! r ≫= _grad_fn.
Definition stale_of (h : gmap nat Tensor) (r : nat) : bool :=
  from_option _stale false (h !! r).
Definition shape_of (h : gmap nat Tensor) (r : nat) : list nat :=
  from_option _shape [] (h !! r).
Definition data_of (h : gmap nat Tensor) (r : nat) : option ndarray :=
  _data <$> h !! r.

Definition live (st : State) (r : nat) : Prop := is_Some (heap st !! r).

(** Every parent reference is live and points to an older object. *)
Definition graph_ok (h : gmap nat Tensor) : Prop :=
  ∀ r p, p ∈ parents_of h r → p < r ∧ is_Some (h !! p).

(** Every object was allocated below the counter. *)
Definition ids_ok (st : State) : Prop :=
  ∀ r t, heap st !! r = Some t → r < _id_counter st ∧ _id t = r.

(** [x] is reached from [self] along [_parents] through tensors that all
    require gradients, [self] and [x] included. *)
Inductive grad_path (h : gmap nat Tensor) (self : nat) : nat → Prop :=
  | grad_path_self :
      requires_grad_of h self = true → grad_path h self self
  | grad_path_step x p :
      grad_path h self x → p ∈ parents_of h x →
      requires_grad_of h p = true → grad_path h self p.

(** [x] occurs in [l] strictly before [y]. *)
Definition before (l : list nat) (x y : nat) : Prop :=
  ∃ l1 l2 l3, l = l1 ++ x :: l2 ++ y :: l3.

(** Every element of [order] comes after its gradient-requiring parents,
    which are either in [seen] or earlier in [order]. *)
Fixpoint topo_sorted_from (h : gmap nat Tensor) (seen order : list nat)
    : Prop :=
  match order with
  | [] => True
  | x :: order' =>
      (∀ p, p ∈ parents_of h x → requires_grad_of h p = true → p ∈ seen)
      ∧ topo_sorted_from h (seen ++ [x]) order'
  end.

(** What one call [build_topo(node)] adds to [visited] and [topo_order]. *)
Definition build_post (h : gmap nat Tensor) (node : nat) (V : gset nat)
    (O : list nat)
    (res : Result (gset nat * list nat)) : Prop :=
  ∃ O', res = Ok (V ∪ list_to_set O', O ++ O')
    ∧ NoDup O'
    ∧ (requires_grad_of h node = true → node ∈ O ++ O')
    ∧ (∀ x, x ∈ O' →
         x ≤ node ∧ x ∉ V ∧ grad_path h node x)
    ∧ topo_sorted_from h O O'.

Definition visit_post (h : gmap nat Tensor) (n : nat) (ps : list nat)
    (V : gset nat) (O : list nat)
    (res : Result (gset nat * list nat)) : Prop :=
  ∃ O', res = Ok (V ∪ list_to_set O', O ++ O')
    ∧ NoDup O'
    ∧ (∀ p, p ∈ ps → requires_grad_of h p = true → p ∈ O ++ O')
    ∧ (∀ x, x ∈ O' →
         x < n ∧ x ∉ V ∧ ∃ p, p ∈ ps ∧ grad_path h p x)
    ∧ topo_sorted_from h O O'.

(** *** The store after [_create_node] *)

(** Applying [f] to the object behind each reference of [l] in turn. *)
Definition alter_all (f : Tensor → Tensor) (l : list nat)
    (h : gmap nat Tensor) : gmap nat Tensor :=
  foldl (λ h r, alter f r h) h l.

Definition append_child (node : nat) (t : Tensor) : Tensor :=
  with_children (_children t ++ [node]) t.

(** The tensor [_create_node] makes, before its parents list it. *)
Definition new_node (d : ndarray) (f : option GradFn) (ps : list nat)
    (ex : gmap string ExtraValue) (st : State) : Tensor :=
  let self := _id_counter st in
  let t0 := mkTensor d (np_shape d) self f None [] ps false ∅ 0
              INTERMEDIATE false in
  mkTensor d (np_shape d) self f None [] ps false (ex ∪ ∅) 0 INTERMEDIATE
    (existsb (requires_grad_of (<[self := t0]> (heap st))) ps).

(** A leaf as [Tensor.__init__] makes it. *)
Definition leaf (d : ndarray) (tensor_type : TensorType) (st : State)
    : Tensor :=
  mkTensor d (np_shape d) (_id_counter st) None None [] [] false ∅ 0
    tensor_type (bool_decide (tensor_type = PARAMETER)).

(** The store once the new tensor [tn] is allocated, registered and
    listed by its parents. *)
Definition installed (tn : Tensor) (st : State) : State :=
  mkState
    (alter_all (append_child (_id_counter st)) (_parents tn)
       (<[_id_counter st := tn]> (heap st)))
    (_global_tensor_registry st ++ [_id_counter st])
    (S (_id_counter st)).

(** *** Well-formed stores

    The facts that hold of every store the engine builds.  None of them
    mentions a gradient. *)
Record wf (st : State) : Prop := mkWf {
  wf_ids : ids_ok st;
  wf_graph : graph_ok (heap st);
  wf_children : ∀ r c, c ∈ children_of (heap st) r → live st c;
  wf_registry_nodup : NoDup (_global_tensor_registry st);
  wf_registry : ∀ r, r ∈ _global_tensor_registry st → live st r;
  (* only a reclaimed tensor is missing from the registry *)
  wf_unregistered : ∀ r, live st r →
      r ∉ _global_tensor_registry st → stale_of (heap st) r = true;
  (* only transposes are marked stale *)
  wf_stale : ∀ r, stale_of (heap st) r = true →
      grad_fn_of (heap st) r = Some transpose_backward;
  (* a transpose has one parent, which is not a transpose *)
  wf_transpose : ∀ r, grad_fn_of (heap st) r = Some transpose_backward →
      ∃ p, parents_of (heap st) r = [p]
           ∧ grad_fn_of (heap st) p ≠ Some transpose_backward;
  wf_transpose_children : ∀ r c,
      grad_fn_of (heap st) r = Some transpose_backward →
      c ∈ children_of (heap st) r →
      grad_fn_of (heap st) c ≠ Some transpose_backward;
  (* a transpose is listed once, by its parent, while it is registered *)
  wf_transpose_listed : ∀ s n,
      grad_fn_of (heap st) s = Some transpose_backward →
      s ∈ children_of (heap st) n →
      s ∈ _global_tensor_registry st ∧ n ∈ parents_of (heap st) s;
  wf_transpose_once : ∀ s n,
      grad_fn_of (heap st) s = Some transpose_backward →
      count s (children_of (heap st) n) ≤ 1;
  (* a registered tensor is listed by each of its parents *)
  wf_linked : ∀ c p, c ∈ _global_tensor_registry st →
      p ∈ parents_of (heap st) c → c ∈ children_of (heap st) p;
}.

(** The registered tensors flagged stale, in registry order. *)
Definition stale_registered (st : State) : list nat :=
  filter (λ r, stale_of (heap st) r = true) (_global_tensor_registry st).

(** Unlinking a set of tensors: they leave every [_children] list, every
    [_parents] tuple and the registry. *)
Definition unlink_tensor (R : list nat) (t : Tensor) : Tensor :=
  with_children (filter (λ c, c ∉ R) (_children t))
    (with_parents (filter (λ p, p ∉ R) (_parents t)) t).

Definition unlink (R : list nat) (st : State) : State :=
  mkState (unlink_tensor R <$> heap st)
    (filter (λ r, r ∉ R) (_global_tensor_registry st))
    (_id_counter st).

Definition sweep (st : State) : State := unlink (stale_registered st) st.

(** Two stores that differ at most in gradients. *)
Definition same_skeleton (st st' : State) : Prop :=
  _global_tensor_registry st' = _global_tensor_registry st
  ∧ _id_counter st' = _id_counter st
  ∧ ∀ r, with_grad None <$> heap st' !! r = with_grad None <$> heap st !! r.

(** *** The backward pass *)

(** The accumulation rule of [backward]: [grad] if the slot is empty,
    the sum otherwise. *)
Definition accum1 (old : option ndarray) (grad : ndarray) : option ndarray :=
  match old with
  | None => Some grad
  | Some v => Some (np_add v grad)
  end.

Definition accum (old : option ndarray) (grads : list ndarray)
    : option ndarray :=
  foldl accum1 old grads.

(** The gradients that [zip(parents, gradients)] pairs with [x]. *)
Definition contributions (x : nat) (pairs : list (nat * ndarray))
    : list ndarray :=
  (filter (λ pg, pg.1 = x) pairs).*2.

Definition type_of (h : gmap nat Tensor) (r : nat) : option TensorType :=
  _tensor_type <$> h !! r.

(** Whether the pass drops the gradient of [node] after processing it. *)
Definition cleared (keep_grads : bool) (self : nat)
    (h : gmap nat Tensor) (node : nat) : bool :=
  negb keep_grads && bool_decide (type_of h node = Some INTERMEDIATE)
  && bool_decide (node ≠ self).

(** The gradient of [x] after the pass has handled [node]. *)
Definition grad_after (self : nat) (keep_grads : bool) (node : nat)
    (h : gmap nat Tensor) (x : nat) : option ndarray :=
  match grad_fn_of h node, grad_of h node with
  | Some grad_fn, Some grad =>
      if bool_decide (x = node) && cleared keep_grads self h node then None
      else if requires_grad_of h x then
        accum (grad_of h x)
          (contributions x
             (combine (parents_of h node) (grad_call grad_fn h node grad)))
      else grad_of h x
  | _, _ => grad_of h x
  end.

(** The order [backward] iterates, and the store it starts from. *)
Definition topo_order (st : State) (self : nat) : list nat :=
  match topo_order_of self st with
  | (Ok order, _) => order
  | (Raise _, _) => []
  end.

Definition seeded (self : nat) (gradient : ndarray) (st : State) : State :=
  (update self (with_grad (Some gradient)) st).2.

Definition run_pass (self : nat) (keep_grads : bool) (gradient : ndarray)
    (st : State) : Result unit * State :=
  for_each (rev (topo_order st self))
    (backward_node self keep_grads) (seeded self gradient st).

(** [T] marks a transpose stale, or builds a transpose. *)
Definition marked (self : nat) (st : State) : State :=
  (update self (with_stale true) st).2.

(** An operation either raises and leaves the store as it was, or
    builds one node through [_create_node]. *)
Definition builds (st : State) (res : Result nat * State) : Prop :=
  (∃ e, res = (Raise e, st))
  ∨ ∃ d f ps ex,
      f ≠ Some transpose_backward ∧ (∀ p, p ∈ ps → live st p)
      ∧ res = (Ok (_id_counter st), installed (new_node d f ps ex st) st).

(** *** Calls of the public interface *)
Inductive BinOp := Add | RAdd | Sub | RSub | Mul | RMul | Matmul.

Definition binop (op : BinOp) : nat → Operand → M nat :=
  match op with
  | Add => __add__ | RAdd => __radd__
  | Sub => __sub__ | RSub => __rsub__
  | Mul => __mul__ | RMul => __rmul__
  | Matmul => __matmul__
  end.

Inductive Call :=
  | CallInit (data : ndarray) (tensor_type : TensorType)
  | CallCreate (data : ndarray) (grad_fn : option GradFn)
      (parents : list nat) (extra : gmap string ExtraValue)
  | CallT (self : nat)
  | CallBinOp (op : BinOp) (self : nat) (other : Operand)
  | CallNeg (self : nat)
  | CallReshape (self : nat) (new_shape : list Z)
  | CallSetGrad (self : nat) (value : option ndarray)
  | CallClear
  | CallBackward (self : nat) (gradient : option ndarray) (keep_grads : bool).

Definition exec (c : Call) : M unit :=
  match c with
  | CallInit data tensor_type => Tensor_init data tensor_type ;; ret tt
  | CallCreate data grad_fn parents extra =>
      _create_node data grad_fn parents extra ;; ret tt
  | CallT self => T self ;; ret tt
  | CallBinOp op self other => binop op self other ;; ret tt
  | CallNeg self => __neg__ self ;; ret tt
  | CallReshape self new_shape => reshape self new_shape ;; ret tt
  | CallSetGrad self value => set_grad self value
  | CallClear => clear_stale_tensors
  | CallBackward self gradient keep_grads => backward self gradient keep_grads
  end.

Definition live_operand (st : State) (o : Operand) : Prop :=
  match o with OTensor r => live st r | OScalar _ => True end.

(** A call passes references to live tensors.  The graph builder is
    also called by operation libraries outside [tensor.py], with their
    own gradient functions; transposes come from [T] alone. *)
Definition valid (st : State) (c : Call) : Prop :=
  match c with
  | CallInit _ _ | CallClear => True
  | CallCreate _ grad_fn parents _ =>
      grad_fn ≠ Some transpose_backward ∧ ∀ p, p ∈ parents → live st p
  | CallT self | CallNeg self | CallReshape self _
  | CallSetGrad self _ | CallBackward self _ _ => live st self
  | CallBinOp _ self other => live st self ∧ live_operand st other
  end.

#[global] Instance valid_dec (st : State) (c : Call) : Decision (valid st c).
Proof.
  destruct c as [| d f ps ex | | | | | | |]; simpl; try apply _.
  - apply and_dec; [apply _|].
    destruct (decide (Forall (live st) ps)) as [Hall|Hall].
    + left. by apply Forall_forall.
    + right. intros Hps. by apply Hall, Forall_forall.
  - unfold live_operand. destruct other; apply _.
Defined.

(** One call, whether it returns or raises. *)
Definition step (st st' : State) : Prop :=
  ∃ c, valid st c ∧ (exec c st).2 = st'.

(** A sequence of calls from a given store; [None] if one of them is
    not valid where it is made. *)
Fixpoint run_calls (cs : list Call) (st : State) : option State :=
  match cs with
  | [] => Some st
  | c :: cs' =>
      if decide (valid st c) then run_calls cs' (exec c st).2 else None
  end.

(** The stores the engine can be in. *)
Definition reachable (st : State) : Prop := rtc step empty_state st.

End Engine.

(** ** [TensorUtils]

    The two traversals of [class TensorUtils] walk the graph along
    [_parents] from a tensor, whatever [_requires_grad] says, and keep a
    set of the [_id]s met. *)

(** [class TensorType(IntEnum)]: the values of the members, by which a
    dictionary keyed by [TensorType] hashes them. *)
Definition TensorType_value (k : TensorType) : nat :=
  match k with INPUT => 0 | PARAMETER => 1 | INTERMEDIATE => 2 end.

#[global] Instance TensorType_countable : Countable TensorType.
Proof.
  refine (inj_countable' TensorType_value
            (λ v, match v with
                  | 0 => INPUT | 1 => PARAMETER | _ => INTERMEDIATE
                  end) _).
  by intros [].
Defined.

(** The loop [for child in (node._parents or [])] around a recursive
    call, with the state of the closure passed through. *)
Fixpoint visit_each {A} (visit : nat → A → Result A) (l : list nat) (acc : A)
    : Result A :=
  match l with
  | [] => Ok acc
  | p :: l' =>
      match visit p acc with
      | Ok acc' => visit_each visit l' acc'
      | Raise e => Raise e
      end
  end.

Section Utils.
Context `{np : NumPy}.

(** The closure [collect_params] of [TensorUtils.get_parameters], with
    [visited] and [parameters] passed through; [fuel] bounds the depth
    of the recursion, as in [build_topo]. *)
Fixpoint collect_params (fuel : nat) (h : gmap nat Tensor) (node : nat)
    (acc : gset nat * list nat) : Result (gset nat * list nat) :=
  match fuel with
  | 0 => Raise RecursionError
  | S fuel' =>
      match h !! node with
      | None => Raise DanglingRef
      | Some n =>
          if bool_decide (node ∈ acc.1) then Ok acc
          else
            visit_each (collect_params fuel' h) (_parents n)
              ({[node]} ∪ acc.1,
               if decide (_tensor_type n = PARAMETER) then acc.2 ++ [node]
               else acc.2)
      end
  end.

(** [TensorUtils.get_parameters] *)
Definition get_parameters (tensor : nat) : M (list nat) :=
  λ st, match collect_params (_id_counter st) (heap st) tensor (∅, []) with
        | Ok acc => (Ok acc.2, st)
        | Raise e => (Raise e, st)
        end.

(** [counts[k] += 1] *)
Definition increment (k : TensorType) (counts : gmap TensorType nat)
    : Result (gmap TensorType nat) :=
  match counts !! k with
  | Some c => Ok (<[k := c + 1]> counts)
  | None => Raise KeyError
  end.

(** The closure [count_nodes] of [TensorUtils.count_by_type], with
    [visited] and [counts] passed through. *)
Fixpoint count_nodes (fuel : nat) (h : gmap nat Tensor) (node : nat)
    (acc : gset nat * gmap TensorType nat)
    : Result (gset nat * gmap TensorType nat) :=
  match fuel with
  | 0 => Raise RecursionError
  | S fuel' =>
      match h !! node with
      | None => Raise DanglingRef
      | Some n =>
          if bool_decide (node ∈ acc.1) then Ok acc
          else
            match increment (_tensor_type n) acc.2 with
            | Ok counts =>
                visit_each (count_nodes fuel' h) (_parents n)
                  ({[node]} ∪ acc.1, counts)
            | Raise e => Raise e
            end
      end
  end.

(** [TensorUtils.count_by_type] *)
Definition count_by_type (tensor : nat) : M (gmap TensorType nat) :=
  λ st, match count_nodes (_id_counter st) (heap st) tensor
                (∅, {[INPUT := 0; PARAMETER := 0; INTERMEDIATE := 0]}) with
        | Ok acc => (Ok acc.2, st)
        | Raise e => (Raise e, st)
        end.

(** *** Notions used to state the properties of the traversals *)

(** [x] is reached from [self] along [_parents]. *)
Inductive reaches (h : gmap nat Tensor) (self : nat) : nat → Prop :=
  | reaches_self : reaches h self self
  | reaches_step x p :
      reaches h self x → p ∈ parents_of h x → reaches h self p.

(** The tensors either traversal visits, in the order of their first
    visit: the recursion of [collect_params] and [count_nodes] without
    what they record. *)
Fixpoint walk (fuel : nat) (h : gmap nat Tensor) (node : nat)
    (acc : gset nat * list nat) : Result (gset nat * list nat) :=
  match fuel with
  | 0 => Raise RecursionError
  | S fuel' =>
      match h !! node with
      | None => Raise DanglingRef
      | Some n =>
          if bool_decide (node ∈ acc.1) then Ok acc
          else visit_each (walk fuel' h) (_parents n)
                 ({[node]} ∪ acc.1, acc.2 ++ [node])
      end
  end.

(** What each traversal records when it first visits [x]. *)
Definition add_param (h : gmap nat Tensor) (parameters : list nat) (x : nat)
    : list nat :=
  if decide (type_of h x = Some PARAMETER) then parameters ++ [x]
  else parameters.

Definition add_count (h : gmap nat Tensor) (counts : gmap TensorType nat)
    (x : nat) : gmap TensorType nat :=
  match type_of h x with
  | Some k => <[k := default 0 (counts !! k) + 1]> counts
  | None => counts
  end.

(** The dictionary [count_by_type] starts from, and the fact that lets
    [counts[k] += 1] never raise [KeyError]. *)
Definition no_counts : gmap TensorType nat :=
  {[INPUT := 0; PARAMETER := 0; INTERMEDIATE := 0]}.

Definition all_keys (counts : gmap TensorType nat) : Prop :=
  ∀ k, is_Some (counts !! k).

(** What a visit of [roots] from the visited set [V] adds: the tensors
    [N'], new, reached from a root, and closed under [_parents] together
    with [V]. *)
Definition walk_post (h : gmap nat Tensor) (roots : list nat) (V : gset nat)
    (N : list nat) (res : Result (gset nat * list nat)) : Prop :=
  ∃ N', res = Ok (V ∪ list_to_set N', N ++ N')
    ∧ NoDup N'
    ∧ (∀ x, x ∈ N' → x ∉ V ∧ ∃ r, r ∈ roots ∧ reaches h r x)
    ∧ (∀ r, r ∈ roots → r ∈ V ∨ r ∈ N')
    ∧ (∀ x p, x ∈ N' → p ∈ parents_of h x → p ∈ V ∨ p ∈ N').

(** *** Slots and their consistency *)

(** The slots that no method assigns once a call has built the tensor. *)
Definition fixed_slots (t : Tensor) :=
  (_data t, _shape t, _id t, _grad_fn t, _extra t, _version t,
   _tensor_type t, _requires_grad t).

(** How the slots of the tensor at [r] agree with each other and with
    its parents. *)
Definition consistent (h : gmap nat Tensor) (r : nat) (t : Tensor) : Prop :=
  _id t = r
  ∧ _shape t = np_shape (_data t)
  ∧ _version t = 0
  ∧ (_tensor_type t = PARAMETER → _requires_grad t = true)
  ∧ (_tensor_type t = INPUT → _requires_grad t = false)
  ∧ (_tensor_type t ≠ INTERMEDIATE → _parents t = [] ∧ _grad_fn t = None)
  ∧ (∀ p, p ∈ _parents t → requires_grad_of h p = true →
       _requires_grad t = true).

Definition sound (st : State) : Prop :=
  ∀ r t, heap st !! r = Some t → consistent (heap st) r t.

(** The call returned the node [_create_node] built from the data [d],
    the gradient function [f] and the parents [ps]. *)
Definition built (st : State) (res : Result nat * State) (d : ndarray)
    (f : GradFn) (ps : list nat) : Prop :=
  let node := _id_counter st in
  res.1 = Ok node
  ∧ data_of (heap res.2) node = Some d
  ∧ grad_fn_of (heap res.2) node = Some f
  ∧ parents_of (heap res.2) node = ps
  ∧ requires_grad_of (heap res.2) node
    = existsb (requires_grad_of (heap st)) ps
  ∧ ∀ p, p ∈ ps → node ∈ children_of (heap res.2) p.

End Utils.

(** ** A numeric backend: row-major arrays of IEEE binary32

    Used to run the engine on concrete graphs.  Elements are
    [spec_float]s rounded to binary32 (precision 24, maximal exponent
    128), as [np.float32]; a Python scalar is a binary64 [spec_float],
    converted to binary32 before it meets an array. *)
Module Float32.

Definition f32_add := SFadd 24 128.
Definition f32_sub := SFsub 24 128.
Definition f32_mul := SFmul 24 128.
Definition f32_of_Z (z : Z) : spec_float := binary_normalize 24 128 z 0 false.
Definition py_of_Z (z : Z) : spec_float := binary_normalize 53 1024 z 0 false.

Definition f32_of_py (v : spec_float) : spec_float :=
  match v with
  | S754_finite s m e => binary_round 24 128 s m e
  | _ => v
  end.

Record array := mkArray { a_shape : list nat; a_data : list spec_float }.

(** [np.array(values, dtype=np.float32)] for a flat list of integers:
    each is converted to a Python float (binary64) and then to binary32. *)
Definition vector (values : list Z) : array :=
  mkArray [length values] ((λ z, f32_of_py (py_of_Z z)) <$> values).

(** An array of the given shape filled with one value. *)
Definition full (shape : list nat) (z : Z) : array :=
  mkArray shape (replicate (foldr Nat.mul 1 shape) (f32_of_Z z)).

(** Element-wise operations between arrays of one shape; broadcasting
    between different shapes is not provided (the left operand is
    returned). *)
Definition elementwise (op : spec_float → spec_float → spec_float)
    (a b : array) : array :=
  if decide (a_shape a = a_shape b)
  then mkArray (a_shape a) (zip_with op (a_data a) (a_data b))
  else a.

Definition with_scalar (op : spec_float → spec_float → spec_float)
    (a : array) (v : spec_float) : array :=
  mkArray (a_shape a) ((λ x, op x (f32_of_py v)) <$> a_data a).

(** Row-major index arithmetic. *)
Fixpoint ravel (shape idx : list nat) (acc : nat) : nat :=
  match shape, idx with
  | d :: shape', i :: idx' => ravel shape' idx' (acc * d + i)
  | _, _ => acc
  end.

Fixpoint unravel_rev (rshape : list nat) (j : nat) : list nat :=
  match rshape with
  | [] => []
  | d :: rshape' => (j mod d) :: unravel_rev rshape' (j / d)
  end.

(** [a.T]: the axes reversed. *)
Definition transpose (a : array) : array :=
  let s := a_shape a in
  mkArray (rev s)
    ((λ j, nth (ravel s (unravel_rev s j) 0) (a_data a) (S754_zero false))
       <$> seq 0 (length (a_data a))).

(** [a @ b] for two matrices; products of higher rank are not provided. *)
Definition matmul (a b : array) : option array :=
  match a_shape a, a_shape b with
  | [n; k], [k'; m] =>
      if decide (k = k') then
        let cell i j :=
          foldl (λ acc l,
                   f32_add acc
                     (f32_mul (nth (i * k + l) (a_data a) (S754_zero false))
                              (nth (l * m + j) (a_data b) (S754_zero false))))
                (S754_zero false) (seq 0 k) in
        Some (mkArray [n; m]
                (i ← seq 0 n; j ← seq 0 m; [cell i j]))
      else None
  | _, _ => None
  end.

(** [a.reshape(new_shape)].  numpy compares the exact number of
    elements, and reads a negative entry, whatever its value, as the one
    dimension it is to infer. *)
Definition reshape_array (a : array) (new_shape : list Z) : option array :=
  let size := Z.of_nat (length (a_data a)) in
  if forallb (Z.leb 0) new_shape then
    if decide (foldr Z.mul 1%Z new_shape = size)
    then Some (mkArray (Z.to_nat <$> new_shape) (a_data a)) else None
  else
    let known := foldr Z.mul 1%Z (filter (λ d, (0 ≤ d)%Z) new_shape) in
    if decide (length (filter (λ d, (d < 0)%Z) new_shape) = 1
               ∧ (0 < known)%Z ∧ (size mod known = 0)%Z)
    then Some (mkArray
                 ((λ d, if decide (d < 0)%Z then Z.to_nat (size / known)
                        else Z.to_nat d) <$> new_shape)
                 (a_data a))
    else None.

#[export] Instance numpy : NumPy := {|
  ndarray := array;
  pyfloat := spec_float;
  np_shape := a_shape;
  np_ones_like a := mkArray (a_shape a) ((λ _, f32_of_Z 1) <$> a_data a);
  np_add := elementwise f32_add;
  np_sub := elementwise f32_sub;
  np_mul := elementwise f32_mul;
  np_add_scalar := with_scalar f32_add;
  np_sub_scalar := with_scalar f32_sub;
  np_mul_scalar := with_scalar f32_mul;
  np_negative a := mkArray (a_shape a) (SFopp <$> a_data a);
  np_transpose := transpose;
  np_matmul := matmul;
  np_reshape := reshape_array;
|}.

(** Modelled from the spec: the gradient functions of [grad.py], which
    is not among the sources.  Each returns one buffer per entry of the
    node's [_parents], in order, by the chain rule of its operation, from
    the parents' data and the node's [_extra]. *)
Definition grad_call (grad_fn : GradFn) (h : gmap nat Tensor) (node : nat)
    (grad : array) : list array :=
  match h !! node with
  | None => []
  | Some n =>
      let parents := _parents n in
      let data_of i := _data <$> (parents !! i ≫= (h !!.)) in
      match grad_fn with
      | add_backward | add_scalar_backward | sub_scalar_backward =>
          (λ _, grad) <$> parents
      | sub_backward =>
          imap (λ i _, if decide (i = 0) then grad
                       else np_negative grad) parents
      | mul_backward =>
          imap (λ i _, from_option (elementwise f32_mul grad) grad
                         (data_of (1 - i))) parents
      | mul_scalar_backward =>
          (λ _, match _extra n !! "scalar_value" with
                | Some (ExFloat v) => with_scalar f32_mul grad v
                | _ => grad
                end) <$> parents
      | negate_backward => (λ _, np_negative grad) <$> parents
      | transpose_backward => (λ _, transpose grad) <$> parents
      | reshape_backward =>
          (λ _, match _extra n !! "original_shape" with
                | Some (ExShape s) =>
                    default grad (reshape_array grad (Z.of_nat <$> s))
                | _ => grad
                end) <$> parents
      | matmul_backward =>
          imap (λ i _,
                  default grad
                    (if decide (i = 0)
                     then data_of 1 ≫= λ b, matmul grad (transpose b)
                     else data_of 0 ≫= λ a, matmul (transpose a) grad))
               parents
      end
  end.

Definition backward := backward grad_call.

(** *** Concrete graphs *)

(** The store after a sequence of calls from the empty store. *)
Definition state_of (cs : list Call) : State :=
  default empty_state (run_calls grad_call cs empty_state).

(** The tensor behind a reference of a concrete store. *)
Definition tensor_at (st : State) (r : nat) : Tensor :=
  default (leaf (vector []) INPUT empty_state) (heap st !! r).

(** [a = Parameter([1.0])] (0). *)
Definition single : State :=
  state_of [CallInit (vector [1%Z]) PARAMETER].

(** [a = Parameter([1.0])] (tensor 0), [x = a * 2] (1), [y = a * 3] (2),
    [z = x + y] (3): a shared sub-expression. *)
Definition diamond : State :=
  state_of [CallInit (vector [1%Z]) PARAMETER;
            CallBinOp Mul 0 (OScalar (py_of_Z 2));
            CallBinOp Mul 0 (OScalar (py_of_Z 3));
            CallBinOp Add 1 (OTensor 2)].

(** [a = Parameter([1.0])] (0), [b1 = a * 2] (1), [b1.backward()],
    [b2 = a * 3] (2). *)
Definition twice : State :=
  state_of [CallInit (vector [1%Z]) PARAMETER;
            CallBinOp Mul 0 (OScalar (py_of_Z 2));
            CallBackward 1 None false;
            CallBinOp Mul 0 (OScalar (py_of_Z 3))].

(** [a = Parameter([1.0])] (0), [b = a * 2] (1), [c = b * 3] (2),
    [c.backward(keep_grads=True)]. *)
Definition chain_kept : State :=
  state_of [CallInit (vector [1%Z]) PARAMETER;
            CallBinOp Mul 0 (OScalar (py_of_Z 2));
            CallBinOp Mul 1 (OScalar (py_of_Z 3));
            CallBackward 2 None true].

(** [a = Parameter(ones((2, 3)))] (0). *)
Definition matrix : State :=
  state_of [CallInit (full [2; 3] 1) PARAMETER].

(** [a = Parameter(ones((2, 3)))] (0), [x = a.T()] (1). *)
Definition transposed : State :=
  state_of [CallInit (full [2; 3] 1) PARAMETER; CallT 0].

(** [a = Parameter(ones((2, 3)))] (0), [x = a.T()] (1), [c = x + 1] (2),
    [x.T()]: tensor 1 is stale and has a child. *)
Definition with_stale_node : State :=
  state_of [CallInit (full [2; 3] 1) PARAMETER; CallT 0;
            CallBinOp Add 1 (OScalar (py_of_Z 1)); CallT 1].

(** [e = Parameter([])] (0): an empty buffer. *)
Definition empty_param : State :=
  state_of [CallInit (vector []) PARAMETER].

(** [u = Tensor([1, 2, 3])] (0), [m = Tensor(ones((2, 2)))] (1),
    [w = Tensor(ones((1, 3)))] (2). *)
Definition shapes : State :=
  state_of [CallInit (vector [1%Z; 2%Z; 3%Z]) INPUT;
            CallInit (full [2; 2] 1) INPUT;
            CallInit (full [1; 3] 1) INPUT].

(** [a = Parameter([1.0])] (0), [b = Tensor([2.0])] (1),
    [w = Parameter([3.0])] (2), [m = a * b] (3), [y = m + w] (4). *)
Definition two_params : State :=
  state_of [CallInit (vector [1%Z]) PARAMETER;
            CallInit (vector [2%Z]) INPUT;
            CallInit (vector [3%Z]) PARAMETER;
            CallBinOp Mul 0 (OTensor 1);
            CallBinOp Add 3 (OTensor 2)].

End Float32.


(** * The store: allocation, links and well-formedness *)
Section Store.
Context `{np : NumPy}.
Implicit Types (h : gmap nat Tensor) (st : State) (t : Tensor).

Lemma for_each_update (f : Tensor → Tensor) l st :
  for_each l (λ r, update r f) st
  = (Ok tt, mkState (alter_all f l (heap st)) (_global_tensor_registry st)
              (_id_counter st)).
Proof.
  revert st. induction l as [|r l IH]; intros st; simpl.
  - by destruct st.
  - unfold mbind, M_bind, bind. simpl. by rewrite IH.
Qed.

Lemma lookup_alter_all f l h i :
  alter_all f l h !! i = Nat.iter (count i l) f <$> h !! i.
Proof.
  revert h. induction l as [|r l IH]; intros h; simpl.
  - by destruct (h !! i).
  - unfold alter_all in *. simpl. rewrite IH. unfold count.
    rewrite filter_cons. destruct (decide (r = i)) as [->|Hne].
    + rewrite lookup_alter_eq. destruct (h !! i); simpl; [|done].
      f_equal. symmetry. apply Nat.iter_succ_r.
    + by rewrite lookup_alter_ne.
Qed.

Lemma count_0 i l : i ∉ l → count i l = 0.
Proof.
  intros Hi. unfold count. induction l as [|r l IH]; [done|].
  rewrite filter_cons. destruct (decide (r = i)); [set_solver|].
  apply IH. set_solver.
Qed.

Lemma count_pos i l : i ∈ l → 0 < count i l.
Proof.
  unfold count. induction l as [|r l IH]; [set_solver|].
  rewrite filter_cons. intros Hi.
  destruct (decide (r = i)); simpl; [lia|]. apply IH. set_solver.
Qed.

Lemma iter_append_child k node t :
  Nat.iter k (append_child node) t
  = with_children (_children t ++ replicate k node) t.
Proof.
  induction k as [|k IH]; simpl.
  - rewrite app_nil_r. by destruct t.
  - rewrite IH. unfold append_child, with_children. simpl.
    f_equal. rewrite <- (assoc_L (++)). f_equal.
    clear. induction k; simpl; [done|]. by f_equal.
Qed.

Lemma iter_idemp (f : Tensor → Tensor) k t :
  (∀ t, f (f t) = f t) → 0 < k → Nat.iter k f t = f t.
Proof.
  intros Hf Hk. destruct k as [|k]; [lia|]. clear Hk.
  induction k as [|k IH]; [done|]. simpl in *. by rewrite IH, Hf.
Qed.

Lemma create_node_run d f ps ex st :
  _create_node d f ps ex st
  = (Ok (_id_counter st), installed (new_node d f ps ex st) st).
Proof.
  unfold _create_node, mbind, M_bind, bind, Tensor_init, update. simpl.
  rewrite !alter_insert_eq. simpl.
  match goal with |- context [for_each ps ?b ?s] =>
    change b with (λ r, update r (append_child (_id_counter st)));
    rewrite (for_each_update (append_child (_id_counter st)) ps s) end.
  done.
Qed.

Lemma count_app i l1 l2 : count i (l1 ++ l2) = count i l1 + count i l2.
Proof. unfold count. by rewrite filter_app, length_app. Qed.

Lemma count_replicate i k x :
  count i (replicate k x) = if decide (x = i) then k else 0.
Proof.
  unfold count. destruct (decide (x = i)) as [Hx|Hx].
  - induction k as [|k IH]; simpl; [done|].
    rewrite filter_cons, decide_True by done. simpl. by rewrite IH.
  - induction k as [|k IH]; simpl; [done|].
    by rewrite filter_cons, decide_False.
Qed.

Lemma count_singleton i p : count i [p] ≤ 1.
Proof. unfold count. rewrite filter_cons. case_decide; simpl; lia. Qed.

Lemma Tensor_init_run d ty st :
  Tensor_init d ty st = (Ok (_id_counter st), installed (leaf d ty st) st).
Proof. done. Qed.

Lemma existsb_requires_insert h node t l :
  (∀ q, q ∈ l → q ≠ node) →
  existsb (requires_grad_of (<[node:=t]> h)) l = existsb (requires_grad_of h) l.
Proof.
  induction l as [|p l IH]; intros Hl; [done|]. simpl. f_equal.
  - unfold requires_grad_of. rewrite lookup_insert_ne; [done|].
    intros Heq. by apply (Hl p); [set_solver|].
  - apply IH. intros q Hq. apply Hl. set_solver.
Qed.

Lemma fresh_not_live' st : ids_ok st → ¬ live st (_id_counter st).
Proof. intros Hids [t Ht]. apply Hids in Ht as [Hlt _]. lia. Qed.

Section installed.
Variables (tn : Tensor) (st : State).
Local Abbreviation node := (_id_counter st).
Local Abbreviation ps := (_parents tn).
Local Abbreviation f := (_grad_fn tn).
Local Abbreviation st' := (installed tn st).
Hypothesis Hids : ids_ok st.
Hypothesis Hps : ∀ p, p ∈ ps → live st p.
Hypothesis Htn_id : _id tn = node.
Hypothesis Htn_children : _children tn = [].
Hypothesis Htn_stale : _stale tn = false.

Lemma fresh_not_live : ¬ live st node.
Proof. by apply fresh_not_live'. Qed.

Lemma fresh_not_parent : node ∉ ps.
Proof. intros Hin. by apply fresh_not_live, Hps. Qed.

Lemma installed_lookup_new : heap st' !! node = Some tn.
Proof.
  unfold installed. simpl. rewrite lookup_alter_all.
  rewrite (count_0 _ _ fresh_not_parent). simpl.
  by rewrite lookup_insert_eq.
Qed.

Lemma installed_lookup_old r :
  r ≠ node →
  heap st' !! r
  = (λ t, with_children (_children t ++ replicate (count r ps) node) t)
      <$> heap st !! r.
Proof.
  intros Hne. unfold installed. simpl. rewrite lookup_alter_all.
  rewrite lookup_insert_ne by done. destruct (heap st !! r); simpl; [|done].
  by rewrite iter_append_child.
Qed.

Lemma installed_live r : live st' r ↔ r = node ∨ live st r.
Proof.
  unfold live. destruct (decide (r = node)) as [->|Hne].
  - rewrite installed_lookup_new. naive_solver.
  - rewrite installed_lookup_old by done. rewrite fmap_is_Some. naive_solver.
Qed.

Lemma installed_parents r :
  parents_of (heap st') r = if decide (r = node) then ps else parents_of (heap st) r.
Proof.
  unfold parents_of. case_decide as Hr; [subst r|].
  - by rewrite installed_lookup_new.
  - rewrite installed_lookup_old by done. by destruct (heap st !! r).
Qed.

Lemma installed_children r :
  children_of (heap st') r
  = if decide (r = node) then []
    else children_of (heap st) r ++ replicate (count r ps) node.
Proof.
  unfold children_of. case_decide as Hr; [subst r|].
  - by rewrite installed_lookup_new.
  - rewrite installed_lookup_old by done.
    destruct (heap st !! r) eqn:Hl; simpl; [done|].
    rewrite count_0; [done|]. intros Hin. apply Hps in Hin as [? ?]. congruence.
Qed.

Lemma installed_grad_fn r :
  grad_fn_of (heap st') r = if decide (r = node) then f else grad_fn_of (heap st) r.
Proof.
  unfold grad_fn_of. case_decide as Hr; [subst r|].
  - by rewrite installed_lookup_new.
  - rewrite installed_lookup_old by done. by destruct (heap st !! r).
Qed.

Lemma installed_stale r :
  stale_of (heap st') r = if decide (r = node) then false else stale_of (heap st) r.
Proof.
  unfold stale_of. case_decide as Hr; [subst r|].
  - by rewrite installed_lookup_new.
  - rewrite installed_lookup_old by done. by destruct (heap st !! r).
Qed.

Lemma installed_grad r :
  grad_of (heap st') r = if decide (r = node) then _grad tn else grad_of (heap st) r.
Proof.
  unfold grad_of. case_decide as Hr; [subst r|].
  - by rewrite installed_lookup_new.
  - rewrite installed_lookup_old by done. by destruct (heap st !! r).
Qed.

Lemma installed_requires_grad r :
  requires_grad_of (heap st') r
  = if decide (r = node) then _requires_grad tn
    else requires_grad_of (heap st) r.
Proof.
  unfold requires_grad_of at 1. case_decide as Hr; [subst r|].
  - by rewrite installed_lookup_new.
  - rewrite installed_lookup_old by done. unfold requires_grad_of.
    by destruct (heap st !! r).
Qed.
Hypothesis Hwf : wf st.
Hypothesis Hf : f = Some transpose_backward →
  ∃ p, ps = [p] ∧ grad_fn_of (heap st) p ≠ Some transpose_backward.

Lemma live_not_fresh r : live st r → r ≠ node.
Proof. intros Hr ->. by apply fresh_not_live. Qed.

Lemma installed_wf : wf st'.
Proof.
  destruct Hwf as [W1 W2 W3 W4 W5 W6 W7 W8 W9 W10 W11 W12].
  assert (Hreg : ∀ r, r ∈ _global_tensor_registry st' ↔
                      r ∈ _global_tensor_registry st ∨ r = node).
  { intros r. unfold installed. simpl. set_solver. }
  assert (Hnf : f = Some transpose_backward → ∀ r, r ∈ ps →
                grad_fn_of (heap st) r ≠ Some transpose_backward).
  { intros Hftr r Hr. destruct (Hf Hftr) as (p & Hpeq & Hp).
    rewrite Hpeq in Hr. apply list_elem_of_singleton in Hr. by rewrite Hr. }
  split.
  - intros r t Hr. destruct (decide (r = node)) as [->|Hne].
    + rewrite installed_lookup_new in Hr. injection Hr as <-.
      simpl. split; [lia|done].
    + rewrite installed_lookup_old in Hr by done.
      destruct (heap st !! r) as [t0|] eqn:Hl; [|done]. injection Hr as <-.
      apply W1 in Hl as [? ?]. simpl. split; [lia|done].
  - intros r p. rewrite installed_parents. fold (live st' p).
    rewrite installed_live. case_decide as Hr; [subst r|].
    + intros Hp%Hps. split; [|by right].
      destruct Hp as [t Ht]. by apply W1 in Ht as [? ?].
    + intros Hp%W2. naive_solver.
  - intros r c. rewrite installed_children, installed_live.
    case_decide; [set_solver|].
    intros [Hc|[-> _]%elem_of_replicate]%elem_of_app; [|by left].
    right. by eapply W3.
  - unfold installed. simpl. apply NoDup_app. split_and!; [done| |apply NoDup_singleton].
    intros r Hr%W5 Hr2%list_elem_of_singleton. by apply (live_not_fresh r).
  - intros r. rewrite Hreg, installed_live. naive_solver.
  - intros r. rewrite Hreg, installed_live, installed_stale.
    intros [->|Hl] Hnr; [naive_solver|].
    rewrite decide_False by by apply live_not_fresh. apply W6; naive_solver.
  - intros r. rewrite installed_stale, installed_grad_fn.
    case_decide; [done|]. apply W7.
  - intros r. rewrite installed_grad_fn, installed_parents.
    case_decide as Hr.
    + intros Hftr. destruct (Hf Hftr) as (p & Hpeq & Hp). exists p.
      split; [done|].
      rewrite installed_grad_fn, decide_False; [done|].
      apply live_not_fresh, Hps. rewrite Hpeq. set_solver.
    + intros (p & Hp & Hpf)%W8. exists p. split; [done|].
      rewrite installed_grad_fn, decide_False; [done|].
      apply live_not_fresh. eapply (W2 r). rewrite Hp. set_solver.
  - intros r c. rewrite installed_grad_fn, installed_children.
    destruct (decide (r = node)) as [Hr|Hr].
    { intros _ Hin. by apply elem_of_nil in Hin. }
    intros Hrf [Hc|[-> Hk]%elem_of_replicate]%elem_of_app.
    + rewrite installed_grad_fn, decide_False; [by eapply W9|].
      eapply live_not_fresh, W3, Hc.
    + rewrite installed_grad_fn, decide_True by done. intros Hftr.
      apply (Hnf Hftr r); [|done].
      destruct (decide (r ∈ ps)) as [|Hn]; [done|].
      by rewrite (count_0 _ _ Hn) in Hk.
  - intros s n. rewrite installed_grad_fn, installed_children, installed_parents, Hreg.
    destruct (decide (n = node)) as [Hn|Hn].
    { intros _ Hin. by apply elem_of_nil in Hin. }
    intros Hs [Hc|[-> Hk]%elem_of_replicate]%elem_of_app.
    + assert (Hsn : s ≠ node) by (eapply live_not_fresh, W3, Hc).
      rewrite decide_False in Hs by done. rewrite decide_False by done.
      destruct (W10 s n Hs Hc) as [Hs1 Hs2]. split; [by left|done].
    + rewrite decide_True by done. split; [by right|].
      destruct (decide (n ∈ ps)) as [|Hn']; [done|].
      by rewrite (count_0 _ _ Hn') in Hk.
  - intros s n. rewrite installed_grad_fn, installed_children.
    destruct (decide (n = node)) as [Hn|Hn];
      [intros _; unfold count; simpl; lia|].
    rewrite count_app, count_replicate.
    destruct (decide (s = node)) as [->|Hs].
    + intros Hftr. destruct (Hf Hftr) as (p & Hpeq & _).
      rewrite decide_True by done. rewrite count_0, Hpeq.
      * apply count_singleton.
      * intros Hc%W3. by apply fresh_not_live.
    + rewrite (decide_False (P := node = s)) by done. intros Hsf.
      specialize (W11 s n Hsf). lia.
  - intros c p. rewrite Hreg, installed_parents, installed_children.
    intros Hc Hp. destruct (decide (c = node)) as [Hcn|Hcn].
    + subst c. rewrite decide_False by (apply live_not_fresh; auto).
      apply elem_of_app. right. apply elem_of_replicate. split; [done|].
      pose proof (count_pos _ _ Hp). lia.
    + destruct Hc as [Hc|]; [|done].
      rewrite decide_False by (eapply live_not_fresh, (W2 c), Hp).
      apply elem_of_app. left. by apply W12.
Qed.
End installed.

Lemma new_node_requires_grad d f ps ex st :
  ids_ok st → (∀ p, p ∈ ps → live st p) →
  _requires_grad (new_node d f ps ex st)
  = existsb (requires_grad_of (heap st)) ps.
Proof.
  intros Hids Hps. simpl. apply existsb_requires_insert.
  intros q Hq ->. apply (fresh_not_live' st Hids). by apply Hps.
Qed.

Lemma Tensor_init_wf d ty st : wf st → wf (installed (leaf d ty st) st).
Proof.
  intros Hwf. apply installed_wf; try done.
  - apply Hwf.
  - intros p Hp. by apply elem_of_nil in Hp.
Qed.

Lemma create_node_wf d f ps ex st :
  wf st → (∀ p, p ∈ ps → live st p) →
  (f = Some transpose_backward →
   ∃ p, ps = [p] ∧ grad_fn_of (heap st) p ≠ Some transpose_backward) →
  wf (installed (new_node d f ps ex st) st).
Proof. intros Hwf Hps Hf. apply installed_wf; try done. apply Hwf. Qed.

(** Stores with the same links, where staleness only spreads over
    transposes. *)
Lemma wf_congr st st' :
  _global_tensor_registry st' = _global_tensor_registry st →
  _id_counter st' = _id_counter st →
  (∀ r t', heap st' !! r = Some t' →
     ∃ t, heap st !! r = Some t ∧ _id t' = _id t) →
  (∀ r, live st r → live st' r) →
  (∀ r, parents_of (heap st') r = parents_of (heap st) r) →
  (∀ r, children_of (heap st') r = children_of (heap st) r) →
  (∀ r, grad_fn_of (heap st') r = grad_fn_of (heap st) r) →
  (∀ r, stale_of (heap st) r = true → stale_of (heap st') r = true) →
  (∀ r, stale_of (heap st') r = true →
     grad_fn_of (heap st) r = Some transpose_backward) →
  wf st → wf st'.
Proof.
  intros Hreg Hcnt Hlook Hlive Hpar Hchi Hfn Hst1 Hst2
    [W1 W2 W3 W4 W5 W6 W7 W8 W9 W10 W11 W12].
  assert (Hlive' : ∀ r, live st' r → live st r).
  { intros r [t' Ht']. destruct (Hlook r t' Ht') as (t & Ht & _). by exists t. }
  split.
  - intros r t' Ht'. destruct (Hlook r t' Ht') as (t & Ht & ->).
    rewrite Hcnt. by apply W1.
  - intros r p. rewrite Hpar. intros Hp. destruct (W2 r p Hp) as [? ?].
    split; [done|]. by apply Hlive.
  - intros r c. rewrite Hchi. intros Hc. eapply Hlive, W3, Hc.
  - by rewrite Hreg.
  - intros r. rewrite Hreg. intros Hr. by apply Hlive, W5.
  - intros r. rewrite Hreg. intros Hr Hn. apply Hst1, W6; auto.
  - intros r Hr. rewrite Hfn. by apply Hst2.
  - intros r. rewrite Hfn, Hpar. intros (p & Hp & Hpf)%W8.
    exists p. by rewrite Hfn.
  - intros r c. rewrite !Hfn, Hchi. apply W9.
  - intros s n. rewrite Hfn, Hchi, Hpar, Hreg. apply W10.
  - intros s n. rewrite Hfn, Hchi. apply W11.
  - intros c p. rewrite Hreg, Hpar, Hchi. apply W12.
Qed.

End Store.

(** * The reclaimer ([clear_stale_tensors]) *)
Section Reclaim.
Context `{np : NumPy}.
Implicit Types (h : gmap nat Tensor) (st : State) (t : Tensor).

Lemma filter_all (P : nat → Prop) `{∀ x, Decision (P x)} (l : list nat) :
  (∀ x, x ∈ l → P x) → filter P l = l.
Proof.
  induction l as [|x l IH]; intros Hl; [done|].
  rewrite filter_cons, decide_True by (apply Hl; left).
  f_equal. apply IH. intros y Hy. apply Hl. by right.
Qed.

Lemma count_filter_le i (P : nat → Prop) `{∀ x, Decision (P x)} l :
  count i (filter P l) ≤ count i l.
Proof.
  unfold count. induction l as [|x l IH]; [done|].
  rewrite !filter_cons.
  destruct (decide (P x)), (decide (x = i)); simpl;
    rewrite ?filter_cons, ?decide_True, ?decide_False by done; simpl; lia.
Qed.

Lemma list_remove_once r l :
  r ∈ l → count r l ≤ 1 → list_remove r l = Some (filter (λ x, x ≠ r) l).
Proof.
  unfold count. induction l as [|x l IH]; intros Hin Hc.
  - by apply elem_of_nil in Hin.
  - simpl. rewrite !filter_cons in *. destruct (decide (x = r)) as [->|Hne].
    + rewrite decide_False by naive_solver. f_equal. symmetry.
      apply filter_all. intros y Hy ->. simpl in Hc.
      assert (0 < count r l) by by apply count_pos. unfold count in *. lia.
    + rewrite decide_True by done. rewrite IH; [done| |done].
      apply elem_of_cons in Hin as [|]; [congruence|done].
Qed.

Lemma unlink_tensor_app R1 R2 t :
  unlink_tensor R2 (unlink_tensor R1 t) = unlink_tensor (R1 ++ R2) t.
Proof.
  unfold unlink_tensor, with_children, with_parents. simpl.
  f_equal; rewrite list_filter_filter; apply list_filter_iff; intros x;
    rewrite elem_of_app; tauto.
Qed.

Lemma unlink_app R1 R2 st : unlink R2 (unlink R1 st) = unlink (R1 ++ R2) st.
Proof.
  unfold unlink. simpl. f_equal.
  - rewrite <- map_fmap_compose. apply map_fmap_ext. intros i t _.
    apply unlink_tensor_app.
  - rewrite list_filter_filter. apply list_filter_iff. intros x.
    rewrite elem_of_app. tauto.
Qed.

Lemma unlink_nil st : unlink [] st = st.
Proof.
  destruct st as [h reg cnt]. unfold unlink. simpl. f_equal.
  - rewrite <- (map_fmap_id h) at 2. apply map_fmap_ext. intros i t _.
    unfold unlink_tensor, with_children, with_parents. simpl.
    rewrite !filter_all by (intros; apply not_elem_of_nil). by destruct t.
  - apply filter_all. intros; apply not_elem_of_nil.
Qed.

(** Accessors after [unlink]. *)
Lemma unlink_live R st r : live (unlink R st) r ↔ live st r.
Proof. unfold live, unlink. simpl. by rewrite lookup_fmap, fmap_is_Some. Qed.

Lemma unlink_parents R st r :
  parents_of (heap (unlink R st)) r = filter (λ p, p ∉ R) (parents_of (heap st) r).
Proof.
  unfold parents_of, unlink. simpl. rewrite lookup_fmap.
  by destruct (heap st !! r).
Qed.

Lemma unlink_children R st r :
  children_of (heap (unlink R st)) r
  = filter (λ p, p ∉ R) (children_of (heap st) r).
Proof.
  unfold children_of, unlink. simpl. rewrite lookup_fmap.
  by destruct (heap st !! r).
Qed.

Lemma unlink_grad_fn R st r :
  grad_fn_of (heap (unlink R st)) r = grad_fn_of (heap st) r.
Proof.
  unfold grad_fn_of, unlink. simpl. rewrite lookup_fmap.
  by destruct (heap st !! r).
Qed.

Lemma unlink_stale R st r :
  stale_of (heap (unlink R st)) r = stale_of (heap st) r.
Proof.
  unfold stale_of, unlink. simpl. rewrite lookup_fmap.
  by destruct (heap st !! r).
Qed.

Lemma unlink_grad R st r :
  grad_of (heap (unlink R st)) r = grad_of (heap st) r.
Proof.
  unfold grad_of, unlink. simpl. rewrite lookup_fmap.
  by destruct (heap st !! r).
Qed.

Lemma unlink_requires_grad R st r :
  requires_grad_of (heap (unlink R st)) r = requires_grad_of (heap st) r.
Proof.
  unfold requires_grad_of, unlink. simpl. rewrite lookup_fmap.
  by destruct (heap st !! r).
Qed.

Lemma unlink_one_wf st r :
  wf st → r ∈ _global_tensor_registry st → stale_of (heap st) r = true →
  wf (unlink [r] st).
Proof.
  intros [W1 W2 W3 W4 W5 W6 W7 W8 W9 W10 W11 W12] Hreg Hstale.
  assert (Hr : grad_fn_of (heap st) r = Some transpose_backward) by by apply W7.
  assert (Hin1 : ∀ x, x ∉ [r] ↔ x ≠ r).
  { intros x. rewrite list_elem_of_singleton. tauto. }
  assert (Hreg' : ∀ x, x ∈ _global_tensor_registry (unlink [r] st)
                       ↔ x ∈ _global_tensor_registry st ∧ x ≠ r).
  { intros x. unfold unlink. simpl. rewrite list_elem_of_filter, Hin1. tauto. }
  split.
  - intros x t'. unfold unlink. simpl. rewrite lookup_fmap.
    destruct (heap st !! x) as [t|] eqn:Hx; [|done]. simpl.
    intros [= <-]. by apply W1 in Hx.
  - intros x p. rewrite unlink_parents, list_elem_of_filter.
    intros [_ Hp]. fold (live (unlink [r] st) p). rewrite unlink_live.
    by apply W2.
  - intros x c. rewrite unlink_children, list_elem_of_filter, unlink_live.
    intros [_ Hc]. by eapply W3.
  - unfold unlink. simpl. by apply NoDup_filter.
  - intros x. rewrite Hreg', unlink_live. intros [Hx _]. by apply W5.
  - intros x. rewrite Hreg', unlink_live, unlink_stale. intros Hl Hn.
    destruct (decide (x = r)) as [->|Hne]; [done|].
    apply W6; [done|]. tauto.
  - intros x. rewrite unlink_stale, unlink_grad_fn. apply W7.
  - intros x. rewrite unlink_grad_fn, unlink_parents.
    intros (p & Hp & Hpf)%W8. exists p. rewrite unlink_grad_fn. split; [|done].
    rewrite Hp. apply filter_all. intros y ->%list_elem_of_singleton.
    apply Hin1. congruence.
  - intros x c. rewrite !unlink_grad_fn, unlink_children, list_elem_of_filter.
    intros Hx [_ Hc]. by eapply W9.
  - intros s n. rewrite unlink_grad_fn, unlink_children, unlink_parents, Hreg'.
    rewrite !list_elem_of_filter, !Hin1. intros Hs [Hsr Hc].
    destruct (W10 s n Hs Hc) as [Hs1 Hs2]. split_and!; [done..| |done].
    destruct (W8 s Hs) as (p & Hp & Hpf). rewrite Hp in Hs2.
    apply list_elem_of_singleton in Hs2. congruence.
  - intros s n. rewrite unlink_grad_fn, unlink_children. intros Hs.
    etrans; [apply count_filter_le|]. by apply W11.
  - intros c p. rewrite Hreg', unlink_parents, unlink_children.
    rewrite !list_elem_of_filter, !Hin1. intros [Hc Hcr] [Hpr Hp].
    split; [done|]. by apply W12.
Qed.

Lemma drop_ref_idemp r c : drop_ref r (drop_ref r c) = drop_ref r c.
Proof.
  unfold drop_ref, with_parents. simpl. f_equal.
  apply filter_all. intros x. rewrite list_elem_of_filter. tauto.
Qed.

Lemma iter_drop_ref_children k r l t :
  Nat.iter k (drop_ref r) (with_children l t)
  = with_children l (Nat.iter k (drop_ref r) t).
Proof. induction k as [|k IH]; [done|]. simpl. by rewrite IH. Qed.

Lemma reclaim_run st r :
  wf st → r ∈ _global_tensor_registry st → stale_of (heap st) r = true →
  reclaim r st = (Ok tt, unlink [r] st).
Proof.
  intros Hwf Hreg Hstale.
  pose proof Hwf as [W1 W2 W3 W4 W5 W6 W7 W8 W9 W10 W11 W12].
  assert (Hin1 : ∀ x, x ∉ [r] ↔ x ≠ r).
  { intros x. rewrite list_elem_of_singleton. tauto. }
  destruct (W5 r Hreg) as [t Ht].
  assert (Hfn : grad_fn_of (heap st) r = Some transpose_backward) by by apply W7.
  destruct (W8 r Hfn) as (p & Hp & Hpf).
  assert (Hpr : p ∈ parents_of (heap st) r) by (rewrite Hp; left).
  destruct (W2 r p Hpr) as [Hlt [tp Htp]].
  assert (Hlisted : r ∈ _children tp).
  { specialize (W12 r p Hreg Hpr). unfold children_of in W12.
    by rewrite Htp in W12. }
  assert (Honce : count r (_children tp) ≤ 1).
  { specialize (W11 r p Hfn). unfold children_of in W11. by rewrite Htp in W11. }
  unfold parents_of in Hp. rewrite Ht in Hp. simpl in Hp.
  unfold stale_of in Hstale. rewrite Ht in Hstale. simpl in Hstale.
  unfold reclaim, mbind, M_bind, bind, deref. rewrite Ht, Hstale, Hp. simpl.
  unfold mbind, M_bind, bind, remove_child, mbind, M_bind, bind, deref.
  rewrite Htp, (list_remove_once _ _ Hlisted Honce). simpl.
  rewrite lookup_alter_ne by lia. rewrite Ht.
  change (λ child, drop_parent r child) with (λ child, update child (drop_ref r)).
  rewrite for_each_update. unfold del_registry. simpl.
  rewrite decide_True by done. f_equal. unfold unlink. f_equal.
  - assert (H1 : ∀ i ti, heap st !! i = Some ti → i ≠ p →
               filter (λ x, x ∉ [r]) (_children ti) = _children ti).
    { intros i ti Hi Hip. apply filter_all. intros x Hx.
      apply Hin1. intros ->.
      destruct (W10 r i Hfn) as [_ Hpi].
      { unfold children_of. by rewrite Hi. }
      unfold parents_of in Hpi. rewrite Ht in Hpi. simpl in Hpi.
      rewrite Hp in Hpi.
      by apply list_elem_of_singleton in Hpi. }
    assert (H2 : ∀ i ti, heap st !! i = Some ti → i ∉ _children t →
               filter (λ x, x ∉ [r]) (_parents ti) = _parents ti).
    { intros i ti Hi Hic. apply filter_all. intros x Hx.
      apply Hin1. intros ->.
      assert (Hri : r ∈ parents_of (heap st) i).
      { unfold parents_of. by rewrite Hi. }
      destruct (decide (i ∈ _global_tensor_registry st)) as [Hireg|Hireg].
      - specialize (W12 i r Hireg Hri). unfold children_of in W12.
        by rewrite Ht in W12.
      - assert (Hitr : grad_fn_of (heap st) i = Some transpose_backward).
        { apply W7, W6; [by exists ti|done]. }
        destruct (W8 i Hitr) as (q & Hq & Hqf). rewrite Hq in Hri.
        apply list_elem_of_singleton in Hri. by subst q. }
    apply map_eq. intros i. rewrite lookup_alter_all, lookup_fmap.
    assert (Hdrop : ∀ ti, heap st !! i = Some ti →
              Nat.iter (count i (_children t)) (drop_ref r) ti
              = with_parents (filter (λ x, x ∉ [r]) (_parents ti)) ti).
    { intros ti Hi. destruct (decide (i ∈ _children t)) as [Hic|Hic].
      - rewrite iter_idemp; [|apply drop_ref_idemp|by apply count_pos].
        unfold drop_ref. f_equal. apply list_filter_iff. intros x.
        by rewrite Hin1.
      - rewrite count_0 by done. simpl. rewrite (H2 i ti Hi Hic).
        by destruct ti. }
    destruct (decide (i = p)) as [->|Hip].
    + rewrite lookup_alter_eq, Htp. simpl. f_equal.
      rewrite iter_drop_ref_children, (Hdrop tp Htp). unfold unlink_tensor. simpl.
      f_equal. apply list_filter_iff. intros x. by rewrite Hin1.
    + rewrite lookup_alter_ne by done.
      destruct (heap st !! i) as [ti|] eqn:Hi; [|done]. simpl. f_equal.
      rewrite (Hdrop ti eq_refl). unfold unlink_tensor.
      rewrite (H1 i ti Hi Hip). unfold with_children, with_parents. simpl.
      by destruct ti.
  - apply list_filter_iff. intros x. by rewrite Hin1.
Qed.

Lemma reclaim_skip st r :
  live st r → stale_of (heap st) r = false → reclaim r st = (Ok tt, st).
Proof.
  intros [t Ht] Hs. unfold stale_of in Hs. rewrite Ht in Hs. simpl in Hs.
  unfold reclaim, mbind, M_bind, bind, deref. by rewrite Ht, Hs.
Qed.

Lemma reclaim_loop rs :
  ∀ st, wf st → NoDup rs → (∀ r, r ∈ rs → r ∈ _global_tensor_registry st) →
    for_each rs reclaim st
    = (Ok tt, unlink (filter (λ r, stale_of (heap st) r = true) rs) st)
    ∧ wf (unlink (filter (λ r, stale_of (heap st) r = true) rs) st).
Proof.
  induction rs as [|r rs IH]; intros st Hwf Hnd Hrs.
  - simpl. rewrite filter_nil, unlink_nil. by split.
  - apply NoDup_cons in Hnd as [Hr Hnd].
    assert (Hreg : r ∈ _global_tensor_registry st) by (apply Hrs; left).
    rewrite filter_cons. simpl. unfold mbind, M_bind, bind.
    destruct (stale_of (heap st) r) eqn:Hs.
    + rewrite decide_True by done. rewrite reclaim_run by done.
      destruct (IH (unlink [r] st)) as [Hrun Hwf'].
      { by apply unlink_one_wf. }
      { done. }
      { intros x Hx. unfold unlink. simpl. apply list_elem_of_filter.
        split; [|apply Hrs; by right].
        rewrite list_elem_of_singleton. by intros ->. }
      rewrite Hrun.
      assert (Heq : filter (λ x, stale_of (heap (unlink [r] st)) x = true) rs
                    = filter (λ x, stale_of (heap st) x = true) rs).
      { apply list_filter_iff. intros x. by rewrite unlink_stale. }
      rewrite Heq in Hwf' |- *. rewrite unlink_app in Hwf' |- *. by split.
    + rewrite decide_False by done.
      rewrite reclaim_skip; [|by apply Hwf|done].
      apply IH; [done..|]. intros x Hx. apply Hrs. by right.
Qed.

Lemma clear_stale_tensors_run st :
  wf st → clear_stale_tensors st = (Ok tt, sweep st) ∧ wf (sweep st).
Proof.
  intros Hwf. unfold clear_stale_tensors, sweep, stale_registered.
  apply reclaim_loop; [done|apply Hwf|done].
Qed.


End Reclaim.

(** * The topological order ([build_topo]) *)
Section Topo.
Context `{np : NumPy}.
Implicit Types (h : gmap nat Tensor) (V : gset nat) (O : list nat).

Lemma topo_sorted_from_mono h seen seen' order :
  (∀ x, x ∈ seen → x ∈ seen') →
  topo_sorted_from h seen order → topo_sorted_from h seen' order.
Proof.
  revert seen seen'. induction order as [|x order IH]; simpl; [done|].
  intros seen seen' Hsub [Hx Hrest]. split; [by eauto|].
  eapply IH; [|exact Hrest]. set_solver.
Qed.

Lemma topo_sorted_from_app h seen o1 o2 :
  topo_sorted_from h seen (o1 ++ o2) ↔
  topo_sorted_from h seen o1 ∧ topo_sorted_from h (seen ++ o1) o2.
Proof.
  revert seen. induction o1 as [|x o1 IH]; intros seen; simpl.
  - rewrite app_nil_r. tauto.
  - rewrite IH, <- (assoc_L (++)). simpl. tauto.
Qed.

Lemma grad_path_start h a x : grad_path h a x → requires_grad_of h a = true.
Proof. induction 1; auto. Qed.

Lemma grad_path_end h a x : grad_path h a x → requires_grad_of h x = true.
Proof. destruct 1; auto. Qed.

Lemma grad_path_trans h a b c :
  grad_path h a b → grad_path h b c → grad_path h a c.
Proof. intros Hab Hbc. induction Hbc; [done|]. by eapply grad_path_step. Qed.

Lemma grad_path_parent h n p x :
  requires_grad_of h n = true → p ∈ parents_of h n →
  grad_path h p x → grad_path h n x.
Proof.
  intros Hn Hp Hpx. eapply grad_path_trans; [|exact Hpx].
  eapply grad_path_step; [by apply grad_path_self|done|].
  by eapply grad_path_start.
Qed.

Lemma visit_all_spec h build n ps :
  (∀ p V O, p < n → is_Some (h !! p) →
     (∀ x, x ∈ V → x ∈ O ∨ p < x) → (∀ x, x ∈ O → x ∈ V) →
     build_post h p V O (build p (V, O))) →
  ∀ V O,
    (∀ p, p ∈ ps → p < n ∧ is_Some (h !! p)) →
    (∀ x, x ∈ V → x ∈ O ∨ n ≤ x) → (∀ x, x ∈ O → x ∈ V) →
    visit_post h n ps V O (visit_all build ps (V, O)).
Proof.
  intros Hbuild. induction ps as [|p ps IH]; intros V O Hps Hinv Hsub.
  - exists []. simpl. rewrite app_nil_r, (right_id_L ∅ (∪)).
    split_and!; [done|constructor|set_solver|set_solver|done].
  - destruct (Hps p) as [Hpn Hp]; [set_solver|].
    destruct (Hbuild p V O Hpn Hp) as (O1 & Hres & Hnd1 & Hin1 & Hnew1 & Hs1).
    { intros x Hx. destruct (Hinv x Hx); [by left|right; lia]. }
    { done. }
    simpl. rewrite Hres.
    destruct (IH (V ∪ list_to_set O1) (O ++ O1))
      as (O2 & Hres2 & Hnd2 & Hin2 & Hnew2 & Hs2).
    { intros q Hq. apply Hps. set_solver. }
    { intros x [Hx|Hx]%elem_of_union.
      - destruct (Hinv x Hx); [left; set_solver|by right].
      - left. set_solver. }
    { intros x [Hx|Hx]%elem_of_app; [|set_solver].
      apply Hsub in Hx. set_solver. }
    rewrite Hres2. exists (O1 ++ O2). split_and!.
    + f_equal. f_equal; [|by rewrite (assoc_L (++))].
      rewrite list_to_set_app_L. set_solver.
    + apply NoDup_app. split_and!; [done| |done].
      intros x Hx1 Hx2. destruct (Hnew2 x Hx2) as (_ & Hnot & _). set_solver.
    + intros q [->|Hq]%elem_of_cons Hreq.
      * specialize (Hin1 Hreq). set_solver.
      * specialize (Hin2 q Hq Hreq). set_solver.
    + intros x [Hx|Hx]%elem_of_app.
      * destruct (Hnew1 x Hx) as (Hle & Hnot & Hpath).
        split_and!; [lia|done|]. exists p. split; [set_solver|done].
      * destruct (Hnew2 x Hx) as (Hle & Hnot & q & Hq & Hpath).
        split_and!; [done|set_solver|]. exists q. split; [set_solver|done].
    + apply topo_sorted_from_app. by split.
Qed.

Lemma build_topo_spec h fuel :
  graph_ok h →
  ∀ node V O, node < fuel → is_Some (h !! node) →
    (∀ x, x ∈ V → x ∈ O ∨ node < x) → (∀ x, x ∈ O → x ∈ V) →
    build_post h node V O (build_topo fuel h node (V, O)).
Proof.
  intros Hok. induction fuel as [|fuel IH]; intros node V O Hlt [n Hn] Hinv Hsub;
    [lia|].
  simpl. rewrite Hn.
  assert (Hreq : requires_grad_of h node = _requires_grad n).
  { unfold requires_grad_of. by rewrite Hn. }
  destruct (bool_decide (node ∈ V) || negb (_requires_grad n)) eqn:Hskip.
  - exists []. simpl. rewrite app_nil_r, (right_id_L ∅ (∪)).
    split_and!; [done|constructor| |set_solver|done].
    intros Hr. rewrite Hreq in Hr. rewrite Hr, orb_false_r in Hskip.
    apply bool_decide_eq_true in Hskip.
    destruct (Hinv node Hskip); [done|lia].
  - apply orb_false_iff in Hskip as [Hvis Hr].
    apply bool_decide_eq_false in Hvis. apply negb_false_iff in Hr.
    destruct (visit_all_spec h (build_topo fuel h) node (_parents n))
      with (V := {[node]} ∪ V) (O := O)
      as (Os & Hres & Hnd & Hin & Hnew & Hs).
    { intros p V' O' Hp Hsome Hinv' Hsub'. apply IH; [lia|done..]. }
    { intros p Hp. apply (Hok node). unfold parents_of. by rewrite Hn. }
    { intros x [Hx|Hx]%elem_of_union.
      - right. set_solver.
      - destruct (Hinv x Hx); [by left|right; lia]. }
    { set_solver. }
    rewrite Hres. simpl. exists (Os ++ [node]). split_and!.
    + f_equal. f_equal; [|by rewrite (assoc_L (++))].
      rewrite list_to_set_app_L. set_solver.
    + apply NoDup_app. split_and!; [done| |apply NoDup_singleton].
      intros x Hx Hx'%list_elem_of_singleton. subst x.
      destruct (Hnew node Hx). lia.
    + intros _. set_solver.
    + intros x [Hx|Hx%list_elem_of_singleton]%elem_of_app; [|subst x].
      * destruct (Hnew x Hx) as (Hle & Hnot & p & Hp & Hpath).
        split_and!; [lia|set_solver|].
        eapply grad_path_parent; [by rewrite Hreq| |done].
        unfold parents_of. by rewrite Hn.
      * split_and!; [done|done|]. apply grad_path_self. by rewrite Hreq.
    + apply topo_sorted_from_app. split; [done|]. simpl. split; [|done].
      intros p Hp Hpr. apply Hin; [|done].
      unfold parents_of in Hp. by rewrite Hn in Hp.
Qed.

Lemma before_rev l x y : before l x y → before (rev l) y x.
Proof.
  intros (l1 & l2 & l3 & ->). exists (rev l3), (rev l2), (rev l1).
  rewrite rev_app_distr. simpl. rewrite rev_app_distr. simpl.
  by rewrite <- !(assoc_L (++)).
Qed.

Lemma before_elem l x y : before l x y → x ∈ l ∧ y ∈ l.
Proof. intros (l1 & l2 & l3 & ->). set_solver. Qed.

Lemma before_NoDup_ne l x y : NoDup l → before l x y → x ≠ y.
Proof.
  intros Hnd (l1 & l2 & l3 & ->) ->.
  apply NoDup_app in Hnd as (_ & _ & Hnd).
  apply NoDup_cons in Hnd as [Hnd _]. set_solver.
Qed.

Lemma topo_sorted_before h order x p :
  topo_sorted_from h [] order → x ∈ order →
  p ∈ parents_of h x → requires_grad_of h p = true → before order p x.
Proof.
  intros Hs (l1 & l2 & ->)%list_elem_of_split Hp Hreq.
  apply topo_sorted_from_app in Hs as [_ [Hx _]]. simpl in Hx.
  apply Hx in Hp as (a & b & ->)%list_elem_of_split; [|done].
  exists a, b, l2. by rewrite <- (assoc_L (++)).
Qed.

(** The order [backward] builds, in a well-formed store. *)
Lemma topo_order_of_spec (st : State) (self : nat) :
  graph_ok (heap st) → ids_ok st → is_Some (heap st !! self) →
  ∃ order, topo_order_of self st = (Ok order, st)
    ∧ NoDup order
    ∧ topo_sorted_from (heap st) [] order
    ∧ (∀ x, x ∈ order → x ≤ self)
    ∧ (∀ x, x ∈ order ↔ grad_path (heap st) self x).
Proof.
  intros Hok Hids [t Ht].
  destruct (build_topo_spec (heap st) (_id_counter st) Hok self ∅ [])
    as (O' & Hres & Hnd & Hin & Hnew & Hs).
  { by apply (Hids self t). }
  { by exists t. }
  { set_solver. }
  { set_solver. }
  unfold topo_order_of. rewrite Hres. simpl. exists O'.
  split_and!; [done..| |].
  - intros x Hx. by apply Hnew.
  - intros x. split; [intros Hx; by apply Hnew|].
    induction 1 as [Hreq|x p Hpath IH Hp Hreq]; [by apply Hin|].
    by destruct (before_elem O' p x (topo_sorted_before _ _ _ _ Hs IH Hp Hreq)).
Qed.

(** C1: in a store whose parent links point to older live tensors (as
    every store built by the engine is), [backward] obtains a
    topological order from [build_topo]; it has no duplicate; its members
    are exactly the tensors reached from the output through tensors that
    all require gradients, so each member requires gradients; every
    gradient-requiring parent of a member stands before it, and in the
    reversed order, which the pass iterates, after it. *)
Theorem C1_topo_order (st : State) (self : nat) :
  graph_ok (heap st) → ids_ok st → is_Some (heap st !! self) →
  ∃ order, topo_order_of self st = (Ok order, st)
    ∧ NoDup order
    ∧ (∀ x, x ∈ order ↔ grad_path (heap st) self x)
    ∧ (∀ x, x ∈ order → requires_grad_of (heap st) x = true)
    ∧ (∀ x p, x ∈ order → p ∈ parents_of (heap st) x → p ∈ order →
         before order p x)
    ∧ (∀ x p, x ∈ order → p ∈ parents_of (heap st) x → p ∈ order →
         before (rev order) x p).
Proof.
  intros Hok Hids Hself.
  destruct (topo_order_of_spec st self Hok Hids Hself)
    as (order & Hres & Hnd & Hs & _ & Hmem).
  assert (Hreq : ∀ x, x ∈ order → requires_grad_of (heap st) x = true).
  { intros x Hx%Hmem. by eapply grad_path_end. }
  exists order. split_and!; [done..| |].
  - intros x p Hx Hp Hpo. eapply topo_sorted_before; eauto.
  - intros x p Hx Hp Hpo. apply before_rev.
    eapply topo_sorted_before; eauto.
Qed.

End Topo.

(** * The backward pass *)
Section Backward.
Context `{np : NumPy}.
Implicit Types (h : gmap nat Tensor) (st : State) (t : Tensor).

Lemma same_skeleton_refl st : same_skeleton st st.
Proof. unfold same_skeleton. by split_and!. Qed.

Lemma same_skeleton_trans st1 st2 st3 :
  same_skeleton st1 st2 → same_skeleton st2 st3 → same_skeleton st1 st3.
Proof.
  intros (R1 & C1 & H1) (R2 & C2 & H2). split_and!; [congruence..|].
  intros r. by rewrite H2, H1.
Qed.

Lemma with_grad_None_fields t t' :
  with_grad None t' = with_grad None t →
  _id t' = _id t ∧ _parents t' = _parents t ∧ _children t' = _children t
  ∧ _grad_fn t' = _grad_fn t ∧ _stale t' = _stale t
  ∧ _requires_grad t' = _requires_grad t ∧ _tensor_type t' = _tensor_type t
  ∧ _data t' = _data t.
Proof. destruct t, t'. unfold with_grad. simpl. intros [=]. by subst. Qed.

Lemma skeleton_cases st st' r :
  same_skeleton st st' →
  (heap st' !! r = None ∧ heap st !! r = None)
  ∨ ∃ t t', heap st' !! r = Some t' ∧ heap st !! r = Some t
      ∧ _id t' = _id t ∧ _parents t' = _parents t ∧ _children t' = _children t
      ∧ _grad_fn t' = _grad_fn t ∧ _stale t' = _stale t
      ∧ _requires_grad t' = _requires_grad t
      ∧ _tensor_type t' = _tensor_type t ∧ _data t' = _data t.
Proof.
  intros (_ & _ & Hh). specialize (Hh r).
  destruct (heap st' !! r) as [t'|], (heap st !! r) as [t|]; try done.
  - right. exists t, t'. simpl in Hh.
    assert (Heq : with_grad None t' = with_grad None t) by congruence.
    apply with_grad_None_fields in Heq. tauto.
  - by left.
Qed.

Ltac skel Hsk r :=
  let t := fresh "t" in let t' := fresh "t'" in
  let H1 := fresh in let H2 := fresh in
  destruct (skeleton_cases _ _ r Hsk)
    as [[H1 H2]|(t & t' & H1 & H2 & ? & ? & ? & ? & ? & ? & ? & ?)];
  rewrite H1, H2; simpl; try done; try congruence.

Section same.
Variables (st st' : State).
Hypothesis Hsk : same_skeleton st st'.

Lemma skeleton_live r : live st' r ↔ live st r.
Proof. unfold live. skel Hsk r. Qed.

Lemma skeleton_parents r : parents_of (heap st') r = parents_of (heap st) r.
Proof. unfold parents_of. skel Hsk r. Qed.

Lemma skeleton_children r :
  children_of (heap st') r = children_of (heap st) r.
Proof. unfold children_of. skel Hsk r. Qed.

Lemma skeleton_grad_fn r : grad_fn_of (heap st') r = grad_fn_of (heap st) r.
Proof. unfold grad_fn_of. skel Hsk r. Qed.

Lemma skeleton_stale r : stale_of (heap st') r = stale_of (heap st) r.
Proof. unfold stale_of. skel Hsk r. Qed.

Lemma skeleton_requires_grad r :
  requires_grad_of (heap st') r = requires_grad_of (heap st) r.
Proof. unfold requires_grad_of. skel Hsk r. Qed.

Lemma skeleton_type r : type_of (heap st') r = type_of (heap st) r.
Proof. unfold type_of. skel Hsk r. Qed.

Lemma skeleton_wf : wf st → wf st'.
Proof.
  intros Hwf. destruct Hsk as (Hreg & Hcnt & _).
  apply (wf_congr st st'); try done.
  - intros r t' Ht'.
    destruct (skeleton_cases _ _ r Hsk)
      as [[H1 H2]|(t & t'' & H1 & H2 & ? & _)]; [congruence|].
    exists t. split; [done|]. congruence.
  - intros r. by rewrite skeleton_live.
  - apply skeleton_parents.
  - apply skeleton_children.
  - apply skeleton_grad_fn.
  - intros r. by rewrite skeleton_stale.
  - intros r. rewrite skeleton_stale. apply Hwf.
Qed.
End same.
Lemma update_grad_skeleton r v st :
  same_skeleton st (update r (with_grad v) st).2.
Proof.
  unfold same_skeleton, update. simpl. split_and!; [done..|]. intros x.
  destruct (decide (r = x)) as [->|Hne].
  - rewrite lookup_alter_eq. by destruct (heap st !! x).
  - by rewrite lookup_alter_ne.
Qed.

Lemma update_grad_grad r v st x :
  live st r →
  grad_of (heap (update r (with_grad v) st).2) x
  = if decide (x = r) then v else grad_of (heap st) x.
Proof.
  intros [t Ht]. unfold grad_of, update. simpl. case_decide as Hx.
  - subst x. by rewrite lookup_alter_eq, Ht.
  - by rewrite lookup_alter_ne.
Qed.

Lemma accum_Some g gs : accum (Some g) gs = Some (foldl np_add g gs).
Proof. revert g. induction gs as [|x gs IH]; intros g; [done|]. apply IH. Qed.

Lemma accumulate_run p g st :
  live st p →
  ∃ st', accumulate (p, g) st = (Ok tt, st') ∧ same_skeleton st st'
    ∧ ∀ x, grad_of (heap st') x
           = if decide (x = p ∧ requires_grad_of (heap st) p = true)
             then accum1 (grad_of (heap st) x) g
             else grad_of (heap st) x.
Proof.
  intros Hl. pose proof Hl as [t Ht].
  unfold accumulate, mbind, M_bind, bind, deref. simpl. rewrite Ht.
  assert (Hreq : requires_grad_of (heap st) p = _requires_grad t).
  { unfold requires_grad_of. by rewrite Ht. }
  assert (Hg : grad_of (heap st) p = _grad t).
  { unfold grad_of. by rewrite Ht. }
  rewrite Hreq. destruct (_requires_grad t).
  - destruct (_grad t) as [old|] eqn:Hold.
    + exists (update p (with_grad (Some (np_add old g))) st).2.
      split; [done|]. split; [apply update_grad_skeleton|].
      intros x. rewrite update_grad_grad by done.
      destruct (decide (x = p)) as [->|Hne].
      * rewrite decide_True by done. by rewrite Hg.
      * rewrite decide_False by tauto. done.
    + exists (update p (with_grad (Some g)) st).2.
      split; [done|]. split; [apply update_grad_skeleton|].
      intros x. rewrite update_grad_grad by done.
      destruct (decide (x = p)) as [->|Hne].
      * rewrite decide_True by done. by rewrite Hg.
      * rewrite decide_False by tauto. done.
  - exists st. split; [done|]. split; [apply same_skeleton_refl|].
    intros x. rewrite decide_False; [done|]. intros [_ ?]. done.
Qed.

Lemma accumulate_all pairs :
  ∀ st, (∀ pg, pg ∈ pairs → live st pg.1) →
  ∃ st', for_each pairs accumulate st = (Ok tt, st') ∧ same_skeleton st st'
    ∧ ∀ x, grad_of (heap st') x
           = if requires_grad_of (heap st) x
             then accum (grad_of (heap st) x) (contributions x pairs)
             else grad_of (heap st) x.
Proof.
  induction pairs as [|[p g] pairs IH]; intros st Hlive.
  - exists st. split; [done|]. split; [apply same_skeleton_refl|].
    intros x. by destruct (requires_grad_of (heap st) x).
  - destruct (accumulate_run p g st) as (st1 & Hrun & Hsk & Hg).
    { apply (Hlive (p, g)). left. }
    destruct (IH st1) as (st2 & Hrun2 & Hsk2 & Hg2).
    { intros pg Hpg. rewrite (skeleton_live _ _ Hsk). apply Hlive. by right. }
    exists st2. simpl. unfold mbind, M_bind, bind. rewrite Hrun. simpl in *.
    rewrite Hrun2. split; [done|].
    split; [by eapply same_skeleton_trans|].
    intros x. rewrite Hg2, Hg, (skeleton_requires_grad _ _ Hsk).
    unfold contributions. rewrite filter_cons. simpl.
    destruct (decide (p = x)) as [->|Hne].
    + destruct (requires_grad_of (heap st) x) eqn:Hreq.
      * rewrite decide_True by done. done.
      * rewrite decide_False; [done|]. intros [_ ?]. congruence.
    + rewrite (decide_False (P := x = p ∧ _)); [done|]. intros [? _]. congruence.
Qed.

Variable grad_call : GradFn → gmap nat Tensor → nat → ndarray → list ndarray.

Lemma contributions_nil x (ps : list nat) (gs : list ndarray) :
  x ∉ ps → contributions x (combine ps gs) = [].
Proof.
  unfold contributions. revert gs.
  induction ps as [|p ps IH]; intros gs Hx; [done|].
  destruct gs as [|g gs]; [done|]. simpl. rewrite filter_cons. simpl.
  rewrite decide_False by set_solver. apply IH. set_solver.
Qed.

Lemma backward_node_run self kg node st :
  graph_ok (heap st) → live st node →
  ∃ st', backward_node grad_call self kg node st = (Ok tt, st')
    ∧ same_skeleton st st'
    ∧ ∀ x, grad_of (heap st') x = grad_after grad_call self kg node (heap st) x.
Proof.
  intros Hok Hl. pose proof Hl as [n Hn].
  unfold backward_node, mbind, M_bind, bind, deref. rewrite Hn.
  unfold grad_after.
  assert (Hfn : grad_fn_of (heap st) node = _grad_fn n).
  { unfold grad_fn_of. by rewrite Hn. }
  assert (Hg : grad_of (heap st) node = _grad n).
  { unfold grad_of. by rewrite Hn. }
  assert (Hps : parents_of (heap st) node = _parents n).
  { unfold parents_of. by rewrite Hn. }
  assert (Hty : type_of (heap st) node = Some (_tensor_type n)).
  { unfold type_of. by rewrite Hn. }
  rewrite Hfn, Hg, Hps.
  destruct (_grad_fn n) as [f|];
    [|exists st; split; [done|]; split; [apply same_skeleton_refl|done]].
  destruct (_grad n) as [g|];
    [|exists st; split; [done|]; split; [apply same_skeleton_refl|done]].
  set (pairs := combine (_parents n) (grad_call f (heap st) node g)).
  destruct (accumulate_all pairs st) as (st1 & Hrun & Hsk & Hgr).
  { intros [p gp] Hin. simpl. apply elem_of_zip_l in Hin.
    apply (Hok node). by rewrite Hps. }
  rewrite Hrun. unfold cleared. rewrite Hty.
  assert (Hnode : grad_of (heap st1) node = Some g).
  { rewrite Hgr. unfold pairs. rewrite contributions_nil.
    - rewrite Hg. by destruct (requires_grad_of (heap st) node).
    - intros Hin. rewrite <- Hps in Hin. apply Hok in Hin. lia. }
  assert (Hty' : bool_decide (Some (_tensor_type n) = Some INTERMEDIATE)
                 = bool_decide (_tensor_type n = INTERMEDIATE)).
  { apply bool_decide_ext. split; congruence. }
  rewrite Hty'.
  destruct (negb kg && bool_decide (_tensor_type n = INTERMEDIATE)
            && bool_decide (node ≠ self)) eqn:Hc.
  - exists (update node (with_grad None) st1).2. split; [done|].
    split; [eapply same_skeleton_trans; [done|apply update_grad_skeleton]|].
    intros x. rewrite update_grad_grad by by rewrite (skeleton_live _ _ Hsk).
    destruct (decide (x = node)) as [->|Hne].
    + by rewrite bool_decide_eq_true_2.
    + rewrite bool_decide_eq_false_2 by done. simpl. apply Hgr.
  - exists st1. split; [done|]. split; [done|]. intros x.
    rewrite andb_false_r. apply Hgr.
Qed.

Lemma for_each_app {A} (l1 l2 : list A) (body : A → M unit) st :
  for_each (l1 ++ l2) body st
  = match for_each l1 body st with
    | (Ok _, st') => for_each l2 body st'
    | (Raise e, st') => (Raise e, st')
    end.
Proof.
  revert st. induction l1 as [|x l1 IH]; intros st; [done|].
  simpl. unfold mbind, M_bind, bind. destruct (body x st) as [[[]|e] st1]; [|done].
  apply IH.
Qed.

Lemma for_each_inv {A} (I : State → Prop) (body : A → M unit) l :
  ∀ st, I st →
  (∀ x st, x ∈ l → I st → ∃ st', body x st = (Ok tt, st') ∧ I st') →
  ∃ st', for_each l body st = (Ok tt, st') ∧ I st'.
Proof.
  induction l as [|x l IH]; intros st HI Hbody; [by exists st|].
  destruct (Hbody x st) as (st1 & Hrun & HI1); [left|done|].
  destruct (IH st1 HI1) as (st2 & Hrun2 & HI2).
  { intros y st' Hy. apply Hbody. by right. }
  exists st2. simpl. unfold mbind, M_bind, bind. by rewrite Hrun.
Qed.

Lemma skeleton_graph_ok st st' :
  same_skeleton st st' → graph_ok (heap st) → graph_ok (heap st').
Proof.
  intros Hsk Hok r p. rewrite (skeleton_parents _ _ Hsk).
  intros Hp. destruct (Hok r p Hp) as [? ?]. split; [done|].
  by apply (skeleton_live _ _ Hsk).
Qed.

Lemma unlink_data R st r t :
  heap st !! r = Some t →
  ∃ t', heap (unlink R st) !! r = Some t' ∧ _data t' = _data t
        ∧ _requires_grad t' = _requires_grad t.
Proof.
  intros Ht. exists (unlink_tensor R t). unfold unlink. simpl.
  by rewrite lookup_fmap, Ht.
Qed.

Lemma topo_order_run st self :
  wf st → live st self →
  topo_order_of self st = (Ok (topo_order st self), st).
Proof.
  intros Hwf Hl.
  destruct (topo_order_of_spec st self) as (order & Hrun & _);
    [apply Hwf|apply Hwf|done|].
  unfold topo_order. by rewrite Hrun.
Qed.

Lemma backward_unfold self gradient kg st t :
  wf st → heap st !! self = Some t →
  backward grad_call self gradient kg st
  = if negb (_requires_grad t) then
      (Raise (RuntimeError "Tensor does not require gradients"), sweep st)
    else
      match gradient with
      | None =>
          if bool_decide (np_size (_data t) ≠ 1) then
            (Raise (RuntimeError
               "Gradient can only be implicitly created for scalar outputs"),
             sweep st)
          else run_pass grad_call self kg (np_ones_like (_data t)) (sweep st)
      | Some g => run_pass grad_call self kg g (sweep st)
      end.
Proof.
  intros Hwf Ht. destruct (clear_stale_tensors_run st Hwf) as [Hclear Hwf'].
  destruct (unlink_data (stale_registered st) st self t Ht)
    as (t' & Ht' & Hdata & Hreq).
  fold (sweep st) in Ht'.
  assert (Hl : live (sweep st) self) by by exists t'.
  unfold backward, mbind, M_bind, bind. rewrite Hclear.
  unfold deref. rewrite Ht', Hreq, Hdata.
  destruct (_requires_grad t); simpl; [|done].
  unfold run_pass, seeded.
  destruct gradient as [g|]; simpl.
  - by rewrite topo_order_run.
  - destruct (bool_decide (np_size (_data t) ≠ 1)); simpl; [done|].
    by rewrite topo_order_run.
Qed.

End Backward.

(** * Every reachable store is well formed *)
Section Reachable.
Context `{np : NumPy}.
Variable grad_call : GradFn → gmap nat Tensor → nat → ndarray → list ndarray.
Implicit Types (h : gmap nat Tensor) (st : State) (t : Tensor).

Lemma requires_grad_live st x : requires_grad_of (heap st) x = true → live st x.
Proof.
  unfold requires_grad_of, live. by destruct (heap st !! x).
Qed.

Lemma run_pass_run self kg g st :
  wf st → live st self →
  ∃ st', run_pass grad_call self kg g st = (Ok tt, st') ∧ same_skeleton st st'.
Proof.
  intros Hwf Hl. unfold run_pass.
  destruct (topo_order_of_spec st self) as (order & Hrun & _ & _ & _ & Hmem);
    [apply Hwf|apply Hwf|done|].
  unfold topo_order. rewrite Hrun.
  assert (Hsk0 : same_skeleton st (seeded self g st))
    by apply update_grad_skeleton.
  apply (for_each_inv (λ st', same_skeleton st st')); [done|].
  intros x st1 Hx Hsk.
  destruct (backward_node_run grad_call self kg x st1) as (st2 & Hrun2 & Hsk2 & _).
  - eapply skeleton_graph_ok; [done|apply Hwf].
  - apply (skeleton_live _ _ Hsk). apply requires_grad_live.
    apply list_elem_of_In, in_rev, list_elem_of_In, Hmem in Hx.
    by eapply grad_path_end.
  - exists st2. split; [done|]. by eapply same_skeleton_trans.
Qed.

Lemma T_run self st t :
  heap st !! self = Some t →
  T self st
  = if bool_decide (_grad_fn t = Some transpose_backward
                    ∧ length (_parents t) = 1)
    then match _parents t with
         | p :: _ => (Ok p, marked self st)
         | [] => (Raise IndexError, marked self st)
         end
    else (Ok (_id_counter st),
          installed (new_node (np_transpose (_data t))
                       (Some transpose_backward) [self] ∅ st) st).
Proof.
  intros Ht. unfold T, mbind, M_bind, bind, deref. rewrite Ht.
  case_bool_decide.
  - simpl. by destruct (_parents t).
  - apply create_node_run.
Qed.

Lemma marked_wf self st :
  wf st → grad_fn_of (heap st) self = Some transpose_backward →
  wf (marked self st).
Proof.
  intros Hwf Hfn. apply (wf_congr st); try done.
  - intros r t'. unfold marked, update. simpl.
    destruct (decide (self = r)) as [->|Hne].
    + rewrite lookup_alter_eq. destruct (heap st !! r) as [t|]; [|done].
      intros [= <-]. by exists t.
    + rewrite lookup_alter_ne by done. intros Ht'. by exists t'.
  - intros r [t Ht]. unfold live, marked, update. simpl.
    destruct (decide (self = r)) as [->|Hne].
    + by rewrite lookup_alter_eq, Ht.
    + rewrite lookup_alter_ne by done. by exists t.
  - intros r. unfold parents_of, marked, update. simpl.
    destruct (decide (self = r)) as [->|Hne].
    + rewrite lookup_alter_eq. by destruct (heap st !! r).
    + by rewrite lookup_alter_ne.
  - intros r. unfold children_of, marked, update. simpl.
    destruct (decide (self = r)) as [->|Hne].
    + rewrite lookup_alter_eq. by destruct (heap st !! r).
    + by rewrite lookup_alter_ne.
  - intros r. unfold grad_fn_of, marked, update. simpl.
    destruct (decide (self = r)) as [->|Hne].
    + rewrite lookup_alter_eq. by destruct (heap st !! r).
    + by rewrite lookup_alter_ne.
  - intros r. unfold stale_of, marked, update. simpl.
    destruct (decide (self = r)) as [->|Hne].
    + rewrite lookup_alter_eq. by destruct (heap st !! r).
    + by rewrite lookup_alter_ne.
  - intros r. unfold marked, update. simpl.
    destruct (decide (self = r)) as [->|Hne]; [done|].
    unfold stale_of at 1. rewrite lookup_alter_ne by done. apply Hwf.
Qed.

Lemma T_wf self st : wf st → live st self → wf (T self st).2.
Proof.
  intros Hwf [t Ht]. rewrite (T_run self st t Ht).
  assert (Hfn : grad_fn_of (heap st) self = _grad_fn t).
  { unfold grad_fn_of. by rewrite Ht. }
  assert (Hps : parents_of (heap st) self = _parents t).
  { unfold parents_of. by rewrite Ht. }
  case_bool_decide as Hc.
  - destruct Hc as [Hc _].
    assert (wf (marked self st)) by (apply marked_wf; [done|congruence]).
    by destruct (_parents t).
  - simpl. apply create_node_wf; [done| |].
    + intros p ->%list_elem_of_singleton. by exists t.
    + intros _. exists self. split; [done|]. rewrite Hfn. intros Htr.
      apply Hc. split; [done|].
      destruct (wf_transpose st Hwf self) as (p & Hp & _); [congruence|].
      rewrite <- Hps, Hp. done.
Qed.

Lemma builds_create st d f ps ex :
  f ≠ Some transpose_backward → (∀ p, p ∈ ps → live st p) →
  builds st (_create_node d f ps ex st).
Proof.
  intros Hf Hps. right. exists d, f, ps, ex. split_and!; [done..|].
  apply create_node_run.
Qed.

Lemma live_pair st a b :
  live st a → live st b → ∀ p, p ∈ [a; b] → live st p.
Proof.
  intros Ha Hb p [->|[->|[]%elem_of_nil]%elem_of_cons]%elem_of_cons; done.
Qed.

Lemma live_single st a : live st a → ∀ p, p ∈ [a] → live st p.
Proof. by intros Ha p ->%list_elem_of_singleton. Qed.

Ltac run_op Hsl :=
  unfold mbind, M_bind, bind, deref; rewrite Hsl.

Ltac raised := left; eexists; reflexivity.

Lemma add_builds self other st :
  live st self → live_operand st other → builds st (__add__ self other st).
Proof.
  intros Hs Ho. pose proof Hs as [s Hsl]. unfold __add__. run_op Hsl.
  destruct other as [o|v].
  - destruct Ho as [t Hol]. rewrite Hol. case_bool_decide; [raised|].
    apply builds_create; [done|]. apply live_pair; [done|by exists t].
  - apply builds_create; [done|]. by apply live_single.
Qed.

Lemma sub_builds self other st :
  live st self → live_operand st other → builds st (__sub__ self other st).
Proof.
  intros Hs Ho. pose proof Hs as [s Hsl]. unfold __sub__. run_op Hsl.
  destruct other as [o|v].
  - destruct Ho as [t Hol]. rewrite Hol. case_bool_decide; [raised|].
    apply builds_create; [done|]. apply live_pair; [done|by exists t].
  - apply builds_create; [done|]. by apply live_single.
Qed.

Lemma mul_builds self other st :
  live st self → live_operand st other → builds st (__mul__ self other st).
Proof.
  intros Hs Ho. pose proof Hs as [s Hsl]. unfold __mul__. run_op Hsl.
  destruct other as [o|v].
  - destruct Ho as [t Hol]. rewrite Hol. case_bool_decide; [raised|].
    apply builds_create; [done|]. apply live_pair; [done|by exists t].
  - apply builds_create; [done|]. by apply live_single.
Qed.

Lemma matmul_builds self other st :
  live st self → live_operand st other → builds st (__matmul__ self other st).
Proof.
  intros Hs Ho. pose proof Hs as [s Hsl]. unfold __matmul__.
  destruct other as [o|v]; [|raised].
  destruct Ho as [t Hol]. run_op Hsl. rewrite Hol.
  case_bool_decide; [raised|]. case_bool_decide; [raised|].
  destruct (np_matmul (_data s) (_data t)); [|raised].
  apply builds_create; [done|]. apply live_pair; [done|by exists t].
Qed.

Lemma binop_builds op self other st :
  live st self → live_operand st other → builds st (binop op self other st).
Proof.
  intros Hs Ho. destruct op; simpl; unfold __radd__, __rsub__, __rmul__;
    auto using add_builds, sub_builds, mul_builds, matmul_builds.
Qed.

Lemma neg_builds self st : live st self → builds st (__neg__ self st).
Proof.
  intros Hs. pose proof Hs as [s Hsl].
  unfold __neg__, mbind, M_bind, bind, deref. rewrite Hsl.
  apply builds_create; [done|]. by apply live_single.
Qed.

Lemma reshape_builds self new_shape st :
  live st self → builds st (reshape self new_shape st).
Proof.
  intros Hs. pose proof Hs as [s Hsl].
  unfold reshape, mbind, M_bind, bind, deref. rewrite Hsl.
  case_bool_decide; [raised|].
  destruct (np_reshape (_data s) new_shape); [|raised].
  apply builds_create; [done|]. by apply live_single.
Qed.

Lemma builds_wf st res : wf st → builds st res → wf res.2.
Proof.
  intros Hwf [[e ->]|(d & f & ps & ex & Hf & Hps & ->)]; [done|].
  simpl. by apply create_node_wf.
Qed.

Lemma bind_ret_state {A} (m : M A) st : ((m ;; ret tt) st).2 = (m st).2.
Proof.
  unfold mbind, M_bind, bind. by destruct (m st) as [[a|e] st'].
Qed.

Lemma exec_wf c st : wf st → valid st c → wf (exec grad_call c st).2.
Proof.
  intros Hwf Hv. destruct c; simpl in *; rewrite ?bind_ret_state.
  - by apply Tensor_init_wf.
  - rewrite create_node_run. simpl. destruct Hv. by apply create_node_wf.
  - by apply T_wf.
  - destruct Hv. by apply (builds_wf st), binop_builds.
  - by apply (builds_wf st), neg_builds.
  - by apply (builds_wf st), reshape_builds.
  - eapply skeleton_wf; [apply update_grad_skeleton|done].
  - destruct (clear_stale_tensors_run st Hwf) as [-> ?]. done.
  - destruct Hv as [t Ht]. rewrite (backward_unfold _ _ _ _ _ t Hwf Ht).
    destruct (clear_stale_tensors_run st Hwf) as [Hclear Hwf'].
    assert (Hl : live (sweep st) self).
    { unfold sweep. apply unlink_live. by exists t. }
    assert (Hpass : ∀ g, wf (run_pass grad_call self keep_grads g (sweep st)).2).
    { intros g. destruct (run_pass_run self keep_grads g (sweep st) Hwf' Hl)
        as (st' & -> & Hsk). simpl. by eapply skeleton_wf. }
    destruct (negb (_requires_grad t)); [done|].
    destruct gradient; [done|]. by case_bool_decide.
Qed.

Lemma empty_wf : wf empty_state.
Proof.
  split; unfold empty_state, graph_ok, ids_ok, live, parents_of, children_of,
    grad_fn_of, stale_of; simpl; intros *; rewrite ?lookup_empty; simpl;
    try done; try (by intros ?%elem_of_nil); try (by intros [? ?]).
  constructor.
Qed.

Lemma reachable_wf st : reachable grad_call st → wf st.
Proof.
  unfold reachable. intros Hr.
  eapply (rtc_ind_r (λ st, wf st)); [apply empty_wf| |exact Hr].
  intros y z _ (c & Hv & <-) Hy. by apply exec_wf.
Qed.

End Reachable.

(** * What a pass does to gradients *)
Section Pass.
Context `{np : NumPy}.
Variable grad_call : GradFn → gmap nat Tensor → nat → ndarray → list ndarray.
Implicit Types (h : gmap nat Tensor) (st : State) (t : Tensor).

(** Induction over the nodes a pass handles: a property of the store
    that every step keeps holds at the end. *)
Lemma pass_ind l self kg st st1 (I : State → Prop) :
  wf st → same_skeleton st st1 →
  (∀ x, x ∈ l → requires_grad_of (heap st) x = true) →
  I st1 →
  (∀ node sta stb, node ∈ l → same_skeleton st sta → I sta →
     same_skeleton sta stb →
     (∀ x, grad_of (heap stb) x
           = grad_after grad_call self kg node (heap sta) x) →
     I stb) →
  ∃ st', for_each l (backward_node grad_call self kg) st1 = (Ok tt, st')
    ∧ same_skeleton st st' ∧ I st'.
Proof.
  intros Hwf Hsk Hreq HI Hstep.
  destruct (for_each_inv (λ s, same_skeleton st s ∧ I s)
              (backward_node grad_call self kg) l st1) as (st' & Hrun & Hsk' & HI');
    [done| |by exists st'].
  intros x sta Hx [Hska HIa].
  destruct (backward_node_run grad_call self kg x sta)
    as (stb & Hrunb & Hskb & Hgb).
  - eapply skeleton_graph_ok; [done|apply Hwf].
  - apply (skeleton_live _ _ Hska), requires_grad_live. by apply Hreq.
  - exists stb. split; [done|]. split; [by eapply same_skeleton_trans|].
    by eapply Hstep.
Qed.

Lemma topo_order_members st self :
  wf st → live st self →
  NoDup (topo_order st self)
  ∧ topo_sorted_from (heap st) [] (topo_order st self)
  ∧ ∀ x, x ∈ topo_order st self ↔ grad_path (heap st) self x.
Proof.
  intros Hwf Hl.
  destruct (topo_order_of_spec st self) as (order & Hrun & Hnd & Hs & _ & Hmem);
    [apply Hwf|apply Hwf|done|].
  unfold topo_order. by rewrite Hrun.
Qed.

Lemma seeded_grad self g st x :
  live st self →
  grad_of (heap (seeded self g st)) x
  = if decide (x = self) then Some g else grad_of (heap st) x.
Proof. apply update_grad_grad. Qed.

Lemma run_pass_ind self kg g st (I : State → Prop) :
  wf st → live st self →
  I (seeded self g st) →
  (∀ node sta stb, node ∈ topo_order st self → same_skeleton st sta → I sta →
     same_skeleton sta stb →
     (∀ x, grad_of (heap stb) x
           = grad_after grad_call self kg node (heap sta) x) →
     I stb) →
  ∃ st', run_pass grad_call self kg g st = (Ok tt, st')
    ∧ same_skeleton st st' ∧ I st'.
Proof.
  intros Hwf Hl HI Hstep. unfold run_pass.
  destruct (topo_order_members st self Hwf Hl) as (_ & _ & Hmem).
  apply pass_ind; [done|apply update_grad_skeleton| |done|].
  - intros x Hx%list_elem_of_In%in_rev%list_elem_of_In%Hmem.
    by eapply grad_path_end.
  - intros node sta stb Hn. apply Hstep.
    by apply list_elem_of_In, in_rev, list_elem_of_In.
Qed.

Lemma accum_app old gs1 gs2 : accum (accum old gs1) gs2 = accum old (gs1 ++ gs2).
Proof. unfold accum. by rewrite foldl_app. Qed.

(** A step adds to a gradient it does not clear. *)
Lemma grad_after_accumulates self kg node h x g gs :
  cleared kg self h node = false ∨ x ≠ node →
  grad_of h x = Some (foldl np_add g gs) →
  ∃ gs', grad_after grad_call self kg node h x = Some (foldl np_add g gs').
Proof.
  intros Hc Hx. unfold grad_after.
  destruct (grad_fn_of h node) as [f|]; [|by exists gs].
  destruct (grad_of h node) as [gn|]; [|by exists gs].
  assert (Hb : bool_decide (x = node) && cleared kg self h node = false).
  { destruct Hc as [->|Hne]; [by rewrite andb_false_r|].
    by rewrite bool_decide_eq_false_2. }
  rewrite Hb. destruct (requires_grad_of h x); [|by exists gs].
  rewrite Hx, accum_Some, <- foldl_app. by eexists.
Qed.

Lemma unlink_type R st r :
  type_of (heap (unlink R st)) r = type_of (heap st) r.
Proof.
  unfold type_of, unlink. simpl. rewrite lookup_fmap.
  by destruct (heap st !! r).
Qed.

Lemma cleared_keep self h node : cleared true self h node = false.
Proof. done. Qed.

Lemma cleared_not_intermediate kg self h node :
  type_of h node ≠ Some INTERMEDIATE → cleared kg self h node = false.
Proof.
  intros Hty. unfold cleared. rewrite (bool_decide_eq_false_2 _ Hty).
  by rewrite andb_false_r.
Qed.

(** C3 (amended): a call of [backward], whether it returns or raises,
    only adds to the gradient a tensor already has, provided the tensor is
    not the output of the call (which takes the seed) and is not an
    [INTERMEDIATE] tensor of a pass that clears ([keep_grads] false). *)
Theorem C3_backward_accumulates st self gradient kg res st' x g :
  wf st → live st self →
  backward grad_call self gradient kg st = (res, st') →
  x ≠ self →
  kg = true ∨ type_of (heap st) x ≠ Some INTERMEDIATE →
  grad_of (heap st) x = Some g →
  ∃ gs, grad_of (heap st') x = Some (foldl np_add g gs).
Proof.
  intros Hwf [t Ht] Hrun Hx Hkeep Hg.
  destruct (clear_stale_tensors_run st Hwf) as [_ Hwf'].
  assert (Hl : live (sweep st) self).
  { unfold sweep. apply unlink_live. by exists t. }
  assert (Hg' : grad_of (heap (sweep st)) x = Some g).
  { unfold sweep. by rewrite unlink_grad. }
  assert (Hpass : ∀ g0 r s,
            run_pass grad_call self kg g0 (sweep st) = (r, s) →
            ∃ gs, grad_of (heap s) x = Some (foldl np_add g gs)).
  { intros g0 r s Hp.
    destruct (run_pass_ind self kg g0 (sweep st)
                (λ s, ∃ gs, grad_of (heap s) x = Some (foldl np_add g gs)))
      as (s' & Hp' & _ & HI); [done|done| | |].
    - exists []. by rewrite seeded_grad, decide_False.
    - intros node sta stb _ Hska [gs Hgs] _ Hgb. rewrite Hgb.
      eapply grad_after_accumulates; [|done].
      destruct Hkeep as [->|Hty]; [by left|].
      destruct (decide (x = node)) as [<-|Hne]; [|by right]. left.
      apply cleared_not_intermediate.
      rewrite (skeleton_type _ _ Hska). unfold sweep. by rewrite unlink_type.
    - rewrite Hp in Hp'. by injection Hp' as _ <-. }
  rewrite (backward_unfold _ _ _ _ _ t Hwf Ht) in Hrun.
  destruct (negb (_requires_grad t)).
  { injection Hrun as _ <-. by exists []. }
  destruct gradient as [g0|]; [by eapply Hpass|].
  case_bool_decide; [|by eapply Hpass].
  injection Hrun as _ <-. by exists [].
Qed.

Lemma NoDup_split_inj (l1 l2 k1 k2 : list nat) n :
  NoDup (l1 ++ n :: l2) → l1 ++ n :: l2 = k1 ++ n :: k2 → l1 = k1 ∧ l2 = k2.
Proof.
  revert k1. induction l1 as [|x l1 IH]; intros k1 Hnd Heq.
  - destruct k1 as [|y k1]; simpl in *; [by injection Heq|].
    injection Heq as -> ->. apply NoDup_cons in Hnd as [Hn _].
    exfalso. apply Hn. set_solver.
  - destruct k1 as [|y k1]; simpl in *.
    + injection Heq as -> <-. apply NoDup_cons in Hnd as [Hn _].
      exfalso. apply Hn. set_solver.
    + injection Heq as -> Heq. apply NoDup_cons in Hnd as [_ Hnd].
      destruct (IH k1 Hnd Heq) as [-> ->]. done.
Qed.



Lemma grad_after_other self kg node h x :
  x ≠ node → x ∉ parents_of h node →
  grad_after grad_call self kg node h x = grad_of h x.
Proof.
  intros Hne Hx. unfold grad_after.
  destruct (grad_fn_of h node); [|done]. destruct (grad_of h node); [|done].
  rewrite bool_decide_eq_false_2 by done. simpl.
  rewrite contributions_nil by done. by destruct (requires_grad_of h x).
Qed.

Lemma backward_Ok_run_pass st self gradient kg t st' :
  wf st → heap st !! self = Some t →
  backward grad_call self gradient kg st = (Ok tt, st') →
  ∃ g, run_pass grad_call self kg g (sweep st) = (Ok tt, st').
Proof.
  intros Hwf Ht Hrun. rewrite (backward_unfold _ _ _ _ _ t Hwf Ht) in Hrun.
  destruct (negb (_requires_grad t)); [done|].
  destruct gradient as [g0|]; [by exists g0|].
  case_bool_decide; [done|]. by eexists.
Qed.


End Pass.

(** * The claims about operations, the reclaimer and [backward] *)
Section Claims.
Context `{np : NumPy}.
Variable grad_call : GradFn → gmap nat Tensor → nat → ndarray → list ndarray.
Implicit Types (h : gmap nat Tensor) (st : State) (t : Tensor).

Lemma count_cons i x l :
  count i (x :: l) = (if decide (x = i) then 1 else 0) + count i l.
Proof. unfold count. rewrite filter_cons. by case_decide. Qed.

Lemma contributions_once (ps : list nat) (gs : list ndarray) i p gi :
  ps !! i = Some p → gs !! i = Some gi → count p ps = 1 →
  contributions p (combine ps gs) = [gi].
Proof.
  revert gs i. induction ps as [|q ps IH]; intros gs i Hp Hg Hc; [done|].
  destruct gs as [|g gs]; [done|]. rewrite count_cons in Hc.
  unfold contributions in *. simpl. rewrite filter_cons. simpl.
  destruct i as [|i]; simpl in *.
  - assert (q = p) by congruence. assert (g = gi) by congruence. subst q g.
    rewrite decide_True in Hc by done. rewrite decide_True by done.
    simpl. f_equal.
    apply (contributions_nil p ps gs). intros Hin%count_pos. lia.
  - assert (0 < count p ps) by (eapply count_pos, list_elem_of_lookup_2, Hp).
    destruct (decide (q = p)) as [->|Hne]; [lia|].
    by apply (IH gs i).
Qed.

(** C2: with an explicit seed, [backward] on a tensor that requires
    gradients runs [backward_node] over the reversed topological order of
    the swept store; and a node with a gradient function and a gradient
    calls that function on itself and its gradient, pairs the returned
    buffers with its parents position by position, and leaves in every
    gradient-requiring parent the old gradient accumulated with the
    buffers paired with it: the buffer itself if the slot was empty, the
    element-wise sum otherwise. *)
Theorem C2_backward_pass st self g0 kg t :
  wf st → heap st !! self = Some t → _requires_grad t = true →
  backward grad_call self (Some g0) kg st
  = for_each (rev (topo_order (sweep st) self))
      (backward_node grad_call self kg) (seeded self g0 (sweep st))
  ∧ ∀ sta node f g,
      graph_ok (heap sta) → live sta node →
      grad_fn_of (heap sta) node = Some f →
      grad_of (heap sta) node = Some g →
      let gradients := grad_call f (heap sta) node g in
      let parents := parents_of (heap sta) node in
      length gradients = length parents →
      ∃ stb, backward_node grad_call self kg node sta = (Ok tt, stb)
        ∧ (∀ i p, parents !! i = Some p → is_Some (gradients !! i))
        ∧ (∀ x, x ≠ node → requires_grad_of (heap sta) x = true →
             grad_of (heap stb) x
             = accum (grad_of (heap sta) x)
                 (contributions x (combine parents gradients)))
        ∧ (∀ x, x ≠ node → requires_grad_of (heap sta) x = false →
             grad_of (heap stb) x = grad_of (heap sta) x)
        ∧ (∀ i p gi, parents !! i = Some p → gradients !! i = Some gi →
             count p parents = 1 → requires_grad_of (heap sta) p = true →
             grad_of (heap stb) p
             = Some (match grad_of (heap sta) p with
                     | None => gi
                     | Some old => np_add old gi
                     end)).
Proof.
  intros Hwf Ht Hreq. split.
  { rewrite (backward_unfold _ _ _ _ _ t Hwf Ht), Hreq. done. }
  intros sta node f g Hok Hl Hf Hg gradients parents Hlen.
  destruct (backward_node_run grad_call self kg node sta Hok Hl)
    as (stb & Hrun & _ & Hgb).
  exists stb. split; [done|].
  assert (Hother : ∀ x, x ≠ node →
            grad_of (heap stb) x
            = if requires_grad_of (heap sta) x
              then accum (grad_of (heap sta) x)
                     (contributions x (combine parents gradients))
              else grad_of (heap sta) x).
  { intros x Hx. rewrite Hgb. unfold grad_after. rewrite Hf, Hg.
    by rewrite bool_decide_eq_false_2. }
  split_and!.
  - intros i p Hp. apply lookup_lt_is_Some. rewrite Hlen.
    by eapply lookup_lt_Some.
  - intros x Hx Hr. by rewrite Hother, Hr.
  - intros x Hx Hr. by rewrite Hother, Hr.
  - intros i p gi Hp Hgi Hc Hr.
    assert (Hpn : p ≠ node).
    { intros ->. apply list_elem_of_lookup_2 in Hp. apply Hok in Hp. lia. }
    rewrite Hother, Hr, (contributions_once _ _ i p gi) by done.
    by destruct (grad_of (heap sta) p).
Qed.

Lemma backward_skeleton self gradient kg st :
  wf st → live st self →
  same_skeleton (sweep st) (backward grad_call self gradient kg st).2.
Proof.
  intros Hwf [t Ht].
  destruct (clear_stale_tensors_run st Hwf) as [_ Hwf'].
  assert (Hl : live (sweep st) self).
  { unfold sweep. apply unlink_live. by exists t. }
  rewrite (backward_unfold _ _ _ _ _ t Hwf Ht).
  assert (Hpass : ∀ g,
            same_skeleton (sweep st)
              (run_pass grad_call self kg g (sweep st)).2).
  { intros g. by destruct (run_pass_run grad_call self kg g (sweep st) Hwf' Hl)
      as (s & -> & Hsk). }
  destruct (negb (_requires_grad t)); [apply same_skeleton_refl|].
  destruct gradient; [done|].
  case_bool_decide; [apply same_skeleton_refl|done].
Qed.

(** C5 (amended): [backward] first runs the reclaimer, so whatever
    happens next the store is the swept one up to gradients, and exactly
    the swept one when one of the two checks fails; it raises the
    gradient-not-required error exactly when the output does not require
    gradients; without a [gradient] argument it raises the non-scalar
    error exactly when the output requires gradients and its data does
    not have exactly one element (an empty buffer raises too), and
    otherwise it runs the pass from the seed [np.ones_like] of the
    output's data, a buffer of ones of the output's shape. *)
Theorem C5_backward_preconditions st self gradient kg t :
  wf st → heap st !! self = Some t →
  let out := backward grad_call self gradient kg st in
  let not_required := RuntimeError "Tensor does not require gradients" in
  let not_scalar :=
    RuntimeError "Gradient can only be implicitly created for scalar outputs" in
  clear_stale_tensors st = (Ok tt, sweep st)
  ∧ same_skeleton (sweep st) out.2
  ∧ (out.1 = Raise not_required ∨ out.1 = Raise not_scalar →
       out.2 = sweep st)
  ∧ (out.1 = Raise not_required ↔ _requires_grad t = false)
  ∧ (gradient = None →
       (out.1 = Raise not_scalar
        ↔ _requires_grad t = true ∧ np_size (_data t) ≠ 1))
  ∧ (gradient = None → _requires_grad t = true → np_size (_data t) = 1 →
       out = run_pass grad_call self kg (np_ones_like (_data t)) (sweep st)
       ∧ grad_of (heap (seeded self (np_ones_like (_data t)) (sweep st))) self
         = Some (np_ones_like (_data t))).
Proof.
  intros Hwf Ht out not_required not_scalar.
  destruct (clear_stale_tensors_run st Hwf) as [Hclear Hwf'].
  assert (Hl : live (sweep st) self).
  { unfold sweep. apply unlink_live. by exists t. }
  assert (Hout := backward_unfold grad_call self gradient kg st t Hwf Ht).
  fold out in Hout.
  assert (Hpass : ∀ g, ∃ s,
            run_pass grad_call self kg g (sweep st) = (Ok tt, s)
            ∧ same_skeleton (sweep st) s).
  { intros g. by apply run_pass_run. }
  split; [done|].
  destruct (_requires_grad t) eqn:Hreq; simpl in Hout.
  - destruct gradient as [g|].
    + destruct (Hpass g) as (s & Hs & Hsk). rewrite Hs in Hout.
      rewrite Hout. cbn [fst snd]. split_and!; try done.
      by intros [?|?].
    + case_bool_decide as Hsize.
      * rewrite Hout. cbn [fst snd].
        split_and!; done || apply same_skeleton_refl.
      * destruct (Hpass (np_ones_like (_data t))) as (s & Hs & Hsk).
        rewrite Hs in Hout. rewrite Hout. cbn [fst snd].
        split_and!; try done.
        -- by intros [?|?].
        -- intros _. split; [intros [=]|]. intros [_ ?]. done.
        -- intros _ _ _. split; [done|].
           by rewrite seeded_grad, decide_True.
  - rewrite Hout. cbn [fst snd].
    split_and!; try done; try apply same_skeleton_refl.
    intros _. split; [intros [=]|]. intros [[=] _].
Qed.

Lemma marked_requires_grad self st r :
  requires_grad_of (heap (marked self st)) r = requires_grad_of (heap st) r.
Proof.
  unfold requires_grad_of, marked, update. simpl.
  destruct (decide (self = r)) as [->|Hne].
  - rewrite lookup_alter_eq. by destruct (heap st !! r).
  - by rewrite lookup_alter_ne.
Qed.

Lemma builds_requires_grad st res r :
  wf st → builds st res → live st r →
  requires_grad_of (heap res.2) r = requires_grad_of (heap st) r.
Proof.
  intros Hwf [[e ->]|(d & f & ps & ex & Hf & Hps & ->)] Hr; [done|].
  cbn [snd]. rewrite installed_requires_grad; [|apply Hwf|done].
  rewrite decide_False; [done|]. by apply live_not_fresh; [apply Hwf|].
Qed.

Lemma exec_requires_grad c st r :
  wf st → valid st c → live st r →
  requires_grad_of (heap (exec grad_call c st).2) r
  = requires_grad_of (heap st) r.
Proof.
  intros Hwf Hv Hr.
  assert (Hfresh : r ≠ _id_counter st) by (by apply live_not_fresh; [apply Hwf|]).
  destruct c; cbn [exec valid] in *; rewrite ?bind_ret_state.
  - rewrite Tensor_init_run. cbn [snd].
    rewrite installed_requires_grad; [|apply Hwf|].
    + by rewrite decide_False.
    + intros p Hp. by apply elem_of_nil in Hp.
  - rewrite create_node_run. cbn [snd]. destruct Hv as [_ Hps].
    rewrite installed_requires_grad; [|apply Hwf|done]. by rewrite decide_False.
  - destruct Hv as [t Ht]. rewrite (T_run self st t Ht).
    case_bool_decide.
    + transitivity (requires_grad_of (heap (marked self st)) r);
        [by destruct (_parents t)|apply marked_requires_grad].
    + cbn [snd]. rewrite installed_requires_grad; [|apply Hwf|].
      * by rewrite decide_False.
      * intros p Hp%list_elem_of_singleton. subst p. by exists t.
  - destruct Hv. apply (builds_requires_grad st); [done| |done].
    by apply binop_builds.
  - apply (builds_requires_grad st); [done| |done]. by apply neg_builds.
  - apply (builds_requires_grad st); [done| |done]. by apply reshape_builds.
  - apply skeleton_requires_grad, update_grad_skeleton.
  - destruct (clear_stale_tensors_run st Hwf) as [-> ?]. cbn [snd].
    unfold sweep. apply unlink_requires_grad.
  - rewrite (skeleton_requires_grad _ _
               (backward_skeleton self gradient keep_grads st Hwf Hv)).
    unfold sweep. apply unlink_requires_grad.
Qed.

(** C6: a directly constructed tensor requires gradients iff its type is
    [PARAMETER]; a tensor made by [_create_node] requires gradients iff
    one of its parents does; and no call of the interface changes
    [_requires_grad] of a tensor that exists. *)
Theorem C6_requires_grad_fixed st :
  wf st →
  (∀ d ty, ∃ st',
      Tensor_init d ty st = (Ok (_id_counter st), st')
      ∧ (requires_grad_of (heap st') (_id_counter st) = true
         ↔ ty = PARAMETER))
  ∧ (∀ d f ps ex, (∀ p, p ∈ ps → live st p) → ∃ st',
      _create_node d f ps ex st = (Ok (_id_counter st), st')
      ∧ (requires_grad_of (heap st') (_id_counter st) = true
         ↔ ∃ p, p ∈ ps ∧ requires_grad_of (heap st) p = true))
  ∧ (∀ c r, valid st c → live st r →
      requires_grad_of (heap (exec grad_call c st).2) r
      = requires_grad_of (heap st) r).
Proof.
  intros Hwf. split_and!.
  - intros d ty. exists (installed (leaf d ty st) st). split; [done|].
    rewrite installed_requires_grad, decide_True; [|done|apply Hwf|].
    + simpl. by rewrite bool_decide_eq_true.
    + intros p Hp. by apply elem_of_nil in Hp.
  - intros d f ps ex Hps. exists (installed (new_node d f ps ex st) st).
    split; [apply create_node_run|].
    rewrite installed_requires_grad, decide_True; [|done|apply Hwf|done].
    rewrite new_node_requires_grad; [|apply Hwf|done].
    rewrite existsb_exists. setoid_rewrite <- list_elem_of_In. done.
  - intros c r. by apply exec_requires_grad.
Qed.

Lemma builds_Raise st res e st' : builds st res → res = (Raise e, st') → st' = st.
Proof.
  intros [[e' ->]|(d & f & ps & ex & _ & _ & ->)] [=]; done.
Qed.

(** C7: an operation whose precondition fails raises, and the store is
    exactly the store before the call: tensor-tensor [+], [-], [*] on
    different shapes, [@] with a scalar on the right, with an operand of
    fewer than two dimensions or with misaligned inner dimensions, and
    [reshape] to another number of elements: when the guard's two
    products, which numpy computes in wrap-around [int64], differ, and
    also when they agree but numpy cannot give the buffer the new shape.
    [reshape] builds a node only when the guard passes and numpy has
    reshaped the buffer.  More generally an operation that raises
    anything has changed nothing. *)
Theorem C7_rejected_operations st self o :
  live st self → live st o →
  let s := shape_of (heap st) self in
  let t := shape_of (heap st) o in
  (s ≠ t →
     __add__ self (OTensor o) st
       = (Raise (ValueError "Shape mismatch for addition"), st)
     ∧ __sub__ self (OTensor o) st
       = (Raise (ValueError "Shape mismatch for subtraction"), st)
     ∧ __mul__ self (OTensor o) st
       = (Raise (ValueError "Shape mismatch for multiplication"), st))
  ∧ (∀ v, __matmul__ self (OScalar v) st
       = (Raise (TypeError
            "Right operand must be a Tensor for matrix multiplication."), st))
  ∧ (length s < 2 ∨ length t < 2 →
       __matmul__ self (OTensor o) st
       = (Raise (ValueError
            "Matrix multiplication requires at least 2D tensors."), st))
  ∧ (2 ≤ length s → 2 ≤ length t → from_end s 0 ≠ from_end t 1 →
       __matmul__ self (OTensor o) st
       = (Raise (ValueError "Matrix shapes not aligned"), st))
  ∧ (∀ new_shape, np_prod new_shape ≠ np_prod (Z.of_nat <$> s) →
       reshape self new_shape st
       = (Raise (ValueError
            "New shape must have the same number of elements as the original shape."),
          st))
  ∧ (∀ new_shape d, data_of (heap st) self = Some d →
       np_reshape d new_shape = None →
       ∃ e, reshape self new_shape st = (Raise e, st))
  ∧ (∀ new_shape r st', reshape self new_shape st = (Ok r, st') →
       np_prod new_shape = np_prod (Z.of_nat <$> s)
       ∧ ∃ d, data_of (heap st) self = Some d
              ∧ is_Some (np_reshape d new_shape))
  ∧ (∀ op other e st', live_operand st other →
       binop op self other st = (Raise e, st') → st' = st)
  ∧ (∀ new_shape e st',
       reshape self new_shape st = (Raise e, st') → st' = st).
Proof.
  intros Hs Ho s t. pose proof Hs as [ts Hts]. pose proof Ho as [to Hto].
  assert (Hss : s = _shape ts).
  { unfold s, shape_of. by rewrite Hts. }
  assert (Htt : t = _shape to).
  { unfold t, shape_of. by rewrite Hto. }
  rewrite Hss, Htt. clear Hss Htt s t.
  split_and!.
  - intros Hne.
    unfold __add__, __sub__, __mul__, mbind, M_bind, bind, deref.
    rewrite Hts, Hto, !bool_decide_eq_true_2 by done. done.
  - done.
  - intros Hlen. unfold __matmul__, mbind, M_bind, bind, deref.
    rewrite Hts, Hto, bool_decide_eq_true_2 by done. done.
  - intros H1 H2 Hne. unfold __matmul__, mbind, M_bind, bind, deref.
    rewrite Hts, Hto, bool_decide_eq_false_2 by lia.
    by rewrite bool_decide_eq_true_2.
  - intros new_shape Hne. unfold reshape, mbind, M_bind, bind, deref.
    by rewrite Hts, bool_decide_eq_true_2.
  - intros new_shape d Hd Hnone. unfold data_of in Hd. rewrite Hts in Hd.
    injection Hd as <-.
    unfold reshape, mbind, M_bind, bind, deref. rewrite Hts, Hnone.
    case_bool_decide; by eexists.
  - intros new_shape r st' Hrun.
    unfold reshape, mbind, M_bind, bind, deref in Hrun. rewrite Hts in Hrun.
    case_bool_decide as Hguard; [done|].
    split; [lia|].
    exists (_data ts). split; [unfold data_of; by rewrite Hts|].
    by destruct (np_reshape (_data ts) new_shape).
  - intros op other e st' Hother Hrun.
    eapply builds_Raise; [|exact Hrun]. by apply binop_builds.
  - intros new_shape e st' Hrun.
    eapply builds_Raise; [|exact Hrun]. by apply reshape_builds.
Qed.

Lemma filter_none (P : nat → Prop) `{∀ x, Decision (P x)} (l : list nat) :
  (∀ x, x ∈ l → ¬ P x) → filter P l = [].
Proof.
  induction l as [|x l IH]; intros Hl; [done|].
  rewrite filter_cons, decide_False by (apply Hl; left).
  apply IH. intros y Hy. apply Hl. by right.
Qed.

Lemma stale_registered_spec st s :
  s ∈ stale_registered st
  ↔ s ∈ _global_tensor_registry st ∧ stale_of (heap st) s = true.
Proof. unfold stale_registered. rewrite list_elem_of_filter. tauto. Qed.

Lemma stale_registered_sweep st : stale_registered (sweep st) = [].
Proof.
  unfold stale_registered. apply filter_none. intros x Hx Hs.
  unfold sweep, unlink in Hx. simpl in Hx.
  apply list_elem_of_filter in Hx as [Hx Hreg]. apply Hx.
  apply stale_registered_spec. split; [done|].
  unfold sweep in Hs. by rewrite unlink_stale in Hs.
Qed.

Lemma sweep_idemp st : sweep (sweep st) = sweep st.
Proof.
  unfold sweep at 1. by rewrite stale_registered_sweep, unlink_nil.
Qed.

(** C9: in a well-formed store [clear_stale_tensors] returns, and the
    store it leaves is the swept one: every registered tensor flagged
    stale is gone from the registry, from the [_children] of its parents
    and from the [_parents] of its children; every [_parents] tuple and
    [_children] list keeps its other entries in order, and nothing else
    of any tensor changes; a second call changes nothing, and neither does
    a call when no registered tensor is stale. *)
Theorem C9_clear_stale_tensors st :
  wf st →
  clear_stale_tensors st = (Ok tt, sweep st)
  ∧ (∀ s, s ∈ _global_tensor_registry st → stale_of (heap st) s = true →
       s ∉ _global_tensor_registry (sweep st)
       ∧ (∀ p, p ∈ parents_of (heap st) s →
            s ∉ children_of (heap (sweep st)) p)
       ∧ (∀ c, c ∈ children_of (heap st) s →
            s ∉ parents_of (heap (sweep st)) c))
  ∧ (∀ r, r ∈ _global_tensor_registry st → stale_of (heap st) r = false →
       r ∈ _global_tensor_registry (sweep st))
  ∧ (∀ n, parents_of (heap (sweep st)) n
          = filter (λ p, p ∉ stale_registered st) (parents_of (heap st) n)
        ∧ children_of (heap (sweep st)) n
          = filter (λ c, c ∉ stale_registered st) (children_of (heap st) n)
        ∧ heap (sweep st) !! n
          = unlink_tensor (stale_registered st) <$> heap st !! n)
  ∧ clear_stale_tensors (sweep st) = (Ok tt, sweep st)
  ∧ (stale_registered st = [] → clear_stale_tensors st = (Ok tt, st)).
Proof.
  intros Hwf. destruct (clear_stale_tensors_run st Hwf) as [Hrun Hwf'].
  split_and!; [done| | | | |].
  - intros s Hreg Hstale.
    assert (Hs : s ∈ stale_registered st) by by apply stale_registered_spec.
    split_and!.
    + unfold sweep, unlink. simpl. rewrite list_elem_of_filter. tauto.
    + intros p _. unfold sweep. rewrite unlink_children, list_elem_of_filter.
      tauto.
    + intros c _. unfold sweep. rewrite unlink_parents, list_elem_of_filter.
      tauto.
  - intros r Hreg Hstale. unfold sweep, unlink. simpl.
    rewrite list_elem_of_filter. split; [|done].
    rewrite stale_registered_spec. intros [_ ?]. congruence.
  - intros n. unfold sweep. rewrite unlink_parents, unlink_children.
    split_and!; [done..|]. unfold unlink. simpl. by rewrite lookup_fmap.
  - destruct (clear_stale_tensors_run (sweep st) Hwf') as [Hrun' _].
    by rewrite Hrun', sweep_idemp.
  - intros Hnone. rewrite Hrun. unfold sweep. by rewrite Hnone, unlink_nil.
Qed.

(** C10: for a scalar [s], [__rsub__] is [__sub__]: the reflected
    subtraction [s - a] builds the node of [a - s], whose data is
    [a.data - s]. *)
Theorem C10_rsub_is_sub st a s t :
  ids_ok st → heap st !! a = Some t →
  __rsub__ a (OScalar s) st = __sub__ a (OScalar s) st
  ∧ ∃ st', __rsub__ a (OScalar s) st = (Ok (_id_counter st), st')
      ∧ _data <$> heap st' !! _id_counter st
        = Some (np_sub_scalar (_data t) s)
      ∧ grad_fn_of (heap st') (_id_counter st) = Some sub_scalar_backward
      ∧ parents_of (heap st') (_id_counter st) = [a].
Proof.
  intros Hids Ht. split; [done|].
  unfold __rsub__, __sub__, mbind, M_bind, bind, deref. rewrite Ht.
  rewrite create_node_run. eexists. split; [done|].
  assert (Hnew : heap (installed (new_node (np_sub_scalar (_data t) s)
                   (Some sub_scalar_backward) [a] (scalar_extra s) st) st)
                 !! _id_counter st
                 = Some (new_node (np_sub_scalar (_data t) s)
                   (Some sub_scalar_backward) [a] (scalar_extra s) st)).
  { apply installed_lookup_new; [done|].
    intros p Hp%list_elem_of_singleton. subst p. by exists t. }
  unfold grad_fn_of, parents_of. by rewrite Hnew.
Qed.

(** C4 (amended): for a tensor [x] that is not itself a transpose,
    [x.T()] is a new tensor [t] and [t.T()] returns [x] itself and marks
    [t] stale; the next run of the reclaimer removes [t] from the
    registry, from every [_children] list and from every [_parents]
    tuple. *)
Theorem C4_double_transpose st x :
  wf st → live st x →
  grad_fn_of (heap st) x ≠ Some transpose_backward →
  let t := _id_counter st in
  ∃ st1 st2,
    T x st = (Ok t, st1) ∧ T t st1 = (Ok x, st2)
    ∧ t ≠ x ∧ ¬ live st t
    ∧ stale_of (heap st2) t = true
    ∧ clear_stale_tensors st2 = (Ok tt, sweep st2)
    ∧ t ∉ _global_tensor_registry (sweep st2)
    ∧ ∀ n, t ∉ children_of (heap (sweep st2)) n
           ∧ t ∉ parents_of (heap (sweep st2)) n.
Proof.
  intros Hwf Hx Hfn t. pose proof Hx as [tx Htx].
  assert (Hfx : _grad_fn tx ≠ Some transpose_backward).
  { unfold grad_fn_of in Hfn. by rewrite Htx in Hfn. }
  set (tn := new_node (np_transpose (_data tx)) (Some transpose_backward)
               [x] ∅ st).
  set (st1 := installed tn st).
  assert (HT1 : T x st = (Ok t, st1)).
  { rewrite (T_run x st tx Htx), bool_decide_eq_false_2; [done|]. tauto. }
  assert (Hwf1 : wf st1).
  { pose proof (T_wf x st Hwf Hx) as H1. by rewrite HT1 in H1. }
  assert (Hps : ∀ p, p ∈ _parents tn → live st p).
  { intros p Hp%list_elem_of_singleton. by subst p. }
  assert (Htn : heap st1 !! t = Some tn).
  { apply installed_lookup_new; [apply Hwf|done]. }
  set (st2 := marked t st1).
  assert (HT2 : T t st1 = (Ok x, st2)).
  { rewrite (T_run t st1 tn Htn), bool_decide_eq_true_2; done. }
  assert (Hwf2 : wf st2).
  { apply marked_wf; [done|]. unfold grad_fn_of. by rewrite Htn. }
  assert (Hstale : stale_of (heap st2) t = true).
  { unfold stale_of, st2, marked, update. cbn [snd heap].
    by rewrite lookup_alter_eq, Htn. }
  assert (Hreg : t ∈ stale_registered st2).
  { apply stale_registered_spec. split; [|done].
    unfold st2, marked, update, st1, installed. cbn.
    apply elem_of_app. right. left. }
  exists st1, st2. split_and!; try done.
  - intros Heq. apply (fresh_not_live' st); [apply Hwf|].
    rewrite <- Heq in Hx. exact Hx.
  - apply fresh_not_live'. apply Hwf.
  - by apply clear_stale_tensors_run.
  - unfold sweep, unlink. simpl. rewrite list_elem_of_filter. tauto.
  - intros n. unfold sweep.
    rewrite unlink_children, unlink_parents, !list_elem_of_filter. tauto.
Qed.

End Claims.

(** * Sequences of calls *)
Section Calls.
Context `{np : NumPy}.
Variable grad_call : GradFn → gmap nat Tensor → nat → ndarray → list ndarray.

Lemma run_calls_wf cs : ∀ st st',
  wf st → run_calls grad_call cs st = Some st' → wf st'.
Proof.
  induction cs as [|c cs IH]; intros st st' Hwf Hrun; simpl in Hrun.
  - by injection Hrun as <-.
  - destruct (decide (valid st c)) as [Hv|]; [|done].
    eapply IH; [|exact Hrun]. by apply exec_wf.
Qed.

Lemma run_calls_reachable cs : ∀ st st',
  reachable grad_call st → run_calls grad_call cs st = Some st' →
  reachable grad_call st'.
Proof.
  induction cs as [|c cs IH]; intros st st' Hr Hrun; simpl in Hrun.
  - by injection Hrun as <-.
  - destruct (decide (valid st c)) as [Hv|]; [|done].
    eapply IH; [|exact Hrun]. eapply rtc_r; [exact Hr|]. by exists c.
Qed.
End Calls.

(** * Concrete graphs: examples of the claims *)
(** * The traversals of [TensorUtils] *)
Section Traversals.
Context `{np : NumPy}.

Lemma reaches_trans h a b c : reaches h a b → reaches h b c → reaches h a c.
Proof. intros Hab Hbc. induction Hbc; [done|]. by eapply reaches_step. Qed.

Lemma reaches_parent h n p x :
  p ∈ parents_of h n → reaches h p x → reaches h n x.
Proof.
  intros Hp Hx. eapply reaches_trans; [|exact Hx].
  eapply reaches_step; [apply reaches_self|done].
Qed.

Lemma visit_each_walk h (visit : nat → gset nat * list nat → Result (gset nat * list nat)) ps :
  (∀ p V N, p ∈ ps → walk_post h [p] V N (visit p (V, N))) →
  ∀ V N, walk_post h ps V N (visit_each visit ps (V, N)).
Proof.
  induction ps as [|p ps IH]; intros Hv V N.
  - exists []. simpl. rewrite union_empty_r_L, app_nil_r.
    split_and!; [done|constructor|by intros ? ?%elem_of_nil
                |by intros ? ?%elem_of_nil|by intros ? ? ?%elem_of_nil].
  - simpl. destruct (Hv p V N) as (N1 & -> & Hnd1 & Hin1 & Hr1 & Hc1);
      [left|].
    destruct (IH (λ q V N Hq, Hv q V N (list_elem_of_further _ _ _ Hq))
                (V ∪ list_to_set N1) (N ++ N1))
      as (N2 & -> & Hnd2 & Hin2 & Hr2 & Hc2).
    exists (N1 ++ N2). split_and!.
    + f_equal. f_equal; [|by rewrite app_assoc].
      rewrite list_to_set_app_L. by rewrite (assoc_L (∪)).
    + apply NoDup_app. split_and!; [done| |done].
      intros x Hx1 Hx2. destruct (Hin2 x Hx2) as [Hn _].
      apply Hn. apply elem_of_union. right. by apply elem_of_list_to_set.
    + intros x [Hx|Hx]%elem_of_app.
      * destruct (Hin1 x Hx) as [Hn (r & Hr%list_elem_of_singleton & Hp)].
        subst r. split; [done|]. exists p. split; [left|done].
      * destruct (Hin2 x Hx) as [Hn (r & Hr & Hp)]. split.
        -- intros HV. apply Hn. apply elem_of_union. by left.
        -- exists r. split; [by right|done].
    + intros r [->|Hr]%elem_of_cons.
      * destruct (Hr1 p) as [?|?]; [left|by left|].
        right. apply elem_of_app. by left.
      * destruct (Hr2 r Hr) as [[?|?%elem_of_list_to_set]%elem_of_union|?].
        -- by left.
        -- right. apply elem_of_app. by left.
        -- right. apply elem_of_app. by right.
    + intros x q [Hx|Hx]%elem_of_app Hq.
      * destruct (Hc1 x q Hx Hq) as [?|?]; [by left|].
        right. apply elem_of_app. by left.
      * destruct (Hc2 x q Hx Hq)
          as [[?|?%elem_of_list_to_set]%elem_of_union|?].
        -- by left.
        -- right. apply elem_of_app. by left.
        -- right. apply elem_of_app. by right.
Qed.

Lemma walk_spec h fuel :
  graph_ok h →
  ∀ node V N, node < fuel → is_Some (h !! node) →
    walk_post h [node] V N (walk fuel h node (V, N)).
Proof.
  intros Hok. induction fuel as [|fuel IH]; intros node V N Hlt [n Hn]; [lia|].
  simpl. rewrite Hn. case_bool_decide as HV.
  - exists []. simpl. rewrite union_empty_r_L, app_nil_r.
    split_and!; [done|constructor|by intros ? ?%elem_of_nil
                | |by intros ? ? ?%elem_of_nil].
    intros r ->%list_elem_of_singleton. by left.
  - assert (Hps : ∀ p, p ∈ _parents n → p < node ∧ is_Some (h !! p)).
    { intros p Hp. apply (Hok node p). unfold parents_of. by rewrite Hn. }
    destruct (visit_each_walk h (walk fuel h) (_parents n)) with
      (V := {[node]} ∪ V) (N := N ++ [node])
      as (N1 & -> & Hnd & Hin & Hr & Hc).
    { intros p V' N' Hp. destruct (Hps p Hp). apply IH; [lia|done]. }
    exists (node :: N1). split_and!.
    + f_equal. f_equal; [|by rewrite <- app_assoc].
      rewrite list_to_set_cons. by rewrite (assoc_L (∪)), (comm_L (∪) V).
    + constructor; [|done]. intros Hx. destruct (Hin node Hx) as [Hn' _].
      apply Hn'. apply elem_of_union. left. by apply elem_of_singleton.
    + intros x [->|Hx]%elem_of_cons.
      * split; [done|]. exists node. split; [left|apply reaches_self].
      * destruct (Hin x Hx) as [Hn' (r & Hr' & Hp)]. split.
        -- intros HV'. apply Hn'. apply elem_of_union. by right.
        -- exists node. split; [left|].
           eapply reaches_parent; [|exact Hp]. unfold parents_of. by rewrite Hn.
    + intros r ->%list_elem_of_singleton. right. left.
    + intros x p [->|Hx]%elem_of_cons Hp.
      * unfold parents_of in Hp. rewrite Hn in Hp. simpl in Hp.
        destruct (Hr p Hp) as [[?%elem_of_singleton|?]%elem_of_union|?].
        -- subst p. right. left.
        -- by left.
        -- right. by right.
      * destruct (Hc x p Hx Hp) as [[?%elem_of_singleton|?]%elem_of_union|?].
        -- subst p. right. left.
        -- by left.
        -- right. by right.
Qed.

Lemma walk_run st t :
  graph_ok (heap st) → ids_ok st → live st t →
  ∃ N, walk (_id_counter st) (heap st) t (∅, []) = Ok (list_to_set N, N)
    ∧ NoDup N ∧ ∀ x, x ∈ N ↔ reaches (heap st) t x.
Proof.
  intros Hok Hids [n Hn].
  destruct (walk_spec (heap st) (_id_counter st) Hok t ∅ [])
    as (N & Hrun & Hnd & Hin & Hr & Hc).
  { by apply (Hids t n). }
  { by exists n. }
  exists N. rewrite Hrun, union_empty_l_L. split_and!; [done|done|].
  intros x. split.
  - intros Hx. destruct (Hin x Hx) as [_ (r & ->%list_elem_of_singleton & Hp)].
    done.
  - intros Hp. induction Hp as [|x p _ IH Hp].
    + destruct (Hr t) as [?%elem_of_empty|?]; [left|done|done].
    + destruct (Hc x p IH Hp) as [?%elem_of_empty|?]; done.
Qed.

Lemma sim_visit_each {B} (step : B → nat → B) (Inv : B → Prop)
    (w : nat → gset nat * list nat → Result (gset nat * list nat))
    (c : nat → gset nat * B → Result (gset nat * B)) ps :
  (∀ X x, Inv X → Inv (step X x)) →
  (∀ p V N V' N' X, p ∈ ps → Inv X → w p (V, N) = Ok (V', N') →
     ∃ N'', N' = N ++ N'' ∧ c p (V, X) = Ok (V', foldl step X N'')) →
  ∀ V N V' N' X, Inv X → visit_each w ps (V, N) = Ok (V', N') →
    ∃ N'', N' = N ++ N'' ∧ visit_each c ps (V, X) = Ok (V', foldl step X N'').
Proof.
  intros Hinv. induction ps as [|p ps IH]; intros Hsim V N V' N' X HX Hrun.
  - simpl in *. exists []. rewrite app_nil_r. simpl.
    injection Hrun as <- <-. done.
  - simpl in *. destruct (w p (V, N)) as [[V1 N1]|e] eqn:Hw; [|done].
    destruct (Hsim p V N V1 N1 X) as (Na & -> & ->); [left|done|done|].
    destruct (IH (λ q V N V' N' X Hq, Hsim q V N V' N' X
                    (list_elem_of_further _ _ _ Hq))
                V1 (N ++ Na) V' N' (foldl step X Na))
      as (Nb & -> & ->); [|done|].
    { clear -Hinv HX. revert X HX. induction Na; simpl; auto. }
    exists (Na ++ Nb). by rewrite foldl_app, app_assoc.
Qed.

Lemma collect_walk h fuel :
  ∀ node V N V' N' P, walk fuel h node (V, N) = Ok (V', N') →
    ∃ N'', N' = N ++ N''
      ∧ collect_params fuel h node (V, P) = Ok (V', foldl (add_param h) P N'').
Proof.
  induction fuel as [|fuel IH]; intros node V N V' N' P Hrun; [done|].
  simpl in *. destruct (h !! node) as [n|] eqn:Hn; [|done].
  case_bool_decide as HV.
  - exists []. rewrite app_nil_r. simpl. injection Hrun as <- <-. done.
  - destruct (sim_visit_each (add_param h) (λ _, True) (walk fuel h)
                (collect_params fuel h) (_parents n)) with
      (V := {[node]} ∪ V) (N := N ++ [node]) (V' := V') (N' := N')
      (X := add_param h P node) as (N2 & -> & Hc); [done| |done|done|].
    { intros p V0 N0 V1 N1 X _ _. apply IH. }
    exists (node :: N2). rewrite <- app_assoc. split; [done|].
    simpl. rewrite <- Hc. f_equal. f_equal.
    unfold add_param, type_of. rewrite Hn. simpl.
    repeat case_decide; congruence.
Qed.

Lemma add_count_keys h counts x : all_keys counts → all_keys (add_count h counts x).
Proof.
  intros Hk k. unfold add_count. destruct (type_of h x) as [k'|]; [|done].
  destruct (decide (k' = k)) as [->|Hne].
  - rewrite lookup_insert_eq. by eexists.
  - by rewrite lookup_insert_ne.
Qed.

Lemma count_walk h fuel :
  ∀ node V N V' N' C, all_keys C → walk fuel h node (V, N) = Ok (V', N') →
    ∃ N'', N' = N ++ N''
      ∧ count_nodes fuel h node (V, C) = Ok (V', foldl (add_count h) C N'').
Proof.
  induction fuel as [|fuel IH]; intros node V N V' N' C HC Hrun; [done|].
  simpl in *. destruct (h !! node) as [n|] eqn:Hn; [|done].
  case_bool_decide as HV.
  - exists []. rewrite app_nil_r. simpl. injection Hrun as <- <-. done.
  - destruct (sim_visit_each (add_count h) all_keys (walk fuel h)
                (count_nodes fuel h) (_parents n)) with
      (V := {[node]} ∪ V) (N := N ++ [node]) (V' := V') (N' := N')
      (X := add_count h C node) as (N2 & -> & Hc);
      [apply add_count_keys| |by apply add_count_keys|done|].
    { intros p V0 N0 V1 N1 X _. apply IH. }
    exists (node :: N2). rewrite <- app_assoc. split; [done|].
    simpl. rewrite <- Hc. unfold increment.
    destruct (HC (_tensor_type n)) as [c Hcn]. rewrite Hcn.
    f_equal. f_equal. unfold add_count, type_of. rewrite Hn. simpl.
    by rewrite Hcn.
Qed.

Lemma foldl_add_param h N : ∀ P,
  foldl (add_param h) P N = P ++ filter (λ x, type_of h x = Some PARAMETER) N.
Proof.
  induction N as [|x N IH]; intros P; simpl; [by rewrite app_nil_r|].
  rewrite IH. unfold add_param. rewrite filter_cons.
  case_decide; [by rewrite <- app_assoc|done].
Qed.

Lemma foldl_add_count h N k : ∀ C c,
  C !! k = Some c →
  foldl (add_count h) C N !! k
  = Some (c + length (filter (λ x, type_of h x = Some k) N)).
Proof.
  induction N as [|x N IH]; intros C c HC; simpl.
  - rewrite HC. f_equal. lia.
  - rewrite filter_cons. unfold add_count at 2.
    destruct (type_of h x) as [k'|] eqn:Hx.
    + destruct (decide (k' = k)) as [->|Hne].
      * rewrite (IH _ (c + 1)); [|by rewrite lookup_insert_eq, HC].
        rewrite decide_True by done. simpl. f_equal. lia.
      * rewrite (IH _ c); [|by rewrite lookup_insert_ne].
        rewrite decide_False by congruence. done.
    + rewrite (IH _ c HC). by rewrite decide_False.
Qed.

Lemma no_counts_lookup k : no_counts !! k = Some 0.
Proof.
  unfold no_counts. destruct k.
  - by rewrite lookup_insert_eq.
  - rewrite lookup_insert_ne by done. by rewrite lookup_insert_eq.
  - rewrite !lookup_insert_ne by done. by rewrite lookup_singleton_eq.
Qed.

(** Both traversals visit the same tensors [N], those reached from
    [t], each once, and leave the store alone. *)
Lemma traversals_run st t :
  wf st → live st t →
  ∃ N, NoDup N ∧ (∀ x, x ∈ N ↔ reaches (heap st) t x)
    ∧ get_parameters t st
      = (Ok (filter (λ x, type_of (heap st) x = Some PARAMETER) N), st)
    ∧ ∃ counts, count_by_type t st = (Ok counts, st)
        ∧ ∀ k, counts !! k
               = Some (length (filter (λ x, type_of (heap st) x = Some k) N)).
Proof.
  intros Hwf Ht.
  destruct (walk_run st t) as (N & Hrun & Hnd & Hin);
    [apply Hwf|apply Hwf|done|].
  exists N. split_and!; [done|done| |].
  - unfold get_parameters.
    destruct (collect_walk _ _ _ _ _ _ _ [] Hrun) as (N' & HN & ->).
    simpl in HN. subst N'. simpl. by rewrite foldl_add_param.
  - unfold count_by_type. fold no_counts.
    destruct (count_walk _ _ _ _ _ _ _ no_counts
                (λ k, ex_intro _ 0 (no_counts_lookup k)) Hrun)
      as (N' & HN & ->).
    simpl in HN. subst N'. eexists. split; [done|]. intros k. simpl.
    by rewrite (foldl_add_count _ _ _ _ 0 (no_counts_lookup k)).
Qed.

Lemma reaches_live st t x : wf st → live st t → reaches (heap st) t x → live st x.
Proof.
  intros Hwf Ht Hx. induction Hx as [|x p _ _ Hp]; [done|].
  by destruct (wf_graph st Hwf x p Hp).
Qed.

Lemma length_by_type h (N : list nat) :
  (∀ x, x ∈ N → is_Some (h !! x)) →
  length N
  = length (filter (λ x, type_of h x = Some INPUT) N)
    + length (filter (λ x, type_of h x = Some PARAMETER) N)
    + length (filter (λ x, type_of h x = Some INTERMEDIATE) N).
Proof.
  induction N as [|x N IH]; intros Hl; [done|].
  rewrite !filter_cons. cbn [length]. rewrite IH.
  2:{ intros y Hy. apply Hl. by right. }
  destruct (Hl x) as [t Ht]; [left|].
  assert (Hx : type_of h x = Some (_tensor_type t)).
  { unfold type_of. by rewrite Ht. }
  rewrite !Hx. destruct (_tensor_type t);
    repeat (rewrite decide_True by done || rewrite decide_False by done);
    simpl; lia.
Qed.

(** X1: [get_parameters(t)] returns, without changing the store, a list
    without repetition whose members are exactly the tensors of type
    [PARAMETER] reached from [t] along [_parents] ([t] included), whether
    or not the tensors on the way require gradients. *)
Theorem get_parameters_reachable st t :
  wf st → live st t →
  ∃ ps, get_parameters t st = (Ok ps, st) ∧ NoDup ps
    ∧ ∀ x, x ∈ ps ↔ reaches (heap st) t x
                    ∧ type_of (heap st) x = Some PARAMETER.
Proof.
  intros Hwf Ht. destruct (traversals_run st t Hwf Ht) as (N & Hnd & Hin & -> & _).
  eexists. split_and!; [done|by apply NoDup_filter|].
  intros x. rewrite list_elem_of_filter, Hin. tauto.
Qed.

(** X2: [count_by_type(t)] returns, without changing the store, a
    dictionary that has an entry for each of the three types, and the
    entry of a type is the number of distinct tensors of that type
    reached from [t] along [_parents]. *)
Theorem count_by_type_counts st t :
  wf st → live st t →
  ∃ counts, count_by_type t st = (Ok counts, st)
    ∧ ∀ k, ∃ l, counts !! k = Some (length l) ∧ NoDup l
        ∧ ∀ x, x ∈ l ↔ reaches (heap st) t x ∧ type_of (heap st) x = Some k.
Proof.
  intros Hwf Ht.
  destruct (traversals_run st t Hwf Ht) as (N & Hnd & Hin & _ & counts & -> & Hc).
  exists counts. split; [done|]. intros k.
  exists (filter (λ x, type_of (heap st) x = Some k) N).
  split_and!; [done|by apply NoDup_filter|].
  intros x. rewrite list_elem_of_filter, Hin. tauto.
Qed.

(** X3: the two traversals agree: the [PARAMETER] entry of
    [count_by_type(t)] is the length of [get_parameters(t)], and the
    three entries add up to the number of distinct tensors reached from
    [t]. *)
Theorem count_by_type_total st t :
  wf st → live st t →
  ∃ ps counts all i p m,
    get_parameters t st = (Ok ps, st)
    ∧ count_by_type t st = (Ok counts, st)
    ∧ counts !! INPUT = Some i ∧ counts !! PARAMETER = Some p
    ∧ counts !! INTERMEDIATE = Some m
    ∧ p = length ps
    ∧ NoDup all ∧ (∀ x, x ∈ all ↔ reaches (heap st) t x)
    ∧ i + p + m = length all.
Proof.
  intros Hwf Ht.
  destruct (traversals_run st t Hwf Ht) as (N & Hnd & Hin & -> & counts & -> & Hc).
  do 2 eexists. exists N. do 3 eexists.
  split_and!; [done|done|apply Hc|apply Hc|apply Hc|done|done|done|].
  symmetry. apply length_by_type. intros x Hx.
  apply (reaches_live st t x Hwf Ht). by apply Hin.
Qed.

End Traversals.

(** * What the calls keep *)
Section Slots.
Context `{np : NumPy}.
Variable grad_call : GradFn → gmap nat Tensor → nat → ndarray → list ndarray.

(** What a call does to the store: it installs a leaf or a node, marks
    a transpose stale, changes gradients only, or reclaims and changes
    gradients only. *)
Lemma exec_cases c st :
  wf st → valid st c →
  let st' := (exec grad_call c st).2 in
  (∃ d ty, st' = installed (leaf d ty st) st)
  ∨ (∃ d f ps ex, (∀ p, p ∈ ps → live st p)
       ∧ st' = installed (new_node d f ps ex st) st)
  ∨ (∃ self, live st self ∧ st' = marked self st)
  ∨ same_skeleton st st'
  ∨ same_skeleton (sweep st) st'.
Proof.
  intros Hwf Hv.
  assert (Hb : ∀ res, builds st res →
            (∃ d f ps ex, (∀ p, p ∈ ps → live st p)
               ∧ res.2 = installed (new_node d f ps ex st) st)
            ∨ same_skeleton st res.2).
  { intros res [[e ->]|(d & f & ps & ex & Hf & Hps & ->)].
    - right. apply same_skeleton_refl.
    - left. by exists d, f, ps, ex. }
  destruct c; cbn [exec valid] in *; rewrite ?bind_ret_state.
  - left. rewrite Tensor_init_run. by eexists _, _.
  - right. left. rewrite create_node_run. destruct Hv. by eexists _, _, _, _.
  - destruct Hv as [t Ht]. rewrite (T_run self st t Ht). case_bool_decide.
    + right. right. left. exists self. split; [by exists t|].
      by destruct (_parents t).
    + right. left. eexists _, _, _, _. split; [|done].
      intros p Hp%list_elem_of_singleton. subst p. by exists t.
  - destruct Hv. destruct (Hb _ (binop_builds op self other st ltac:(done) ltac:(done)));
      tauto.
  - destruct (Hb _ (neg_builds self st Hv)); tauto.
  - destruct (Hb _ (reshape_builds self new_shape st Hv)); tauto.
  - do 3 right. left. apply update_grad_skeleton.
  - do 4 right. destruct (clear_stale_tensors_run st Hwf) as [-> ?].
    apply same_skeleton_refl.
  - do 4 right. by apply backward_skeleton.
Qed.

Lemma fixed_slots_children l t : fixed_slots (with_children l t) = fixed_slots t.
Proof. done. Qed.

Lemma skeleton_old st st' r t :
  same_skeleton st st' → heap st !! r = Some t →
  ∃ t', heap st' !! r = Some t' ∧ fixed_slots t' = fixed_slots t
        ∧ _parents t' = _parents t.
Proof.
  intros (_ & _ & Hh) Ht. specialize (Hh r). rewrite Ht in Hh.
  destruct (heap st' !! r) as [t'|]; [|done]. simpl in Hh.
  exists t'. split; [done|]. unfold fixed_slots.
  assert (H : with_grad None t' = with_grad None t) by congruence.
  split.
  - pose proof (f_equal _data H). pose proof (f_equal _shape H).
    pose proof (f_equal _id H). pose proof (f_equal _grad_fn H).
    pose proof (f_equal _extra H). pose proof (f_equal _version H).
    pose proof (f_equal _tensor_type H). pose proof (f_equal _requires_grad H).
    simpl in *. congruence.
  - apply (f_equal _parents H).
Qed.

Lemma skeleton_new st st' r :
  same_skeleton st st' → heap st !! r = None → heap st' !! r = None.
Proof.
  intros (_ & _ & Hh) Ht. specialize (Hh r). rewrite Ht in Hh.
  by destruct (heap st' !! r).
Qed.

Lemma sweep_old st r t :
  heap st !! r = Some t →
  ∃ t', heap (sweep st) !! r = Some t' ∧ fixed_slots t' = fixed_slots t
        ∧ _parents t' ⊆ _parents t.
Proof.
  intros Ht. unfold sweep, unlink. simpl. rewrite lookup_fmap, Ht. simpl.
  eexists. split; [done|]. split; [done|]. simpl.
  intros p Hp%list_elem_of_filter. tauto.
Qed.

Lemma sweep_new st r : heap st !! r = None → heap (sweep st) !! r = None.
Proof. intros Ht. unfold sweep, unlink. simpl. by rewrite lookup_fmap, Ht. Qed.

Lemma marked_old self st r t :
  heap st !! r = Some t →
  ∃ t', heap (marked self st) !! r = Some t' ∧ fixed_slots t' = fixed_slots t
        ∧ _parents t' = _parents t.
Proof.
  intros Ht. unfold marked, update. simpl.
  destruct (decide (self = r)) as [->|Hne].
  - rewrite lookup_alter_eq, Ht. simpl. by eexists.
  - rewrite lookup_alter_ne, Ht by done. by eexists.
Qed.

Lemma marked_new self st r :
  heap st !! r = None → heap (marked self st) !! r = None.
Proof.
  intros Ht. unfold marked, update. simpl.
  destruct (decide (self = r)) as [->|Hne].
  - by rewrite lookup_alter_eq, Ht.
  - by rewrite lookup_alter_ne.
Qed.

Lemma installed_old tn st r t :
  ids_ok st → heap st !! r = Some t →
  ∃ t', heap (installed tn st) !! r = Some t' ∧ fixed_slots t' = fixed_slots t
        ∧ _parents t' = _parents t.
Proof.
  intros Hids Ht.
  rewrite installed_lookup_old, Ht.
  - simpl. by eexists.
  - apply live_not_fresh; [done|by exists t].
Qed.

Lemma installed_new tn st r t :
  ids_ok st → (∀ p, p ∈ _parents tn → live st p) →
  heap st !! r = None → heap (installed tn st) !! r = Some t →
  r = _id_counter st ∧ t = tn.
Proof.
  intros Hids Hps Hr Ht. destruct (decide (r = _id_counter st)) as [->|Hne].
  - rewrite installed_lookup_new in Ht by done. split; congruence.
  - rewrite installed_lookup_old, Hr in Ht by done. done.
Qed.

Lemma exec_old c st r t :
  wf st → valid st c → heap st !! r = Some t →
  ∃ t', heap (exec grad_call c st).2 !! r = Some t'
        ∧ fixed_slots t' = fixed_slots t ∧ _parents t' ⊆ _parents t.
Proof.
  intros Hwf Hv Ht.
  destruct (exec_cases c st Hwf Hv)
    as [(d & ty & ->)|[(d & f & ps & ex & Hps & ->)|[(self & _ & ->)|[Hsk|Hsk]]]].
  - destruct (installed_old (leaf d ty st) st r t) as (t' & ? & ? & Hp);
      [apply Hwf|done|]. exists t'. by rewrite Hp.
  - destruct (installed_old (new_node d f ps ex st) st r t) as (t' & ? & ? & Hp);
      [apply Hwf|done|]. exists t'. by rewrite Hp.
  - destruct (marked_old self st r t Ht) as (t' & ? & ? & Hp).
    exists t'. by rewrite Hp.
  - destruct (skeleton_old _ _ r t Hsk Ht) as (t' & ? & ? & Hp).
    exists t'. by rewrite Hp.
  - destruct (sweep_old st r t Ht) as (t1 & Ht1 & Hf1 & Hp1).
    destruct (skeleton_old _ _ r t1 Hsk Ht1) as (t' & ? & ? & Hp).
    exists t'. split; [done|]. split; [congruence|]. by rewrite Hp.
Qed.

Lemma exec_new c st r tn :
  wf st → valid st c → heap st !! r = None →
  heap (exec grad_call c st).2 !! r = Some tn →
  r = _id_counter st
  ∧ ((∃ d ty, tn = leaf d ty st)
     ∨ ∃ d f ps ex, (∀ p, p ∈ ps → live st p) ∧ tn = new_node d f ps ex st).
Proof.
  intros Hwf Hv Hr Ht.
  destruct (exec_cases c st Hwf Hv)
    as [(d & ty & Hst)|[(d & f & ps & ex & Hps & Hst)|[(self & _ & Hst)|[Hsk|Hsk]]]].
  - rewrite Hst in Ht.
    destruct (installed_new (leaf d ty st) st r tn (wf_ids st Hwf))
      as [-> ->]; [by intros ? ?%elem_of_nil|done|done|].
    split; [done|]. left. by eexists _, _.
  - rewrite Hst in Ht.
    destruct (installed_new (new_node d f ps ex st) st r tn (wf_ids st Hwf))
      as [-> ->]; [done|done|done|].
    split; [done|]. right. by eexists _, _, _, _.
  - rewrite Hst, marked_new in Ht; done.
  - rewrite (skeleton_new _ _ r Hsk Hr) in Ht. done.
  - rewrite (skeleton_new _ _ r Hsk (sweep_new st r Hr)) in Ht. done.
Qed.

Lemma exec_sound c st :
  wf st → valid st c → sound st → sound (exec grad_call c st).2.
Proof.
  intros Hwf Hv Hs r t' Ht'.
  assert (Hreq : ∀ p, live st p →
            requires_grad_of (heap (exec grad_call c st).2) p = true →
            requires_grad_of (heap st) p = true).
  { intros p Hp. by rewrite exec_requires_grad. }
  destruct (heap st !! r) as [t|] eqn:Ht.
  - destruct (exec_old c st r t Hwf Hv Ht) as (t1 & Ht1 & Hf & Hsub).
    assert (t1 = t') as -> by congruence.
    destruct (Hs r t Ht) as (Hid & Hsh & Hver & Hpar & Hin & Hleaf & Hmono).
    unfold fixed_slots in Hf.
    assert (_data t' = _data t ∧ _shape t' = _shape t ∧ _id t' = _id t
            ∧ _grad_fn t' = _grad_fn t ∧ _version t' = _version t
            ∧ _tensor_type t' = _tensor_type t
            ∧ _requires_grad t' = _requires_grad t)
      as (Hd & Hs' & Hi & Hg & Hv' & Hty & Hrq).
    { split_and!; congruence. }
    unfold consistent. split_and!.
    + congruence.
    + congruence.
    + congruence.
    + intros Hp. rewrite Hrq. apply Hpar. congruence.
    + intros Hp. rewrite Hrq. apply Hin. congruence.
    + intros Hne. destruct Hleaf as [Hp Hgf]; [congruence|]. split; [|congruence].
      destruct (_parents t') as [|p ps]; [done|].
      assert (p ∈ _parents t) as Hin' by (apply Hsub; left).
      rewrite Hp in Hin'. by apply elem_of_nil in Hin'.
    + intros p Hp Hrp. rewrite Hrq. apply (Hmono p); [by apply Hsub|].
      apply Hreq; [|done].
      apply (wf_graph st Hwf r p). unfold parents_of. rewrite Ht. simpl.
      by apply Hsub.
  - destruct (exec_new c st r t' Hwf Hv Ht Ht')
      as [-> [(d & ty & ->)|(d & f & ps & ex & Hps & ->)]].
    + unfold consistent, leaf. simpl. split_and!; try done.
      * intros ->. by apply bool_decide_eq_true_2.
      * intros ->. by apply bool_decide_eq_false_2.
      * by intros ? ?%elem_of_nil.
    + unfold consistent. rewrite new_node_requires_grad by (done || apply Hwf).
      simpl. split_and!; try done.
      intros p Hp Hrp. apply existsb_exists. exists p. split.
      * by apply list_elem_of_In.
      * apply Hreq; [by apply Hps|done].
Qed.

Lemma reachable_sound st : reachable grad_call st → sound st.
Proof.
  unfold reachable. intros Hr.
  eapply (rtc_ind_r (λ st, wf st ∧ sound st)); [| |exact Hr].
  - split; [apply empty_wf|]. intros r t Ht. unfold empty_state in Ht. simpl in Ht.
    by rewrite lookup_empty in Ht.
  - intros y z _ (c & Hv & <-) [Hwf Hs]. split.
    + by apply exec_wf.
    + by apply exec_sound.
Qed.

(** X4: no call of the interface assigns the data, shape, id, gradient
    function, extra dictionary, version or type of a tensor that exists:
    whatever the call, and whether it returns or raises, the tensor is
    still there with these slots as they were. *)
Theorem exec_keeps_fixed_slots c st r t :
  wf st → valid st c → heap st !! r = Some t →
  ∃ t', heap (exec grad_call c st).2 !! r = Some t'
    ∧ _data t' = _data t ∧ _shape t' = _shape t ∧ _id t' = _id t
    ∧ _grad_fn t' = _grad_fn t ∧ _extra t' = _extra t
    ∧ _version t' = _version t ∧ _tensor_type t' = _tensor_type t.
Proof.
  intros Hwf Hv Ht.
  destruct (exec_old c st r t Hwf Hv Ht) as (t' & Ht' & Hf & _).
  exists t'. unfold fixed_slots in Hf. split_and!; congruence.
Qed.

(** X5: in every store the interface can build, a tensor's [_id] is
    its identity, its [_shape] is the shape of its [_data], a
    [PARAMETER] requires gradients and an [INPUT] does not, a tensor that
    is not [INTERMEDIATE] is a leaf (no parents, no gradient function,
    never stale), and a tensor with a parent that requires gradients
    requires them too. *)
Theorem reachable_consistent st r t :
  reachable grad_call st → heap st !! r = Some t →
  _id t = r
  ∧ _shape t = np_shape (_data t)
  ∧ (_tensor_type t = PARAMETER → _requires_grad t = true)
  ∧ (_tensor_type t = INPUT → _requires_grad t = false)
  ∧ (_tensor_type t ≠ INTERMEDIATE →
       _parents t = [] ∧ _grad_fn t = None ∧ _stale t = false)
  ∧ (∀ p, p ∈ _parents t → requires_grad_of (heap st) p = true →
       _requires_grad t = true).
Proof.
  intros Hr Ht.
  destruct (reachable_sound st Hr r t Ht) as (Hid & Hsh & _ & Hp & Hi & Hl & Hm).
  split_and!; try done.
  intros Hne. destruct (Hl Hne) as [Hps Hgf]. split_and!; [done|done|].
  destruct (_stale t) eqn:Hst; [|done].
  pose proof (wf_stale st (reachable_wf grad_call st Hr) r) as Hs.
  unfold stale_of, grad_fn_of in Hs. rewrite Ht in Hs. simpl in Hs.
  specialize (Hs Hst). congruence.
Qed.

(** X6: in every store the interface can build, ids are below the
    counter, every parent is live and older than its child (so the graph
    has no cycle), children are live, the registry lists live tensors
    without repetition, a registered tensor is listed as a child by each
    of its parents, only stale tensors are missing from the registry,
    only transposes are stale, and a transpose has exactly one parent,
    which is not itself a transpose. *)
Theorem reachable_graph st :
  reachable grad_call st →
  (∀ r, live st r → r < _id_counter st)
  ∧ (∀ r p, p ∈ parents_of (heap st) r → p < r ∧ live st p)
  ∧ (∀ r c, c ∈ children_of (heap st) r → live st c)
  ∧ NoDup (_global_tensor_registry st)
  ∧ (∀ r, r ∈ _global_tensor_registry st → live st r)
  ∧ (∀ c p, c ∈ _global_tensor_registry st → p ∈ parents_of (heap st) c →
       c ∈ children_of (heap st) p)
  ∧ (∀ r, live st r → r ∉ _global_tensor_registry st →
       stale_of (heap st) r = true)
  ∧ (∀ r, stale_of (heap st) r = true →
       grad_fn_of (heap st) r = Some transpose_backward)
  ∧ (∀ r, grad_fn_of (heap st) r = Some transpose_backward →
       ∃ p, parents_of (heap st) r = [p]
            ∧ grad_fn_of (heap st) p ≠ Some transpose_backward).
Proof.
  intros Hr. pose proof (reachable_wf grad_call st Hr) as Hwf.
  split_and!.
  - intros r [t Ht]. by destruct (wf_ids st Hwf r t Ht).
  - intros r p Hp. by apply (wf_graph st Hwf).
  - apply (wf_children st Hwf).
  - apply (wf_registry_nodup st Hwf).
  - apply (wf_registry st Hwf).
  - apply (wf_linked st Hwf).
  - apply (wf_unregistered st Hwf).
  - apply (wf_stale st Hwf).
  - apply (wf_transpose st Hwf).
Qed.

End Slots.

(** * Where the gradients go *)
Section Gradients.
Context `{np : NumPy}.
Variable grad_call : GradFn → gmap nat Tensor → nat → ndarray → list ndarray.

Lemma grad_after_outside self kg node h x :
  x ≠ node → (x ∈ parents_of h node → requires_grad_of h x = false) →
  grad_after grad_call self kg node h x = grad_of h x.
Proof.
  intros Hne Hx. unfold grad_after.
  destruct (grad_fn_of h node); [|done]. destruct (grad_of h node); [|done].
  rewrite bool_decide_eq_false_2 by done. simpl.
  destruct (requires_grad_of h x) eqn:Hr; [|done].
  rewrite contributions_nil; [done|]. intros Hin. by specialize (Hx Hin).
Qed.

Lemma run_pass_frame self kg g st :
  wf st → live st self → requires_grad_of (heap st) self = true →
  ∃ st', run_pass grad_call self kg g st = (Ok tt, st')
    ∧ ∀ x, ¬ grad_path (heap st) self x →
           grad_of (heap st') x = grad_of (heap st) x.
Proof.
  intros Hwf Hl Hreq.
  destruct (topo_order_members st self Hwf Hl) as (_ & _ & Hmem).
  destruct (run_pass_ind grad_call self kg g st
              (λ s, ∀ x, ¬ grad_path (heap st) self x →
                         grad_of (heap s) x = grad_of (heap st) x))
    as (st' & Hrun & _ & HI); [done|done| | |by exists st'].
  - intros x Hx. rewrite seeded_grad by done. rewrite decide_False; [done|].
    intros ->. apply Hx. by apply grad_path_self.
  - intros node sta stb Hn%Hmem Hska HI Hskb Hg x Hx.
    rewrite Hg, <- (HI x Hx). apply grad_after_outside.
    + intros ->. done.
    + intros Hp. rewrite (skeleton_parents _ _ Hska) in Hp.
      rewrite (skeleton_requires_grad _ _ Hska).
      destruct (requires_grad_of (heap st) x) eqn:Hr; [|done].
      exfalso. apply Hx. by eapply grad_path_step.
Qed.

Lemma sweep_live st r : live (sweep st) r ↔ live st r.
Proof. unfold sweep. apply unlink_live. Qed.

Lemma sweep_grad st r : grad_of (heap (sweep st)) r = grad_of (heap st) r.
Proof. unfold sweep. apply unlink_grad. Qed.

Lemma sweep_requires_grad st r :
  requires_grad_of (heap (sweep st)) r = requires_grad_of (heap st) r.
Proof. unfold sweep. apply unlink_requires_grad. Qed.

(** [backward] leaves the gradient of every tensor outside its order as
    it was, whether it returns or raises. *)
Lemma backward_outside st self gradient kg res st' :
  wf st → live st self →
  backward grad_call self gradient kg st = (res, st') →
  ∀ x, ¬ grad_path (heap (sweep st)) self x →
       grad_of (heap st') x = grad_of (heap st) x.
Proof.
  intros Hwf [t Ht] Hrun.
  destruct (clear_stale_tensors_run st Hwf) as [_ Hwf'].
  assert (Hl : live (sweep st) self) by (apply sweep_live; by exists t).
  rewrite (backward_unfold _ _ _ _ _ t Hwf Ht) in Hrun.
  assert (Hraise : ∀ e x, (Raise e, sweep st) = (res, st') →
            grad_of (heap st') x = grad_of (heap st) x).
  { intros e x [= _ <-]. apply sweep_grad. }
  assert (Hpass : ∀ g x, _requires_grad t = true →
            run_pass grad_call self kg g (sweep st) = (res, st') →
            ¬ grad_path (heap (sweep st)) self x →
            grad_of (heap st') x = grad_of (heap st) x).
  { intros g x Hreq Hp Hx.
    destruct (run_pass_frame self kg g (sweep st) Hwf' Hl) as (s & Hs & Hfr).
    - rewrite sweep_requires_grad. unfold requires_grad_of. by rewrite Ht.
    - rewrite Hs in Hp. injection Hp as _ <-.
      rewrite (Hfr x Hx). apply sweep_grad. }
  intros x Hx. destruct (_requires_grad t) eqn:Hreq; simpl in Hrun;
    [|by eapply Hraise].
  destruct gradient as [g0|]; [by eapply Hpass|].
  case_bool_decide; [by eapply Hraise|by eapply Hpass].
Qed.

(** X7: whether it returns or raises, [backward] leaves alone the
    gradient of every tensor that is not reached from the output through
    tensors requiring gradients, and so of every tensor that does not
    require gradients. *)
Theorem backward_frame st self gradient kg res st' :
  wf st → live st self →
  backward grad_call self gradient kg st = (res, st') →
  (∀ x, ¬ grad_path (heap (sweep st)) self x →
     grad_of (heap st') x = grad_of (heap st) x)
  ∧ (∀ x, requires_grad_of (heap st) x = false →
       grad_of (heap st') x = grad_of (heap st) x).
Proof.
  intros Hwf Hl Hrun.
  pose proof (backward_outside st self gradient kg res st' Hwf Hl Hrun) as Hout.
  split; [done|].
  intros x Hreq. apply Hout. intros Hp%grad_path_end.
  rewrite sweep_requires_grad in Hp. congruence.
Qed.

Lemma grad_path_inv h self y :
  grad_path h self y →
  y = self ∨ ∃ x, grad_path h self x ∧ y ∈ parents_of h x
                  ∧ requires_grad_of h y = true.
Proof. intros [|x p Hx Hp Hr]; [by left|]. right. by exists x. Qed.

Lemma grad_path_le h self x : graph_ok h → grad_path h self x → x ≤ self.
Proof.
  intros Hok Hp. induction Hp as [|x p _ IH Hp _]; [done|].
  destruct (Hok x p Hp). lia.
Qed.

Lemma list_last_split (l : list nat) : l ≠ [] → ∃ l' y, l = l' ++ [y].
Proof.
  destruct l as [|a l _] using rev_ind; [done|]. intros _. by exists l, a.
Qed.

(** X8: when the output requires gradients, the order [build_topo]
    builds ends with the output, so the pass handles the output first;
    every other member was created before the output. *)
Theorem output_processed_first st self :
  wf st → live st self → requires_grad_of (heap st) self = true →
  ∃ l, topo_order st self = l ++ [self]
    ∧ rev (topo_order st self) = self :: rev l
    ∧ ∀ x, x ∈ l → x < self.
Proof.
  intros Hwf Hl Hreq.
  destruct (topo_order_members st self Hwf Hl) as (Hnd & Hsorted & Hmem).
  assert (Hself : self ∈ topo_order st self) by (by apply Hmem, grad_path_self).
  destruct (list_last_split (topo_order st self)) as (l & y & Heq).
  { intros Hnil. rewrite Hnil in Hself. by apply elem_of_nil in Hself. }
  assert (y = self) as ->.
  { assert (Hy : y ∈ topo_order st self).
    { rewrite Heq. apply elem_of_app. right. left. }
    destruct (grad_path_inv _ _ _ (proj1 (Hmem y) Hy))
      as [->|(x & Hx%Hmem & Hp & Hr)]; [done|].
    destruct (topo_sorted_before _ _ x y Hsorted Hx Hp Hr)
      as (l1 & l2 & l3 & Hb).
    rewrite Hb in Hnd. rewrite Heq in Hb.
    destruct (NoDup_split_inj l1 (l2 ++ x :: l3) l [] y Hnd) as [_ Hnil];
      [by rewrite <- Hb|].
    by destruct l2. }
  exists l. split; [done|]. split; [by rewrite Heq, rev_app_distr|].
  intros x Hx.
  assert (x ≤ self).
  { apply (grad_path_le (heap st)); [apply Hwf|]. apply Hmem. rewrite Heq.
    apply elem_of_app. by left. }
  assert (x ≠ self); [|lia].
  intros ->. rewrite Heq in Hnd. apply NoDup_app in Hnd as (_ & Hd & _).
  apply (Hd self Hx). left.
Qed.

Lemma pass_prefix L self kg st st1 (J : list nat → State → Prop) :
  wf st → same_skeleton st st1 →
  (∀ x, x ∈ L → live st x) →
  J [] st1 →
  (∀ l1 node l2 sta stb, L = l1 ++ node :: l2 → same_skeleton st sta →
     J l1 sta → same_skeleton sta stb →
     (∀ x, grad_of (heap stb) x
           = grad_after grad_call self kg node (heap sta) x) →
     J (l1 ++ [node]) stb) →
  ∀ lp ls, L = lp ++ ls →
  ∃ st', for_each lp (backward_node grad_call self kg) st1 = (Ok tt, st')
    ∧ same_skeleton st st' ∧ J lp st'.
Proof.
  intros Hwf Hsk Hlive H0 Hstep lp.
  induction lp as [|node lp IH] using rev_ind; intros ls HL.
  - by exists st1.
  - rewrite <- app_assoc in HL. simpl in HL.
    destruct (IH (node :: ls) HL) as (sta & Hrun & Hska & HJ).
    destruct (backward_node_run grad_call self kg node sta)
      as (stb & Hrunb & Hskb & Hgb).
    + eapply skeleton_graph_ok; [done|apply Hwf].
    + apply (skeleton_live _ _ Hska), Hlive. rewrite HL.
      apply elem_of_app. right. left.
    + exists stb. rewrite for_each_app, Hrun. simpl.
      unfold mbind, M_bind, bind. rewrite Hrunb. simpl.
      split; [done|]. split; [by eapply same_skeleton_trans|].
      by eapply Hstep.
Qed.

Lemma contributions_in x (ps : list nat) : ∀ gs : list ndarray,
  x ∈ ps → length ps ≤ length gs → contributions x (combine ps gs) ≠ [].
Proof.
  unfold contributions.
  induction ps as [|p ps IH]; intros gs Hx Hlen; [by apply elem_of_nil in Hx|].
  destruct gs as [|g gs]; [simpl in Hlen; lia|].
  simpl. rewrite filter_cons. simpl. case_decide as Hp; [done|].
  apply IH; [|simpl in Hlen; lia].
  apply elem_of_cons in Hx as [->|Hx]; [done|done].
Qed.

Lemma accum_nonempty old (gs : list ndarray) : gs ≠ [] → is_Some (accum old gs).
Proof.
  destruct gs as [|g gs]; [done|]. intros _. unfold accum. simpl.
  destruct old; simpl; fold (accum (Some (np_add n g)) gs) || fold (accum (Some g) gs);
    rewrite accum_Some; by eexists.
Qed.

Lemma grad_after_keeps self kg node h x :
  cleared kg self h node = false ∨ x ≠ node →
  is_Some (grad_of h x) → is_Some (grad_after grad_call self kg node h x).
Proof.
  intros Hc [g Hg].
  destruct (grad_after_accumulates grad_call self kg node h x g [] Hc Hg)
    as (gs & ->). by eexists.
Qed.

Lemma grad_after_unprocessed self kg node h x :
  grad_fn_of h node = None →
  grad_after grad_call self kg node h x = grad_of h x.
Proof. intros Hf. unfold grad_after. by rewrite Hf. Qed.

Lemma grad_after_parent self kg node h x f g :
  x ≠ node → x ∈ parents_of h node → requires_grad_of h x = true →
  grad_fn_of h node = Some f → grad_of h node = Some g →
  length (parents_of h node) ≤ length (grad_call f h node g) →
  is_Some (grad_after grad_call self kg node h x).
Proof.
  intros Hne Hx Hr Hf Hg Hlen. unfold grad_after. rewrite Hf, Hg, Hr.
  rewrite bool_decide_eq_false_2 by done. simpl.
  apply accum_nonempty. by apply contributions_in.
Qed.

Lemma cleared_skeleton st sta kg self x :
  same_skeleton st sta →
  cleared kg self (heap sta) x = cleared kg self (heap st) x.
Proof. intros Hsk. unfold cleared. by rewrite (skeleton_type _ _ Hsk). Qed.

(** The pass hands a gradient to every tensor of the order: when a
    tensor's turn comes, a child handled before it, or the seed, has
    given it one. *)
Lemma run_pass_grads self kg g st :
  wf st → live st self →
  (∀ sta n f gn, same_skeleton st sta → n ∈ topo_order st self →
     grad_fn_of (heap sta) n = Some f →
     length (grad_call f (heap sta) n gn) = length (parents_of (heap sta) n)) →
  (∀ n, n ∈ topo_order st self → parents_of (heap st) n ≠ [] →
     is_Some (grad_fn_of (heap st) n)) →
  ∃ st', run_pass grad_call self kg g st = (Ok tt, st')
    ∧ same_skeleton st st'
    ∧ ∀ x, x ∈ topo_order st self →
        cleared kg self (heap st) x = false ∨ grad_fn_of (heap st) x = None →
        is_Some (grad_of (heap st') x).
Proof.
  intros Hwf Hl Harity Hfn.
  destruct (topo_order_members st self Hwf Hl) as (Hnd & Hsorted & Hmem).
  set (order := topo_order st self) in *.
  set (L := rev order).
  assert (HL : ∀ x, x ∈ L ↔ x ∈ order).
  { intros x. unfold L. rewrite !list_elem_of_In. symmetry. apply in_rev. }
  assert (HndL : NoDup L).
  { by apply NoDup_ListNoDup, NoDup_rev, NoDup_ListNoDup. }
  set (keep x := cleared kg self (heap st) x = false
                 ∨ grad_fn_of (heap st) x = None).
  set (J (l1 : list nat) (s : State) :=
         (∀ x, x ∈ L → x ∉ l1 →
            x = self ∨ (∃ c, c ∈ l1 ∧ x ∈ parents_of (heap st) c) →
            is_Some (grad_of (heap s) x))
         ∧ (∀ x, x ∈ l1 → keep x → is_Some (grad_of (heap s) x))).
  destruct (pass_prefix L self kg st (seeded self g st) J) with (lp := L) (ls := @nil nat)
    as (st' & Hrun & Hsk & _ & Hb).
  - done.
  - apply update_grad_skeleton.
  - intros x Hx%HL%Hmem%grad_path_end. by apply requires_grad_live.
  - split.
    + intros x _ _ [->|(c & Hc%elem_of_nil & _)]; [|done].
      rewrite seeded_grad by done. rewrite decide_True by done. by eexists.
    + by intros x Hx%elem_of_nil.
  - intros l1 node l2 sta stb Hsplit Hska [Ha Hbp] Hskb Hg.
    assert (Hnode : node ∈ order).
    { apply HL. rewrite Hsplit. apply elem_of_app. right. left. }
    assert (Hnl1 : node ∉ l1).
    { intros Hin. rewrite Hsplit in HndL.
      apply NoDup_app in HndL as (_ & Hd & _). apply (Hd node Hin). left. }
    assert (Hhas : is_Some (grad_of (heap sta) node)).
    { apply Ha; [by apply HL|done|].
      destruct (grad_path_inv _ _ _ (proj1 (Hmem node) Hnode))
        as [->|(c & Hc%Hmem & Hp & Hr)]; [by left|].
      right. exists c. split; [|done].
      destruct (before_rev _ _ _ (topo_sorted_before _ _ c node Hsorted Hc Hp Hr))
        as (a & b & d & Hbef).
      fold L in Hbef.
      destruct (NoDup_split_inj (a ++ c :: b) d l1 l2 node) as [<- _].
      - rewrite <- app_assoc. simpl. by rewrite <- Hbef.
      - rewrite <- app_assoc. simpl. by rewrite <- Hbef, <- Hsplit.
      - apply elem_of_app. right. left. }
    split.
    + intros x Hx Hnx Hsrc.
      assert (x ≠ node).
      { intros ->. apply Hnx. apply elem_of_app. right. left. }
      assert (x ∉ l1).
      { intros ?. apply Hnx. apply elem_of_app. by left. }
      rewrite Hg.
      assert (Hold : x = self ∨ (∃ c, c ∈ l1 ∧ x ∈ parents_of (heap st) c) →
                is_Some (grad_after grad_call self kg node (heap sta) x)).
      { intros Hs. apply grad_after_keeps; [by right|]. by apply Ha. }
      destruct Hsrc as [->|(c & [Hc|Hc%list_elem_of_singleton]%elem_of_app & Hp)].
      * apply Hold. by left.
      * apply Hold. right. by exists c.
      * subst c.
        destruct (Hfn node Hnode) as [f Hf].
        { intros Hnil. rewrite Hnil in Hp. by apply elem_of_nil in Hp. }
        destruct Hhas as [gn Hgn].
        rewrite <- (skeleton_grad_fn _ _ Hska) in Hf.
        apply (grad_after_parent self kg node (heap sta) x f gn);
          [done| | |done|done|].
        -- by rewrite (skeleton_parents _ _ Hska).
        -- rewrite (skeleton_requires_grad _ _ Hska).
           by apply (grad_path_end _ self), Hmem, HL.
        -- by rewrite (Harity sta node f gn Hska Hnode Hf).
    + intros x [Hx|Hx%list_elem_of_singleton]%elem_of_app Hk; rewrite Hg.
      * apply grad_after_keeps; [|by apply Hbp]. right. by intros ->.
      * subst x. destruct Hk as [Hk|Hk].
        -- apply grad_after_keeps; [|done]. left.
           by rewrite (cleared_skeleton _ _ _ _ _ Hska).
        -- rewrite grad_after_unprocessed; [done|].
           by rewrite (skeleton_grad_fn _ _ Hska).
  - by rewrite app_nil_r.
  - exists st'. split; [done|]. split; [done|].
    intros x Hx Hk. apply Hb; [by apply HL|done].
Qed.

Lemma backward_grads st self gradient kg st' :
  wf st → live st self →
  (∀ sta n f gn, same_skeleton (sweep st) sta →
     n ∈ topo_order (sweep st) self → grad_fn_of (heap sta) n = Some f →
     length (grad_call f (heap sta) n gn) = length (parents_of (heap sta) n)) →
  (∀ n, n ∈ topo_order (sweep st) self →
     parents_of (heap (sweep st)) n ≠ [] → is_Some (grad_fn_of (heap st) n)) →
  backward grad_call self gradient kg st = (Ok tt, st') →
  same_skeleton (sweep st) st'
  ∧ requires_grad_of (heap (sweep st)) self = true
  ∧ ∀ x, grad_path (heap (sweep st)) self x →
      cleared kg self (heap (sweep st)) x = false →
      is_Some (grad_of (heap st') x).
Proof.
  intros Hwf [t Ht] Harity Hfn Hrun.
  destruct (clear_stale_tensors_run st Hwf) as [_ Hwf'].
  assert (Hl : live (sweep st) self) by (apply sweep_live; by exists t).
  destruct (backward_Ok_run_pass grad_call st self gradient kg t st' Hwf Ht Hrun)
    as (g & Hpass).
  destruct (run_pass_grads self kg g (sweep st) Hwf' Hl Harity)
    as (s & Hs & Hsk & Hgr).
  { intros n Hn Hp. unfold sweep. rewrite unlink_grad_fn. by apply Hfn. }
  rewrite Hs in Hpass. injection Hpass as ->.
  split; [done|]. split.
  - rewrite sweep_requires_grad. unfold requires_grad_of. rewrite Ht. simpl.
    rewrite (backward_unfold _ _ _ _ _ t Hwf Ht) in Hrun.
    by destruct (_requires_grad t).
  - intros x Hx Hc. apply Hgr; [|by left].
    by apply (topo_order_members (sweep st) self Hwf' Hl).
Qed.

(** X9: when every gradient function returns one buffer per parent
    and every tensor of the order that has parents has a gradient
    function, a call of [backward] that returns leaves a gradient on
    every tensor reached from the output through tensors requiring
    gradients, except the [INTERMEDIATE] ones it clears: on all of them
    with [keep_grads], and otherwise on the leaves and the output. *)
Theorem backward_reaches_order st self gradient kg st' :
  wf st → live st self →
  (∀ sta n f gn, same_skeleton (sweep st) sta →
     n ∈ topo_order (sweep st) self → grad_fn_of (heap sta) n = Some f →
     length (grad_call f (heap sta) n gn) = length (parents_of (heap sta) n)) →
  (∀ n, n ∈ topo_order (sweep st) self →
     parents_of (heap (sweep st)) n ≠ [] → is_Some (grad_fn_of (heap st) n)) →
  backward grad_call self gradient kg st = (Ok tt, st') →
  ∀ x, grad_path (heap (sweep st)) self x →
    kg = true ∨ type_of (heap st) x ≠ Some INTERMEDIATE ∨ x = self →
    is_Some (grad_of (heap st') x).
Proof.
  intros Hwf Hl Harity Hfn Hrun x Hx Hk.
  destruct (backward_grads st self gradient kg st' Hwf Hl Harity Hfn Hrun)
    as (_ & _ & Hgr).
  apply Hgr; [done|]. unfold cleared, sweep. rewrite unlink_type.
  destruct Hk as [ -> | [ Hty | -> ] ].
  - done.
  - rewrite (bool_decide_eq_false_2 _ Hty). by destruct kg.
  - rewrite (bool_decide_eq_false_2 (self ≠ self)) by (by intros ?).
    by rewrite andb_false_r.
Qed.

Lemma reaches_ext h h' a b :
  (∀ r, parents_of h' r = parents_of h r) → reaches h' a b → reaches h a b.
Proof.
  intros Hp Hr. induction Hr as [|x p _ IH Hx]; [apply reaches_self|].
  eapply reaches_step; [done|]. by rewrite <- Hp.
Qed.

Lemma reaches_grad_path st self x :
  sound st → requires_grad_of (heap st) self = true →
  reaches (heap st) self x → requires_grad_of (heap st) x = true →
  grad_path (heap st) self x.
Proof.
  intros Hs Hself Hr. induction Hr as [|x p _ IH Hp]; intros Hx.
  - by apply grad_path_self.
  - eapply grad_path_step; [|done|done]. apply IH.
    unfold parents_of, requires_grad_of in *.
    destruct (heap st !! x) as [t|] eqn:Ht; [|by apply elem_of_nil in Hp].
    simpl in *. destruct (Hs x t Ht) as (_ & _ & _ & _ & _ & _ & Hm).
    by apply (Hm p).
Qed.

Lemma sweep_reachable st : reachable grad_call st → reachable grad_call (sweep st).
Proof.
  intros Hr. eapply rtc_r; [exact Hr|]. exists CallClear. split; [done|].
  simpl. by destruct (clear_stale_tensors_run st (reachable_wf grad_call st Hr))
    as [-> _].
Qed.

(** X10: in a store the interface built, under the same two
    conditions, after a call of [backward] on [self] that returns every
    tensor [get_parameters(self)] lists has a gradient. *)
Theorem parameters_receive_gradients st self gradient kg st' :
  reachable grad_call st → live st self →
  (∀ sta n f gn, same_skeleton (sweep st) sta →
     n ∈ topo_order (sweep st) self → grad_fn_of (heap sta) n = Some f →
     length (grad_call f (heap sta) n gn) = length (parents_of (heap sta) n)) →
  (∀ n, n ∈ topo_order (sweep st) self →
     parents_of (heap (sweep st)) n ≠ [] → is_Some (grad_fn_of (heap st) n)) →
  backward grad_call self gradient kg st = (Ok tt, st') →
  ∃ ps, get_parameters self st' = (Ok ps, st')
    ∧ ∀ p, p ∈ ps → is_Some (grad_of (heap st') p).
Proof.
  intros Hr Hl Harity Hfn Hrun.
  pose proof (reachable_wf grad_call st Hr) as Hwf.
  destruct (clear_stale_tensors_run st Hwf) as [_ Hwf'].
  destruct (backward_grads st self gradient kg st' Hwf Hl Harity Hfn Hrun)
    as (Hsk & Hreq & Hgr).
  assert (Hwf1 : wf st') by (by eapply skeleton_wf).
  assert (Hl1 : live st' self).
  { by apply (skeleton_live _ _ Hsk), sweep_live. }
  destruct (traversals_run st' self Hwf1 Hl1) as (N & _ & Hin & Hps & _).
  eexists. split; [exact Hps|].
  intros p [Hty Hp%Hin]%list_elem_of_filter.
  rewrite (skeleton_type _ _ Hsk) in Hty.
  assert (Hpr : requires_grad_of (heap (sweep st)) p = true).
  { unfold type_of, requires_grad_of in *.
    destruct (heap (sweep st) !! p) as [t|] eqn:Ht; [|done].
    simpl in *.
    destruct (reachable_sound grad_call _ (sweep_reachable st Hr) p t Ht)
      as (_ & _ & _ & Hpar & _).
    apply Hpar. congruence. }
  apply Hgr.
  - apply reaches_grad_path; [|done| |done].
    + by apply (reachable_sound grad_call), sweep_reachable.
    + eapply reaches_ext; [|exact Hp]. intros r.
      apply (skeleton_parents _ _ Hsk).
  - unfold cleared. rewrite (bool_decide_eq_false_2 (type_of _ p = Some INTERMEDIATE));
      [by destruct kg|]. rewrite Hty. congruence.
Qed.

Lemma grad_path_no_parents h self x :
  parents_of h self = [] → grad_path h self x → x = self.
Proof.
  intros Hnil Hp. induction Hp as [|x p _ IH Hp _]; [done|].
  subst x. rewrite Hnil in Hp. by apply elem_of_nil in Hp.
Qed.

(** X11: when every parent of the output is a registered stale
    tensor, [backward] unlinks the output from them before it builds its
    order: the output is left without parents and no tensor other than
    the output has its gradient changed. *)
Theorem stale_parents_cut_gradient st self gradient kg res st' :
  wf st → live st self →
  (∀ p, p ∈ parents_of (heap st) self →
     p ∈ _global_tensor_registry st ∧ stale_of (heap st) p = true) →
  backward grad_call self gradient kg st = (res, st') →
  parents_of (heap st') self = []
  ∧ ∀ x, x ≠ self → grad_of (heap st') x = grad_of (heap st) x.
Proof.
  intros Hwf Hl Hst Hrun.
  assert (Hnil : parents_of (heap (sweep st)) self = []).
  { unfold sweep. rewrite unlink_parents. apply filter_none.
    intros p Hp Hn. apply Hn. by apply stale_registered_spec, Hst. }
  split.
  - pose proof (backward_skeleton grad_call self gradient kg st Hwf Hl) as Hsk.
    rewrite Hrun in Hsk. simpl in Hsk.
    by rewrite (skeleton_parents _ _ Hsk).
  - intros x Hx. eapply backward_outside; [done|done|done|].
    intros Hp. by apply Hx, (grad_path_no_parents _ _ _ Hnil).
Qed.

Lemma run_pass_output self kg g st :
  wf st → live st self →
  ∃ st', run_pass grad_call self kg g st = (Ok tt, st')
    ∧ grad_of (heap st') self = Some g.
Proof.
  intros Hwf Hl.
  destruct (topo_order_members st self Hwf Hl) as (_ & _ & Hmem).
  destruct (run_pass_ind grad_call self kg g st
              (λ s, grad_of (heap s) self = Some g))
    as (st' & Hrun & _ & HI); [done|done| | |by exists st'].
  - rewrite seeded_grad by done. by rewrite decide_True.
  - intros node sta stb Hn%Hmem Hska HI Hskb Hg. rewrite Hg.
    assert (Hnp : self ∉ parents_of (heap sta) node).
    { rewrite (skeleton_parents _ _ Hska). intros Hp.
      destruct (wf_graph st Hwf node self Hp) as [Hlt _].
      pose proof (grad_path_le (heap st) self node (wf_graph st Hwf) Hn). lia. }
    destruct (decide (self = node)) as [<-|Hne];
      [|by rewrite grad_after_other].
    unfold grad_after. destruct (grad_fn_of (heap sta) self); [|done].
    rewrite HI. unfold cleared.
    rewrite (bool_decide_eq_false_2 (self ≠ self)) by (by intros ?).
    rewrite andb_false_r, andb_false_r. rewrite contributions_nil by done.
    simpl. by destruct (requires_grad_of (heap sta) self).
Qed.

(** X12: whenever [backward] returns, the output's gradient is exactly
    the seed, the gradient given or the ones buffer, whatever gradient
    the output had: the seed replaces it and the pass adds nothing to
    it. *)
Theorem backward_output_grad st self gradient kg t st' :
  wf st → heap st !! self = Some t →
  backward grad_call self gradient kg st = (Ok tt, st') →
  grad_of (heap st') self
  = Some (default (np_ones_like (_data t)) gradient).
Proof.
  intros Hwf Ht Hrun.
  destruct (clear_stale_tensors_run st Hwf) as [_ Hwf'].
  assert (Hl : live (sweep st) self) by (apply sweep_live; by exists t).
  rewrite (backward_unfold _ _ _ _ _ t Hwf Ht) in Hrun.
  destruct (negb (_requires_grad t)); [done|].
  destruct gradient as [g|]; simpl.
  - destruct (run_pass_output self kg g (sweep st) Hwf' Hl) as (s & Hs & Hg).
    rewrite Hs in Hrun. by injection Hrun as <-.
  - case_bool_decide; [done|].
    destruct (run_pass_output self kg (np_ones_like (_data t)) (sweep st)
                Hwf' Hl) as (s & Hs & Hg).
    rewrite Hs in Hrun. by injection Hrun as <-.
Qed.

(** X13: running [clear_stale_tensors] just before [backward] changes
    neither the result nor the final store. *)
Theorem backward_after_clear st self gradient kg :
  wf st → live st self →
  (clear_stale_tensors ;; backward grad_call self gradient kg) st
  = backward grad_call self gradient kg st.
Proof.
  intros Hwf [t Ht].
  destruct (clear_stale_tensors_run st Hwf) as [Hclear Hwf'].
  unfold mbind at 1, M_bind at 1, bind at 1. rewrite Hclear.
  destruct (unlink_data (stale_registered st) st self t Ht)
    as (t' & Ht' & Hd & Hr).
  fold (sweep st) in Ht'.
  rewrite (backward_unfold _ _ _ _ _ t' Hwf' Ht').
  rewrite (backward_unfold _ _ _ _ _ t Hwf Ht).
  by rewrite sweep_idemp, Hd, Hr.
Qed.

End Gradients.

(** * Links *)
Section Links.
Context `{np : NumPy}.

Lemma marked_marked self st : marked self (marked self st) = marked self st.
Proof.
  unfold marked, update. simpl. f_equal. apply map_eq. intros r.
  destruct (decide (self = r)) as [->|Hne].
  - rewrite !lookup_alter_eq. by destruct (heap st !! r).
  - by rewrite !lookup_alter_ne.
Qed.

(** X14: on a tensor that is itself a transpose, [T] allocates nothing
    and never raises: it returns the one parent, which is not a
    transpose, and only sets the stale flag; the registry, the counter
    and every link stay as they are, and a second call returns the same
    parent and changes nothing more. *)
Theorem T_of_transpose st self :
  wf st → live st self →
  grad_fn_of (heap st) self = Some transpose_backward →
  ∃ p, parents_of (heap st) self = [p]
    ∧ grad_fn_of (heap st) p ≠ Some transpose_backward
    ∧ T self st = (Ok p, marked self st)
    ∧ T self (marked self st) = (Ok p, marked self st)
    ∧ stale_of (heap (marked self st)) self = true
    ∧ _id_counter (marked self st) = _id_counter st
    ∧ _global_tensor_registry (marked self st) = _global_tensor_registry st
    ∧ ∀ r, parents_of (heap (marked self st)) r = parents_of (heap st) r
           ∧ children_of (heap (marked self st)) r = children_of (heap st) r.
Proof.
  intros Hwf [t Ht] Hf.
  destruct (wf_transpose st Hwf self Hf) as (p & Hp & Hnp).
  assert (Hm : heap (marked self st) !! self = Some (with_stale true t)).
  { unfold marked, update. simpl. by rewrite lookup_alter_eq, Ht. }
  assert (HT : ∀ s t0, heap s !! self = Some t0 →
            _grad_fn t0 = Some transpose_backward → _parents t0 = [p] →
            T self s = (Ok p, marked self s)).
  { intros s t0 Hs Hg Hps. rewrite (T_run self s t0 Hs).
    rewrite bool_decide_eq_true_2; [by rewrite Hps|]. by rewrite Hps. }
  unfold parents_of, grad_fn_of in Hp, Hf. rewrite Ht in Hp, Hf. simpl in *.
  exists p. split_and!.
  - unfold parents_of. by rewrite Ht.
  - done.
  - by apply (HT st t).
  - rewrite (HT (marked self st) (with_stale true t)); [|done|done|done].
    by rewrite marked_marked.
  - unfold stale_of. by rewrite Hm.
  - done.
  - done.
  - intros r. unfold parents_of, children_of, marked, update. simpl.
    destruct (decide (self = r)) as [->|Hne].
    + rewrite lookup_alter_eq. by destruct (heap st !! r).
    + by rewrite lookup_alter_ne.
Qed.

(** X15: [_create_node] on live parents returns a fresh tensor whose
    id is the counter: the counter moves by one, the registry gets the id
    appended, the node has the given parents, data and gradient function,
    no children and no gradient, and every other tensor gets the node
    appended to its children once per occurrence among the parents (twice
    for [x + x]) and keeps its parents and its gradient. *)
Theorem create_node_links d f ps ex st :
  wf st → (∀ p, p ∈ ps → live st p) →
  let node := _id_counter st in
  ∃ st', _create_node d f ps ex st = (Ok node, st')
    ∧ ¬ live st node
    ∧ _id_counter st' = S node
    ∧ _global_tensor_registry st' = _global_tensor_registry st ++ [node]
    ∧ parents_of (heap st') node = ps
    ∧ children_of (heap st') node = []
    ∧ grad_fn_of (heap st') node = f
    ∧ grad_of (heap st') node = None
    ∧ type_of (heap st') node = Some INTERMEDIATE
    ∧ data_of (heap st') node = Some d
    ∧ shape_of (heap st') node = np_shape d
    ∧ ∀ r, r ≠ node →
        children_of (heap st') r
        = children_of (heap st) r ++ replicate (count r ps) node
        ∧ parents_of (heap st') r = parents_of (heap st) r
        ∧ grad_of (heap st') r = grad_of (heap st) r.
Proof.
  intros Hwf Hps node. rewrite create_node_run. eexists. split; [done|].
  pose proof (wf_ids st Hwf) as Hids.
  set (tn := new_node d f ps ex st).
  assert (Hps' : ∀ p, p ∈ _parents tn → live st p) by done.
  assert (Hnew : heap (installed tn st) !! node = Some tn).
  { by apply installed_lookup_new. }
  split_and!.
  - by apply fresh_not_live'.
  - done.
  - done.
  - rewrite installed_parents by done. by rewrite decide_True.
  - rewrite installed_children by done. by rewrite decide_True.
  - rewrite installed_grad_fn by done. by rewrite decide_True.
  - rewrite installed_grad by done. by rewrite decide_True.
  - unfold type_of. by rewrite Hnew.
  - unfold data_of. by rewrite Hnew.
  - unfold shape_of. by rewrite Hnew.
  - intros r Hr. split_and!.
    + rewrite installed_children by done. by rewrite decide_False.
    + rewrite installed_parents by done. by rewrite decide_False.
    + rewrite installed_grad by done. by rewrite decide_False.
Qed.

End Links.

(** * Shapes *)
Section Shapes.
Context `{np : NumPy}.

(** X16: [reshape] raises its [ValueError], and leaves the store as it
    was, whenever the product the guard computes for the new shape, in
    wrap-around [int64], is negative while that of the tensor's shape is
    not (as for every array numpy can hold); so the wildcard [-1], which
    numpy accepts for one dimension, is rejected by the guard before
    numpy sees it. *)
Theorem reshape_rejects_negative st self new_shape :
  live st self →
  (0 ≤ np_prod (Z.of_nat <$> shape_of (heap st) self))%Z →
  (np_prod new_shape < 0)%Z →
  reshape self new_shape st
  = (Raise (ValueError
       "New shape must have the same number of elements as the original shape."),
     st).
Proof.
  intros [s Hs] Hpos Hneg. unfold shape_of in Hpos. rewrite Hs in Hpos.
  simpl in Hpos. unfold reshape, mbind, M_bind, bind, deref.
  rewrite Hs. rewrite bool_decide_eq_true_2; [done|]. lia.
Qed.

End Shapes.

(** * What the operators build *)
Section Forward.
Context `{np : NumPy}.

Lemma create_node_built d f ps ex st :
  ids_ok st → (∀ p, p ∈ ps → live st p) →
  built st (_create_node d (Some f) ps ex st) d f ps.
Proof.
  intros Hids Hps. rewrite create_node_run. unfold built. cbn [fst snd].
  set (tn := new_node d (Some f) ps ex st).
  assert (Hps' : ∀ p, p ∈ _parents tn → live st p) by done.
  assert (Hnew : heap (installed tn st) !! _id_counter st = Some tn).
  { by apply installed_lookup_new. }
  split_and!.
  - done.
  - unfold data_of. by rewrite Hnew.
  - unfold grad_fn_of. by rewrite Hnew.
  - unfold parents_of. by rewrite Hnew.
  - unfold requires_grad_of at 1. rewrite Hnew.
    exact (new_node_requires_grad d (Some f) ps ex st Hids Hps).
  - intros p Hp. rewrite installed_children by done.
    rewrite decide_False by (by apply live_not_fresh, Hps).
    apply elem_of_app. right. apply elem_of_replicate. split; [done|].
    pose proof (count_pos p ps Hp). simpl. lia.
Qed.

(** X17: between two tensors of equal shape, [+], [-] and [*] return a
    new node holding numpy's sum, difference or product of the two data
    buffers, with the matching gradient function and the two operands as
    parents in order; [@] does so for operands of two or more dimensions
    with aligned inner dimensions whose product numpy computes.  The node
    requires gradients iff an operand does, and each operand lists it
    among its children. *)
Theorem binary_result st a b s t :
  wf st → heap st !! a = Some s → heap st !! b = Some t →
  (_shape s = _shape t →
     built st (__add__ a (OTensor b) st) (np_add (_data s) (_data t))
       add_backward [a; b]
     ∧ built st (__sub__ a (OTensor b) st) (np_sub (_data s) (_data t))
         sub_backward [a; b]
     ∧ built st (__mul__ a (OTensor b) st) (np_mul (_data s) (_data t))
         mul_backward [a; b])
  ∧ (∀ d, 2 ≤ length (_shape s) → 2 ≤ length (_shape t) →
       from_end (_shape s) 0 = from_end (_shape t) 1 →
       np_matmul (_data s) (_data t) = Some d →
       built st (__matmul__ a (OTensor b) st) d matmul_backward [a; b]).
Proof.
  intros Hwf Hs Ht.
  assert (Hps : ∀ p, p ∈ [a; b] → live st p).
  { apply live_pair; by eexists. }
  split.
  - intros Hsh.
    unfold __add__, __sub__, __mul__, mbind, M_bind, bind, deref.
    rewrite Hs, Ht. rewrite bool_decide_eq_false_2 by (by intros ?).
    split_and!; apply create_node_built; done || apply Hwf.
  - intros d H1 H2 Hal Hd.
    unfold __matmul__, mbind, M_bind, bind, deref. rewrite Hs, Ht.
    rewrite bool_decide_eq_false_2 by lia.
    rewrite bool_decide_eq_false_2 by (by intros ?).
    rewrite Hd. apply create_node_built; done || apply Hwf.
Qed.

End Forward.

Module Examples.
Import Float32.

Lemma is_Some_checked {A} (o : option A) :
  bool_decide (is_Some o) = true → is_Some o.
Proof. apply bool_decide_eq_true_1. Qed.

Lemma lookup_default (h : gmap nat Tensor) (r : nat) (d : Tensor) :
  is_Some (h !! r) → h !! r = Some (default d (h !! r)).
Proof. by intros [t ->]. Qed.

Lemma returned {A} (out : Result A * State) (a : A) :
  out.1 = Ok a → out = (Ok a, out.2).
Proof. destruct out as [r s]. simpl. by intros ->. Qed.

Lemma state_of_wf cs :
  bool_decide (is_Some (run_calls grad_call cs empty_state)) = true →
  wf (state_of cs).
Proof.
  intros [st Hst]%bool_decide_eq_true_1. unfold state_of. rewrite Hst. simpl.
  eapply run_calls_wf; [apply empty_wf|exact Hst].
Qed.

Lemma diamond_wf : wf diamond.
Proof. apply state_of_wf. vm_compute. reflexivity. Qed.

Lemma twice_wf : wf twice.
Proof. apply state_of_wf. vm_compute. reflexivity. Qed.

Lemma chain_kept_wf : wf chain_kept.
Proof. apply state_of_wf. vm_compute. reflexivity. Qed.

Lemma matrix_wf : wf matrix.
Proof. apply state_of_wf. vm_compute. reflexivity. Qed.

Lemma transposed_wf : wf transposed.
Proof. apply state_of_wf. vm_compute. reflexivity. Qed.

Lemma with_stale_node_wf : wf with_stale_node.
Proof. apply state_of_wf. vm_compute. reflexivity. Qed.

Lemma empty_param_wf : wf empty_param.
Proof. apply state_of_wf. vm_compute. reflexivity. Qed.

Lemma shapes_wf : wf shapes.
Proof. apply state_of_wf. vm_compute. reflexivity. Qed.

(** The example of the accumulation rule: after [a * 2] and [a * 3] have
    both been differentiated, the gradient of [a] is [5.0]. *)
Example twice_grad :
  grad_of (heap twice) 0 = Some (vector [2%Z])
  ∧ grad_of (heap (backward 2 None false twice).2) 0 = Some (vector [5%Z]).
Proof. split; vm_compute; reflexivity. Qed.

(** Two paths to a shared sub-expression: [z = a * 2 + a * 3]. *)
Example diamond_grad :
  grad_of (heap (backward 3 None false diamond).2) 0 = Some (vector [5%Z]).
Proof. vm_compute. reflexivity. Qed.

Lemma single_wf : wf single.
Proof. apply state_of_wf. vm_compute. reflexivity. Qed.

Lemma tensor_at_lookup st r :
  bool_decide (is_Some (heap st !! r)) = true →
  heap st !! r = Some (tensor_at st r).
Proof. intros H%bool_decide_eq_true_1. by apply lookup_default. Qed.

Lemma elem_checked (x : nat) (l : list nat) :
  bool_decide (x ∈ l) = true → x ∈ l.
Proof. apply bool_decide_eq_true_1. Qed.

Example diamond_order : topo_order diamond 3 = [0; 1; 2; 3].
Proof. vm_compute. reflexivity. Qed.

Lemma C1_witness :
  ∃ order, topo_order_of 3 diamond = (Ok order, diamond)
    ∧ NoDup order
    ∧ (∀ x p, x ∈ order → p ∈ parents_of (heap diamond) x → p ∈ order →
         before (rev order) x p).
Proof.
  destruct (C1_topo_order diamond 3) as (order & H1 & H2 & _ & _ & _ & H6).
  - apply diamond_wf.
  - apply diamond_wf.
  - apply is_Some_checked. vm_compute. reflexivity.
  - exists order. exact (conj H1 (conj H2 H6)).
Defined.

(** Seeding the swept store leaves its graph intact. *)
Lemma seeded_graph_ok st self g :
  wf st → graph_ok (heap (seeded (np:=numpy) self g (sweep st))).
Proof.
  intros Hwf. destruct (clear_stale_tensors_run st Hwf) as [_ Hwf'].
  eapply skeleton_graph_ok; [apply update_grad_skeleton|apply Hwf'].
Qed.

(** On the diamond, [z.backward([1.0])] is the loop over the reversed
    order from the seeded store; its first step, at [z = x + y] itself,
    succeeds and hands the seed [1.0] on to the parent [x]. *)
Lemma C2_witness :
  backward 3 (Some (vector [1%Z])) false diamond
  = for_each (rev (topo_order (sweep diamond) 3))
      (backward_node grad_call 3 false)
      (seeded 3 (vector [1%Z]) (sweep diamond))
  ∧ ∃ stb,
      backward_node grad_call 3 false 3
        (seeded 3 (vector [1%Z]) (sweep diamond)) = (Ok tt, stb)
      ∧ grad_of (heap stb) 1 = Some (vector [1%Z]).
Proof.
  destruct (C2_backward_pass grad_call diamond 3 (vector [1%Z]) false
              (tensor_at diamond 3) diamond_wf) as [Hpass Hstep].
  - apply tensor_at_lookup. vm_compute. reflexivity.
  - vm_compute. reflexivity.
  - split; [exact Hpass|].
    destruct (Hstep (seeded (np:=numpy) 3 (vector [1%Z]) (sweep diamond)) 3
                add_backward (vector [1%Z]))
      as (stb & Hrun & _ & _ & _ & Honce).
    + apply seeded_graph_ok, diamond_wf.
    + apply is_Some_checked. vm_compute. reflexivity.
    + vm_compute. reflexivity.
    + vm_compute. reflexivity.
    + vm_compute. reflexivity.
    + exists stb. split; [exact Hrun|].
      rewrite (Honce 0 1 (vector [1%Z])).
      * vm_compute. reflexivity.
      * vm_compute. reflexivity.
      * vm_compute. reflexivity.
      * vm_compute. reflexivity.
      * vm_compute. reflexivity.
Defined.

Lemma C3_witness :
  ∃ gs, grad_of (heap (backward 2 None false twice).2) 0
        = Some (foldl np_add (vector [2%Z]) gs).
Proof.
  refine (C3_backward_accumulates grad_call twice 2 None false
            (backward 2 None false twice).1 (backward 2 None false twice).2
            0 (vector [2%Z]) twice_wf _ _ _ _ _).
  - apply is_Some_checked. vm_compute. reflexivity.
  - apply surjective_pairing.
  - lia.
  - right. vm_compute. discriminate.
  - vm_compute. reflexivity.
Defined.

Lemma C3_counterexample :
  ¬ (∀ x g, grad_of (heap chain_kept) x = Some g →
       ∃ gs, grad_of (heap (backward 2 None false chain_kept).2) x
             = Some (foldl np_add g gs)).
Proof.
  intros Hacc.
  assert (Hb : grad_of (heap chain_kept) 1 = Some (vector [3%Z]))
    by (vm_compute; reflexivity).
  destruct (Hacc 1 _ Hb) as [gs Hgs].
  assert (Hn : grad_of (heap (backward 2 None false chain_kept).2) 1 = None)
    by (vm_compute; reflexivity).
  rewrite Hn in Hgs.
  exact (eq_ind None (λ o, match o with None => True | Some _ => False end)
           I _ Hgs).
Qed.

Lemma C4_witness :
  ∃ st1 st2,
    T 0 matrix = (Ok (_id_counter matrix), st1)
    ∧ T (_id_counter matrix) st1 = (Ok 0, st2)
    ∧ stale_of (heap st2) (_id_counter matrix) = true
    ∧ _id_counter matrix ∉ _global_tensor_registry (sweep st2).
Proof.
  destruct (C4_double_transpose matrix 0 matrix_wf)
    as (st1 & st2 & H1 & H2 & _ & _ & H5 & _ & H7 & _).
  - apply is_Some_checked. vm_compute. reflexivity.
  - vm_compute. intros H. inversion H.
  - exists st1, st2. exact (conj H1 (conj H2 (conj H5 H7))).
Defined.

(** [x = a.T()] is itself a transpose: [x.T()] is [a], and [a.T()] is a
    new tensor, not [x]. *)
Lemma C4_counterexample :
  live transposed 1
  ∧ (bind (T 1) T transposed).1 = Ok 2
  ∧ (bind (T 1) T transposed).1 ≠ Ok 1.
Proof.
  assert (Hrun : (bind (T 1) T transposed).1 = Ok 2)
    by (vm_compute; reflexivity).
  split_and!.
  - apply is_Some_checked. vm_compute. reflexivity.
  - exact Hrun.
  - rewrite Hrun. intros H. inversion H.
Qed.

Lemma C5_witness :
  clear_stale_tensors diamond = (Ok tt, sweep diamond)
  ∧ backward 3 None false diamond
    = run_pass grad_call 3 false (np_ones_like (_data (tensor_at diamond 3)))
        (sweep diamond)
  ∧ np_shape (np_ones_like (_data (tensor_at diamond 3)))
    = shape_of (heap diamond) 3.
Proof.
  destruct (C5_backward_preconditions grad_call diamond 3 None false
              (tensor_at diamond 3) diamond_wf)
    as (H1 & _ & _ & _ & _ & H6).
  - apply tensor_at_lookup. vm_compute. reflexivity.
  - split; [exact H1|]. split.
    + apply H6.
      * reflexivity.
      * vm_compute. reflexivity.
      * vm_compute. reflexivity.
    + vm_compute. reflexivity.
Defined.

(** An empty buffer does not have more than one element, and the
    implicit-gradient error is raised all the same. *)
Lemma C5_counterexample :
  heap empty_param !! 0 = Some (tensor_at empty_param 0)
  ∧ ¬ ((backward 0 None false empty_param).1
       = Raise (RuntimeError
           "Gradient can only be implicitly created for scalar outputs")
       ↔ 1 < np_size (_data (tensor_at empty_param 0))).
Proof.
  split.
  - apply tensor_at_lookup. vm_compute. reflexivity.
  - intros [Hraise _].
    assert (Hlt : 1 < np_size (_data (tensor_at empty_param 0))).
    { apply Hraise. vm_compute. reflexivity. }
    vm_compute in Hlt. lia.
Qed.

Lemma C6_witness :
  requires_grad_of
    (heap (exec grad_call (CallBackward 3 None false) diamond).2) 1
  = requires_grad_of (heap diamond) 1
  ∧ ∃ st', _create_node (vector [2%Z]) (Some negate_backward) [0] ∅ diamond
           = (Ok (_id_counter diamond), st')
      ∧ (requires_grad_of (heap st') (_id_counter diamond) = true
         ↔ ∃ p, p ∈ [0] ∧ requires_grad_of (heap diamond) p = true).
Proof.
  destruct (C6_requires_grad_fixed grad_call diamond diamond_wf)
    as (_ & Hcreate & Hkeep).
  split.
  - apply Hkeep.
    + apply is_Some_checked. vm_compute. reflexivity.
    + apply is_Some_checked. vm_compute. reflexivity.
  - apply Hcreate. intros p Hp. apply list_elem_of_singleton in Hp.
    rewrite Hp. apply is_Some_checked. vm_compute. reflexivity.
Defined.

Lemma C7_witness :
  __add__ 0 (OTensor 1) shapes
  = (Raise (ValueError "Shape mismatch for addition"), shapes)
  ∧ __matmul__ 0 (OTensor 1) shapes
    = (Raise (ValueError
         "Matrix multiplication requires at least 2D tensors."), shapes)
  ∧ reshape 0 [4%Z] shapes
    = (Raise (ValueError
         "New shape must have the same number of elements as the original shape."),
       shapes).
Proof.
  destruct (C7_rejected_operations shapes 0 1) as (H1 & _ & H3 & _ & H5 & _).
  - apply is_Some_checked. vm_compute. reflexivity.
  - apply is_Some_checked. vm_compute. reflexivity.
  - split; [|split].
    + apply H1. vm_compute. intros H. inversion H.
    + apply H3. left. vm_compute. lia.
    + apply H5. vm_compute. intros H. inversion H.
Defined.

(** The guard of [reshape] counts in [int64]: on the six elements of
    [matrix] the new shape [(-(2**63 - 3), 2)] has the product [6] for
    it, numpy infers the negative entry, and the node has shape
    [(3, 2)], with six elements. *)
Example reshape_wraps :
  np_prod [(-(2 ^ 63 - 3))%Z; 2%Z] = 6%Z
  ∧ (reshape 0 [(-(2 ^ 63 - 3))%Z; 2%Z] matrix).1 = Ok 1
  ∧ shape_of (heap (reshape 0 [(-(2 ^ 63 - 3))%Z; 2%Z] matrix).2) 1 = [3; 2].
Proof. vm_compute. done. Qed.


Lemma C9_witness :
  clear_stale_tensors with_stale_node = (Ok tt, sweep with_stale_node)
  ∧ 1 ∉ _global_tensor_registry (sweep with_stale_node)
  ∧ clear_stale_tensors (sweep with_stale_node)
    = (Ok tt, sweep with_stale_node).
Proof.
  destruct (C9_clear_stale_tensors with_stale_node with_stale_node_wf)
    as (H1 & H2 & _ & _ & H5 & _).
  destruct (H2 1) as (H21 & _).
  - apply elem_checked. vm_compute. reflexivity.
  - vm_compute. reflexivity.
  - exact (conj H1 (conj H21 H5)).
Defined.

(** The stale transpose 1 is gone from the registry, from the children
    of its parent 0 and from the parents of its child 2. *)
Example with_stale_node_swept :
  stale_registered with_stale_node = [1]
  ∧ _global_tensor_registry (sweep with_stale_node) = [0; 2]
  ∧ children_of (heap with_stale_node) 0 = [1]
  ∧ children_of (heap (sweep with_stale_node)) 0 = []
  ∧ parents_of (heap with_stale_node) 2 = [1]
  ∧ parents_of (heap (sweep with_stale_node)) 2 = [].
Proof. split_and!; vm_compute; reflexivity. Qed.

Lemma C10_witness :
  __rsub__ 0 (OScalar (py_of_Z 3)) single
  = __sub__ 0 (OScalar (py_of_Z 3)) single
  ∧ ∃ st', __rsub__ 0 (OScalar (py_of_Z 3)) single
           = (Ok (_id_counter single), st')
      ∧ _data <$> heap st' !! _id_counter single
        = Some (np_sub_scalar (_data (tensor_at single 0)) (py_of_Z 3)).
Proof.
  destruct (C10_rsub_is_sub single 0 (py_of_Z 3) (tensor_at single 0))
    as (H1 & st' & H2 & H3 & _).
  - apply single_wf.
  - apply tensor_at_lookup. vm_compute. reflexivity.
  - split; [exact H1|]. exists st'. exact (conj H2 H3).
Defined.

(** [3 - a] for [a = [1.0]] is the node of [a - 3]: its data is [-2.0],
    not [2.0]. *)
Example rsub_data :
  data_of (heap (__rsub__ 0 (OScalar (py_of_Z 3)) single).2) 1
  = Some (vector [(-2)%Z]).
Proof. vm_compute. reflexivity. Qed.

(** ** The traversals, the invariants and the gradients on concrete graphs *)

Lemma state_of_reachable cs :
  bool_decide (is_Some (run_calls grad_call cs empty_state)) = true →
  reachable grad_call (state_of cs).
Proof.
  intros [st Hst]%bool_decide_eq_true_1. unfold state_of. rewrite Hst. simpl.
  eapply run_calls_reachable; [apply rtc_refl|exact Hst].
Qed.

Lemma two_params_reachable : reachable grad_call two_params.
Proof. apply state_of_reachable. vm_compute. reflexivity. Qed.

Lemma two_params_wf : wf two_params.
Proof. apply state_of_wf. vm_compute. reflexivity. Qed.

Lemma with_stale_node_reachable : reachable grad_call with_stale_node.
Proof. apply state_of_reachable. vm_compute. reflexivity. Qed.

(** The gradient functions of the backend return one buffer per parent. *)
Lemma grad_call_length f h n g :
  length (grad_call f h n g) = length (parents_of h n).
Proof.
  unfold grad_call, parents_of. destruct (h !! n) as [t|]; [|done]. simpl.
  destruct f; by rewrite ?length_fmap, ?length_imap.
Qed.

Example two_params_parameters :
  (get_parameters 4 two_params).1 = Ok [0; 2].
Proof. vm_compute. reflexivity. Qed.

Example two_params_counts :
  ((λ c, (c !! INPUT, c !! PARAMETER, c !! INTERMEDIATE))
     <$> match (count_by_type 4 two_params).1 with
         | Ok c => Some c | Raise _ => None end)
  = Some (Some 1, Some 2, Some 2).
Proof. vm_compute. reflexivity. Qed.

Lemma get_parameters_reachable_witness :
  ∃ ps, get_parameters 4 two_params = (Ok ps, two_params) ∧ NoDup ps
    ∧ ∀ x, x ∈ ps ↔ reaches (heap two_params) 4 x
                    ∧ type_of (heap two_params) x = Some PARAMETER.
Proof.
  apply (get_parameters_reachable two_params 4 two_params_wf).
  apply is_Some_checked. vm_compute. reflexivity.
Defined.

Lemma count_by_type_counts_witness :
  ∃ counts, count_by_type 4 two_params = (Ok counts, two_params)
    ∧ ∀ k, ∃ l, counts !! k = Some (length l) ∧ NoDup l
        ∧ ∀ x, x ∈ l ↔ reaches (heap two_params) 4 x
                       ∧ type_of (heap two_params) x = Some k.
Proof.
  apply (count_by_type_counts two_params 4 two_params_wf).
  apply is_Some_checked. vm_compute. reflexivity.
Defined.

Lemma count_by_type_total_witness :
  ∃ ps counts all i p m,
    get_parameters 4 two_params = (Ok ps, two_params)
    ∧ count_by_type 4 two_params = (Ok counts, two_params)
    ∧ counts !! INPUT = Some i ∧ counts !! PARAMETER = Some p
    ∧ counts !! INTERMEDIATE = Some m
    ∧ p = length ps
    ∧ NoDup all ∧ (∀ x, x ∈ all ↔ reaches (heap two_params) 4 x)
    ∧ i + p + m = length all.
Proof.
  apply (count_by_type_total two_params 4 two_params_wf).
  apply is_Some_checked. vm_compute. reflexivity.
Defined.

Lemma exec_keeps_fixed_slots_witness :
  ∃ t', heap (exec grad_call (CallBackward 3 None false) diamond).2 !! 0
        = Some t'
    ∧ _data t' = _data (tensor_at diamond 0)
    ∧ _shape t' = _shape (tensor_at diamond 0)
    ∧ _id t' = _id (tensor_at diamond 0)
    ∧ _grad_fn t' = _grad_fn (tensor_at diamond 0)
    ∧ _extra t' = _extra (tensor_at diamond 0)
    ∧ _version t' = _version (tensor_at diamond 0)
    ∧ _tensor_type t' = _tensor_type (tensor_at diamond 0).
Proof.
  apply (exec_keeps_fixed_slots grad_call (CallBackward 3 None false) diamond 0
           (tensor_at diamond 0) diamond_wf).
  - apply is_Some_checked. vm_compute. reflexivity.
  - apply tensor_at_lookup. vm_compute. reflexivity.
Defined.

Lemma reachable_consistent_witness :
  _id (tensor_at two_params 4) = 4
  ∧ _shape (tensor_at two_params 4) = np_shape (_data (tensor_at two_params 4))
  ∧ _requires_grad (tensor_at two_params 4) = true.
Proof.
  destruct (reachable_consistent grad_call two_params 4 (tensor_at two_params 4)
              two_params_reachable)
    as (Hid & Hsh & _ & _ & _ & Hm).
  - apply tensor_at_lookup. vm_compute. reflexivity.
  - split; [exact Hid|]. split; [exact Hsh|]. apply (Hm 3).
    + apply elem_checked. vm_compute. reflexivity.
    + vm_compute. reflexivity.
Defined.

Lemma reachable_graph_witness :
  NoDup (_global_tensor_registry with_stale_node)
  ∧ ∃ p, parents_of (heap with_stale_node) 1 = [p]
         ∧ grad_fn_of (heap with_stale_node) p ≠ Some transpose_backward.
Proof.
  destruct (reachable_graph grad_call with_stale_node with_stale_node_reachable)
    as (_ & _ & _ & Hnd & _ & _ & _ & Hst & Htr).
  split; [exact Hnd|]. apply Htr, Hst. vm_compute. reflexivity.
Defined.

Lemma backward_frame_witness :
  grad_of (heap (backward 3 None false two_params).2) 2
  = grad_of (heap two_params) 2
  ∧ grad_of (heap (backward 3 None false two_params).2) 1
    = grad_of (heap two_params) 1.
Proof.
  destruct (backward_frame grad_call two_params 3 None false
              (backward 3 None false two_params).1
              (backward 3 None false two_params).2 two_params_wf)
    as [Hout Hno].
  - apply is_Some_checked. vm_compute. reflexivity.
  - apply surjective_pairing.
  - split.
    + apply Hout. intros Hp.
      destruct (topo_order_members (sweep two_params) 3) as (_ & _ & Hmem).
      * exact (proj2 (clear_stale_tensors_run two_params two_params_wf)).
      * apply is_Some_checked. vm_compute. reflexivity.
      * apply Hmem in Hp. revert Hp.
        apply (bool_decide_eq_false_1 (2 ∈ topo_order (sweep two_params) 3)).
        vm_compute. reflexivity.
    + apply Hno. vm_compute. reflexivity.
Defined.

Lemma output_processed_first_witness :
  ∃ l, topo_order two_params 4 = l ++ [4]
    ∧ rev (topo_order two_params 4) = 4 :: rev l
    ∧ ∀ x, x ∈ l → x < 4.
Proof.
  apply (output_processed_first two_params 4 two_params_wf).
  - apply is_Some_checked. vm_compute. reflexivity.
  - vm_compute. reflexivity.
Defined.

(** Checking by computation that the tensors of an order that have
    parents have a gradient function. *)
Lemma order_has_grad_fn (st : State) (self : nat) :
  bool_decide
    (Forall (λ n, parents_of (heap (sweep st)) n ≠ [] →
                  is_Some (grad_fn_of (heap st) n))
       (topo_order (sweep st) self)) = true →
  ∀ n, n ∈ topo_order (sweep st) self →
    parents_of (heap (sweep st)) n ≠ [] → is_Some (grad_fn_of (heap st) n).
Proof.
  intros H%bool_decide_eq_true_1. exact (proj1 (Forall_forall _ _) H).
Qed.

Lemma backward_reaches_order_witness :
  is_Some (grad_of (heap (backward 4 None false two_params).2) 0)
  ∧ is_Some (grad_of (heap (backward 4 None false two_params).2) 2).
Proof.
  pose proof (backward_reaches_order grad_call two_params 4 None false
                (backward 4 None false two_params).2 two_params_wf) as H.
  assert (Hin : ∀ x, bool_decide (x ∈ topo_order (sweep two_params) 4) = true →
            grad_path (heap (sweep two_params)) 4 x).
  { intros x Hx%bool_decide_eq_true_1.
    apply (topo_order_members (sweep two_params) 4); [| |exact Hx].
    - exact (proj2 (clear_stale_tensors_run two_params two_params_wf)).
    - apply is_Some_checked. vm_compute. reflexivity. }
  split; apply H.
  all: try (apply is_Some_checked; vm_compute; reflexivity).
  all: try (intros; apply grad_call_length).
  all: try (apply order_has_grad_fn; vm_compute; reflexivity).
  all: try (apply returned; vm_compute; reflexivity).
  all: try (apply Hin; vm_compute; reflexivity).
  all: right; left; vm_compute; intros Heq; inversion Heq.
Defined.

Lemma parameters_receive_gradients_witness :
  ∃ ps, get_parameters 4 (backward 4 None false two_params).2
        = (Ok ps, (backward 4 None false two_params).2)
    ∧ ∀ p, p ∈ ps →
        is_Some (grad_of (heap (backward 4 None false two_params).2) p).
Proof.
  apply (parameters_receive_gradients grad_call two_params 4 None false
           (backward 4 None false two_params).2 two_params_reachable).
  - apply is_Some_checked. vm_compute. reflexivity.
  - intros. apply grad_call_length.
  - apply order_has_grad_fn. vm_compute. reflexivity.
  - apply returned. vm_compute. reflexivity.
Defined.

Lemma T_of_transpose_witness :
  ∃ p, parents_of (heap transposed) 1 = [p]
    ∧ grad_fn_of (heap transposed) p ≠ Some transpose_backward
    ∧ T 1 transposed = (Ok p, marked 1 transposed)
    ∧ T 1 (marked 1 transposed) = (Ok p, marked 1 transposed)
    ∧ stale_of (heap (marked 1 transposed)) 1 = true
    ∧ _id_counter (marked 1 transposed) = _id_counter transposed
    ∧ _global_tensor_registry (marked 1 transposed)
      = _global_tensor_registry transposed
    ∧ ∀ r, parents_of (heap (marked 1 transposed)) r
           = parents_of (heap transposed) r
           ∧ children_of (heap (marked 1 transposed)) r
             = children_of (heap transposed) r.
Proof.
  apply (T_of_transpose transposed 1 transposed_wf).
  - apply is_Some_checked. vm_compute. reflexivity.
  - vm_compute. reflexivity.
Defined.

Lemma create_node_links_witness :
  ∃ st', _create_node (vector [2%Z]) (Some add_backward) [0; 0] ∅ single
         = (Ok 1, st')
    ∧ children_of (heap st') 0 = [1; 1]
    ∧ parents_of (heap st') 1 = [0; 0].
Proof.
  destruct (create_node_links (np:=numpy) (vector [2%Z]) (Some add_backward)
              [0; 0] ∅ single single_wf)
    as (st' & Hrun & _ & _ & _ & Hps & _ & _ & _ & _ & _ & _ & Hold).
  - intros p Hp. apply is_Some_checked.
    apply elem_of_cons in Hp as [->|Hp]; [vm_compute; reflexivity|].
    apply list_elem_of_singleton in Hp. rewrite Hp. vm_compute. reflexivity.
  - exists st'. split; [exact Hrun|]. split; [|exact Hps].
    destruct (Hold 0) as (Hc & _); [vm_compute; lia|]. exact Hc.
Defined.

Lemma stale_parents_cut_gradient_witness :
  parents_of
    (heap (backward 2 (Some (full [3; 2] 1)) false with_stale_node).2) 2 = []
  ∧ grad_of
      (heap (backward 2 (Some (full [3; 2] 1)) false with_stale_node).2) 0
    = grad_of (heap with_stale_node) 0.
Proof.
  destruct (stale_parents_cut_gradient grad_call with_stale_node 2
              (Some (full [3; 2] 1)) false
              (backward 2 (Some (full [3; 2] 1)) false with_stale_node).1
              (backward 2 (Some (full [3; 2] 1)) false with_stale_node).2
              with_stale_node_wf)
    as [Hps Hg].
  - apply is_Some_checked. vm_compute. reflexivity.
  - intros p Hp.
    assert (Hl : parents_of (heap with_stale_node) 2 = [1])
      by (vm_compute; reflexivity).
    rewrite Hl in Hp. apply list_elem_of_singleton in Hp. rewrite Hp.
    split; [apply elem_checked|]; vm_compute; reflexivity.
  - apply surjective_pairing.
  - split; [exact Hps|]. apply Hg. lia.
Defined.

Lemma backward_output_grad_witness :
  grad_of (heap (backward 4 (Some (vector [5%Z])) false two_params).2) 4
  = Some (vector [5%Z])
  ∧ grad_of (heap (backward 4 None false two_params).2) 4
    = Some (np_ones_like (_data (tensor_at two_params 4))).
Proof.
  split.
  - apply (backward_output_grad grad_call two_params 4 (Some (vector [5%Z]))
             false (tensor_at two_params 4) _ two_params_wf).
    + apply tensor_at_lookup. vm_compute. reflexivity.
    + apply returned. vm_compute. reflexivity.
  - apply (backward_output_grad grad_call two_params 4 None
             false (tensor_at two_params 4) _ two_params_wf).
    + apply tensor_at_lookup. vm_compute. reflexivity.
    + apply returned. vm_compute. reflexivity.
Defined.

Lemma backward_after_clear_witness :
  (clear_stale_tensors ;; backward 2 (Some (full [3; 2] 1)) false)
    with_stale_node
  = backward 2 (Some (full [3; 2] 1)) false with_stale_node.
Proof.
  apply (backward_after_clear grad_call with_stale_node 2
           (Some (full [3; 2] 1)) false with_stale_node_wf).
  apply is_Some_checked. vm_compute. reflexivity.
Defined.

Lemma reshape_rejects_negative_witness :
  reshape 0 [(-1)%Z; 2%Z] matrix
  = (Raise (ValueError
       "New shape must have the same number of elements as the original shape."),
     matrix)
  ∧ is_Some (np_reshape (_data (tensor_at matrix 0)) [(-1)%Z; 2%Z]).
Proof.
  split.
  - apply (reshape_rejects_negative matrix 0 [(-1)%Z; 2%Z]).
    + apply is_Some_checked. vm_compute. reflexivity.
    + vm_compute. intros H. inversion H.
    + vm_compute. reflexivity.
  - apply is_Some_checked. vm_compute. reflexivity.
Defined.


Lemma binary_result_witness :
  (__mul__ 0 (OTensor 1) two_params).1 = Ok 5
  ∧ parents_of (heap (__mul__ 0 (OTensor 1) two_params).2) 5 = [0; 1]
  ∧ requires_grad_of (heap (__mul__ 0 (OTensor 1) two_params).2) 5 = true.
Proof.
  destruct (binary_result two_params 0 1 (tensor_at two_params 0)
              (tensor_at two_params 1) two_params_wf) as [Hel _].
  - apply tensor_at_lookup. vm_compute. reflexivity.
  - apply tensor_at_lookup. vm_compute. reflexivity.
  - destruct Hel as (_ & _ & (Hok & _ & _ & Hps & Hreq & _)).
    + vm_compute. reflexivity.
    + split; [exact Hok|]. split; [exact Hps|].
      refine (eq_trans Hreq _). vm_compute. reflexivity.
Defined.

End Examples.
